(** * plug-core: the remote-API call engine

    A shallow embedding of [src/remote-api.ts] (class [RemoteAPI], the
    same code as [Pluggable]) and of the auth strategies under
    [src/core/src/auth/], with the properties of the engine that the
    specification states: the URL resolver, the response normalizer, the
    fixed-window rate limiter, and the call pipeline with its single
    retry.

    Conventions.
    - A JS object used as a dictionary is a [gmap string _]; an object
      whose entry order is observed ([pathParams], walked by
      [Object.entries]) is an association list.
    - JS numbers that count or stamp time are [Z].
    - Objects that the code mutates in place and shares by reference
      (the caller's params object, every [APICall]) live in a heap and
      are passed around as locations.
    - Code that throws is a computation in the state-and-exception monad
      [M]; a thrown exception keeps the mutations made before it. *)

From Stdlib Require Import ZArith String Ascii.
From stdpp Require Import gmap strings list.

#[local] Set Warnings "-register-all".
#[local] Open Scope string_scope.
#[local] Open Scope Z_scope.

(** ** JSON data (request payloads, response bodies) *)

Inductive JSON :=
| JNull
| JBool (b : bool)
| JNum (z : Z)
| JStr (s : string)
| JArr (l : list JSON)
| JObj (o : gmap string JSON).

(** ** Data model ([types.ts]) *)

(** Heap locations: references to objects shared between the engine,
    its hooks and event listeners. *)
Definition loc := nat.

(** [AuthStrategy.Type] *)
Inductive AuthType :=
| NONE
| BEARER_TOKEN
| REFRESHABLE_BEARER_TOKEN
| UNIPILE_CUSTOM_AUTH_BEARER_TOKEN.

#[global] Instance AuthType_eq_dec : EqDecision AuthType.
Proof. solve_decision. Defined.

(** [EndpointEventTypes] *)
Inductive EndpointEventTypes := BEFORE | AFTER | SUCCESS | ERROR.

#[global] Instance EndpointEventTypes_eq_dec : EqDecision EndpointEventTypes.
Proof. solve_decision. Defined.

Definition eventTypeString (t : EndpointEventTypes) : string :=
  match t with
  | BEFORE => "before"
  | AFTER => "after"
  | SUCCESS => "success"
  | ERROR => "error"
  end.

(** [EndpointCallParams]: every field is optional.  [pathParams] keeps
    the order of [Object.entries]; its values are already [String(value)].
    [auth] holds the credential fields ([accessToken], ...). *)
Record EndpointCallParams := {
  p_pathParams : option (list (string * string));
  p_query : option JSON;
  p_payload : option JSON;
  p_auth : option (gmap string string);
  p_context : option JSON;
}.

(** The normalization rule of an endpoint: a mapping table
    [targetKey -> source path], or a function of the call params and the
    raw payload, which may throw (the message of its error is on the
    left). *)
Inductive Normalization :=
| MappingTable (mapping : gmap string string)
| MappingFunction (f : option EndpointCallParams → option JSON → string + JSON).

(** [Endpoint].  [ep_method] is a string: the source validates it at run
    time ([validateApiCall]). *)
Record Endpoint := {
  ep_name : string;
  ep_method : string;
  ep_url : string;
  ep_authentication : option AuthType;
  ep_headers : option (gmap string string);
  ep_normalizationMapping : option Normalization;
}.

(** [AxiosResponse]; a field is [None] when the response object lacks
    it. *)
Record Response := {
  res_status : option Z;
  res_data : option JSON;
}.

(** [APICall.request] *)
Record Request := {
  req_method : string;
  req_url : string;
  req_query : option JSON;
  req_headers : gmap string string;
  req_auth : option (gmap string string);
  req_payload : option JSON;
}.

(** [APICall]: [response] is [undefined] until a dispatch records one. *)
Record APICall := {
  endpoint : Endpoint;
  request : Request;
  response : option Response;
}.

(** Assignments to the fields of a call, on a copy; the engine writes
    the copy back to the heap. *)
Definition withRequestHeaders (headers : gmap string string) (c : APICall) : APICall :=
  {| endpoint := endpoint c;
     request := {| req_method := req_method (request c); req_url := req_url (request c);
                   req_query := req_query (request c); req_headers := headers;
                   req_auth := req_auth (request c);
                   req_payload := req_payload (request c) |};
     response := response c |}.

Definition withRequestAuth (auth : option (gmap string string)) (c : APICall) : APICall :=
  {| endpoint := endpoint c;
     request := {| req_method := req_method (request c); req_url := req_url (request c);
                   req_query := req_query (request c);
                   req_headers := req_headers (request c);
                   req_auth := auth; req_payload := req_payload (request c) |};
     response := response c |}.

Definition withResponse (response : option Response) (c : APICall) : APICall :=
  {| endpoint := endpoint c; request := request c; response := response |}.

(** ** Exceptions ([exceptions.ts] and the [Error]s of [remote-api.ts])

    The first four are plain [Error]s in the source, told apart by their
    message; the specification names them.  Exceptions that carry an
    [APICall] carry its reference.  [AxiosError] is what the transport
    fails with: it holds the provider's response when there was one. *)
Inductive Exn :=
| EndpointNotFound (endpointName : string)
| AuthStrategyNotConfigured (ty : AuthType) (endpointName : string)
| MissingPathParameter (url : string) (missing : list string)
| InvalidMethod (method : string)
| InvalidAuthParams (apiCall : loc)
| LocalRemoteAPIRateLimitExceeded (apiCall : loc)
| RetryAPICall (callParams : option loc) (apiCall : loc)
| AuthenticationFailed (apiCall : loc) (error : Exn)
| AxiosError (response : option Response)
| TypeError (message : string)
| OtherError (message : string).

Definition isAxiosError (e : Exn) : bool :=
  match e with AxiosError _ => true | _ => false end.

(** [error instanceof RetryAPICall] *)
Definition isRetryAPICall (e : Exn) : bool :=
  match e with RetryAPICall _ _ => true | _ => false end.

(** ** String primitives of the URL resolver *)

Module Str.

(** [s.includes(needle)] *)
Fixpoint includes (needle s : string) : bool :=
  String.prefix needle s ||
  match s with
  | EmptyString => false
  | String _ rest => includes needle rest
  end.

(** [s.slice(n)] *)
Fixpoint drop (n : nat) (s : string) : string :=
  match n, s with
  | O, _ => s
  | S k, String _ rest => drop k rest
  | S _, EmptyString => EmptyString
  end.

(** The character class [[a-zA-Z0-9_]]. *)
Definition isWordChar (c : ascii) : bool :=
  let n := nat_of_ascii c in
  ((48 <=? n) && (n <=? 57) || (65 <=? n) && (n <=? 90)
   || (97 <=? n) && (n <=? 122) || (n =? 95))%nat.

(** The longest prefix matched by [[a-zA-Z0-9_]*]. *)
Fixpoint takeWord (s : string) : string :=
  match s with
  | String c rest => if isWordChar c then String c (takeWord rest) else EmptyString
  | EmptyString => EmptyString
  end.

Definition isEmpty (s : string) : bool :=
  match s with EmptyString => true | _ => false end.

(** [GetSubstitution] of [String.prototype.replace] for a pattern
    without capture groups: in the replacement text [$$] is a dollar,
    [$&] the matched text, [$`] the text before the match and [$']
    the text after it; any other character, a lone dollar included,
    stands for itself. *)
Fixpoint getSubstitution (matched before after replacement : string) : string :=
  match replacement with
  | EmptyString => EmptyString
  | String c rest =>
    if Ascii.eqb c "$" then
      match rest with
      | String d rest' =>
        if Ascii.eqb d "$" then String "$" (getSubstitution matched before after rest')
        else if Ascii.eqb d "&" then matched ++ getSubstitution matched before after rest'
        else if Ascii.eqb d "`" then before ++ getSubstitution matched before after rest'
        else if Ascii.eqb d "'" then after ++ getSubstitution matched before after rest'
        else String c (getSubstitution matched before after rest)
      | EmptyString => String c EmptyString
      end
    else String c (getSubstitution matched before after rest)
  end.

End Str.

(** ** Ordinary objects *)

(** The names of the members of [Object.prototype], which every
    ordinary object inherits; with the accessor [__proto__] and the
    legacy [__defineGetter__] family, as in Node. *)
Definition Object_prototype : list string :=
  ["constructor"; "__defineGetter__"; "__defineSetter__"; "hasOwnProperty";
   "__lookupGetter__"; "__lookupSetter__"; "isPrototypeOf"; "propertyIsEnumerable";
   "toString"; "valueOf"; "__proto__"; "toLocaleString"].

(** ** URL resolver ([RemoteAPI.constructUrl] and its helpers) *)

Section UrlResolver.

(** [this.baseUrl()] *)
Variable baseUrl : string.

(** [resolveBaseUrl]: a template with a scheme separator is absolute. *)
Definition resolveBaseUrl (url : string) : string :=
  if Str.includes "://" url then url else baseUrl ++ url.

(** One [exec] of [/\/:([a-zA-Z0-9_]+)/] anchored at the start of [s]:
    the captured name. *)
Definition matchPathParam (s : string) : option string :=
  match s with
  | String c1 (String c2 rest) =>
    if Ascii.eqb c1 "/" && Ascii.eqb c2 ":" then
      let name := Str.takeWord rest in
      if Str.isEmpty name then None else Some name
    else None
  | _ => None
  end.

(** The [while ((match = pathParamRegex.exec(url)) !== null)] loop of
    [extractPathParamNames]: the global regex is tried at each
    position from left to right; after a match the search resumes at
    the end of the matched text ([lastIndex]), so [skip] characters
    are passed over. *)
Fixpoint execPathParams (skip : nat) (s : string) : list string :=
  match s with
  | EmptyString => []
  | String _ rest =>
    match skip with
    | S k => execPathParams k rest
    | O =>
      match matchPathParam s with
      | Some name => name :: execPathParams (S (String.length name)) rest
      | None => execPathParams O rest
      end
    end
  end.

Definition extractPathParamNames (url : string) : list string :=
  execPathParams O url.

(** [param in pathParams]: [param] is an own key of the object or a
    name the object inherits.  [pathParams] is an ordinary object, so
    what it inherits are the members of [Object.prototype]. *)
Definition hasKey (param : string) (pathParams : list (string * string)) : bool :=
  bool_decide (param ∈ pathParams.*1) || bool_decide (param ∈ Object_prototype).

(** [validatePathParams]: both of its [throw new Error(...)] are the
    specification's [MissingPathParameter]. *)
Definition validatePathParams (url : string) (requiredPathParams : list string)
    (pathParams : option (list (string * string))) : Exn + unit :=
  match requiredPathParams with
  | [] => inr tt
  | _ =>
    match pathParams with
    | None => inl (MissingPathParameter url requiredPathParams)
    | Some pathParams =>
      let missingParams :=
        List.filter (λ param, negb (hasKey param pathParams)) requiredPathParams in
      match missingParams with
      | [] => inr tt
      | _ => inl (MissingPathParameter url missingParams)
      end
    end
  end.

(** Does [new RegExp(`:${key}(?=/|$)`)] match at the start of [s]?
    The key is spliced into the pattern as it is; the model reads it
    as literal text, which is what the pattern means for every key
    free of RegExp metacharacters, and so for every name that
    [extractPathParamNames] can return. *)
Definition matchPlaceholder (key s : string) : bool :=
  let pattern := String ":" key in
  String.prefix pattern s &&
  match Str.drop (String.length pattern) s with
  | EmptyString => true
  | String c _ => Ascii.eqb c "/"
  end.

(** [acc.replace(new RegExp(`:${key}(?=/|$)`, 'g'), value)]: every
    match, left to right, is replaced by the substitution of [value];
    [before] is the text of [acc] to the left of [s]. *)
Fixpoint replaceGlobal (key value before : string) (skip : nat) (s : string) : string :=
  match s with
  | EmptyString => EmptyString
  | String c rest =>
    match skip with
    | S k => replaceGlobal key value (before ++ String c EmptyString) k rest
    | O =>
      if matchPlaceholder key s then
        let matched := String ":" key in
        Str.getSubstitution matched before (Str.drop (String.length matched) s) value
        ++ replaceGlobal key value (before ++ String c EmptyString) (String.length key) rest
      else String c (replaceGlobal key value (before ++ String c EmptyString) O rest)
    end
  end.

(** [replacePathParams]: a [reduce] over [Object.entries(pathParams)]. *)
Definition replacePathParams (url : string)
    (pathParams : option (list (string * string))) : string :=
  match pathParams with
  | None => url
  | Some pathParams =>
    fold_left (λ acc '(key, value), replaceGlobal key value EmptyString O acc)
      pathParams url
  end.

(** [constructUrl] *)
Definition constructUrl (url : string)
    (pathParams : option (list (string * string))) : Exn + string :=
  let resolvedUrl := resolveBaseUrl url in
  let requiredPathParams := extractPathParamNames resolvedUrl in
  match validatePathParams url requiredPathParams pathParams with
  | inl e => inl e
  | inr _ => inr (replacePathParams resolvedUrl pathParams)
  end.

End UrlResolver.



(** ** Auth strategies ([auth/*.strategy.ts])

    The hooks a service injects into a strategy are functions of the
    objects they are handed; a hook that may throw returns its exception
    on the left. *)

(** [AuthStrategyParams]: the optional overrides of [isAuthError] and
    [onAuthError]. *)
Record AuthStrategyParams := {
  isAuthError : option (APICall → Exn → bool);
  onAuthError : option (option EndpointCallParams → APICall → Exn → Exn + bool);
}.

Definition noAuthStrategyParams : AuthStrategyParams :=
  {| isAuthError := None; onAuthError := None |}.

(** [AccessTokenResponse] *)
Record AccessTokenResponse := {
  accessToken : string;
  refreshToken : option string;
  expiresIn : Z;
  tokenType : option string;
}.

(** What [RefreshableBearerTokenAuthStrategy] adds: the two injected
    functions and the public property [buildRefreshAccessTokenPayload],
    which is [None] until somebody assigns it.  [refreshAccessToken]
    yields the [data] of the response it awaits, or the rejection. *)
Record RefreshableParams := {
  isAccessTokenExpiredError : APICall → Exn → bool;
  refreshAccessToken : EndpointCallParams → Exn + AccessTokenResponse;
  buildRefreshAccessTokenPayload : option (EndpointCallParams → option JSON);
}.

(** The strategy classes. *)
Inductive AuthStrategy :=
| NoneAuthStrategy
| BearerTokenAuthStrategy (params : AuthStrategyParams)
| RefreshableBearerTokenAuthStrategy (params : AuthStrategyParams) (refresh : RefreshableParams)
| UnipileCustomAuthAuthStrategy (params : AuthStrategyParams).

(** [type()] *)
Definition strategyType (a : AuthStrategy) : AuthType :=
  match a with
  | NoneAuthStrategy => NONE
  | BearerTokenAuthStrategy _ => BEARER_TOKEN
  | RefreshableBearerTokenAuthStrategy _ _ => REFRESHABLE_BEARER_TOKEN
  | UnipileCustomAuthAuthStrategy _ => UNIPILE_CUSTOM_AUTH_BEARER_TOKEN
  end.

Definition strategyParams (a : AuthStrategy) : AuthStrategyParams :=
  match a with
  | NoneAuthStrategy => noAuthStrategyParams
  | BearerTokenAuthStrategy p
  | RefreshableBearerTokenAuthStrategy p _
  | UnipileCustomAuthAuthStrategy p => p
  end.

(** [AuthStrategy.isAuthError]: [false] unless overridden. *)
Definition strategyIsAuthError (a : AuthStrategy) (apiCall : APICall) (error : Exn) : bool :=
  match isAuthError (strategyParams a) with
  | Some f => f apiCall error
  | None => false
  end.

(** [AuthStrategy.onAuthError]: throws [AuthenticationFailed] unless
    overridden. *)
Definition strategyOnAuthError (a : AuthStrategy) (endpointParams : option EndpointCallParams)
    (apiCallRef : loc) (apiCall : APICall) (error : Exn) : Exn + bool :=
  match onAuthError (strategyParams a) with
  | Some f => f endpointParams apiCall error
  | None => inl (AuthenticationFailed apiCallRef error)
  end.

#[global] Instance AuthType_countable : Countable AuthType.
Proof.
  refine (inj_countable'
    (λ t, match t with
          | NONE => 0 | BEARER_TOKEN => 1 | REFRESHABLE_BEARER_TOKEN => 2
          | UNIPILE_CUSTOM_AUTH_BEARER_TOKEN => 3
          end%nat)
    (λ n, match n with
          | 0 => NONE | 1 => BEARER_TOKEN | 2 => REFRESHABLE_BEARER_TOKEN
          | _ => UNIPILE_CUSTOM_AUTH_BEARER_TOKEN
          end%nat) _).
  by intros [].
Defined.

(** [_.keyBy(strategies, s => s.type())]: a later strategy of a type
    replaces an earlier one. *)
Definition keyBy (strategies : list AuthStrategy) : gmap AuthType AuthStrategy :=
  fold_left (λ m s, <[strategyType s := s]> m) strategies ∅.

(** ** The service and its collaborators *)

(** What [doCall] hands to the transport. *)
Record AxiosRequestConfig := {
  cfg_url : string;
  cfg_method : string;
  cfg_data : option JSON;
  cfg_headers : gmap string string;
  cfg_params : option JSON;
}.

(** A concrete service: the overridable members of [RemoteAPI], the
    endpoint registry that [initEndpoints] collected, and the
    collaborators.  [Date_now n] is the [n]-th reading of the clock and
    [httpRequest n cfg] the outcome of the [n]-th request given to the
    transport. *)
Record Service := {
  serviceName : string;
  baseUrl : string;
  defaultAuthStrategy : AuthType;
  useAuthStrategies : list AuthStrategy;
  defaultHeaders : gmap string string;
  rateLimit : Z;
  rateLimitWindowLength : Z;
  isApiError : Exn → bool;
  onApiError : option EndpointCallParams → option AuthStrategy → APICall → Exn → Exn + bool;
  _endpoints : gmap string Endpoint;
  dryRun : bool;
  verbose : bool;
  Date_now : nat → Z;
  httpRequest : nat → AxiosRequestConfig → Exn + Response;
}.

(** [RemoteAPI.onApiError] as the base class has it: it only logs (when
    verbose) and answers [true]. *)
Definition baseOnApiError : option EndpointCallParams → option AuthStrategy → APICall → Exn → Exn + bool :=
  λ _ _ _ _, inr true.

(** ** Mutable state *)

Inductive Obj :=
| ObjParams (p : EndpointCallParams)
| ObjCall (c : APICall).

(** One [eventEmitter.emit(name, {params, apiCall})].  Listeners run
    inside [emit], so what they can read through the two references is
    the heap at that moment: [ev_paramsSeen] and [ev_apiCallSeen]. *)
Record Event := {
  ev_name : string;
  ev_type : EndpointEventTypes;
  ev_params : option loc;
  ev_apiCall : loc;
  ev_paramsSeen : option EndpointCallParams;
  ev_apiCallSeen : option APICall;
}.

(** Lines written to the logger. *)
Inductive LogEntry :=
| WarnPathNotFound (path key : string)
| WarnRateLimited (rateLimited overflowDeltaSinceLastWindow : Z)
| ErrorRateLimitedAndGrowing (rateLimited overflowDeltaSinceLastWindow : Z)
| WarnDryRun
| VerboseDryRun (endpointName : string)
| VerboseApiResponse (apiCall : APICall).

(** One request given to the transport: the call, as it was then, and
    what came back. *)
Record Dispatch := {
  d_apiCall : loc;
  d_call : APICall;
  d_result : Exn + Response;
}.

(** The rate-limiting fields of the service instance. *)
Record RateLimitWindow := {
  _rateLimitWindowCounter : Z;
  _lastWindowOverflow : Z;
  _currentRateLimitWindowStart : Z;
  _rateLimitedApiCalls : list loc;
}.

(** The service instance's mutable fields, the heap, and the traces of
    its collaborators. *)
Record State := {
  window : RateLimitWindow;
  heap : list Obj;
  clockReads : nat;
  dispatched : list Dispatch;
  emitted : list Event;
  refreshed : list EndpointCallParams;
  logged : list LogEntry;
}.

Definition setWindow (w : RateLimitWindow) (s : State) : State :=
  {| window := w; heap := heap s; clockReads := clockReads s;
     dispatched := dispatched s; emitted := emitted s;
     refreshed := refreshed s; logged := logged s |}.

Definition setHeap (h : list Obj) (s : State) : State :=
  {| window := window s; heap := h; clockReads := clockReads s;
     dispatched := dispatched s; emitted := emitted s;
     refreshed := refreshed s; logged := logged s |}.

Definition tick (s : State) : State :=
  {| window := window s; heap := heap s; clockReads := S (clockReads s);
     dispatched := dispatched s; emitted := emitted s;
     refreshed := refreshed s; logged := logged s |}.

Definition addDispatch (d : Dispatch) (s : State) : State :=
  {| window := window s; heap := heap s; clockReads := clockReads s;
     dispatched := dispatched s ++ [d]; emitted := emitted s;
     refreshed := refreshed s; logged := logged s |}.

Definition addEvent (e : Event) (s : State) : State :=
  {| window := window s; heap := heap s; clockReads := clockReads s;
     dispatched := dispatched s; emitted := emitted s ++ [e];
     refreshed := refreshed s; logged := logged s |}.

Definition addRefresh (p : EndpointCallParams) (s : State) : State :=
  {| window := window s; heap := heap s; clockReads := clockReads s;
     dispatched := dispatched s; emitted := emitted s;
     refreshed := refreshed s ++ [p]; logged := logged s |}.

Definition addLog (l : LogEntry) (s : State) : State :=
  {| window := window s; heap := heap s; clockReads := clockReads s;
     dispatched := dispatched s; emitted := emitted s;
     refreshed := refreshed s; logged := logged s ++ [l] |}.

(** A service instance right after construction, at time [t0], with the
    objects of [h] already on the heap. *)
Definition initialState (t0 : Z) (h : list Obj) : State :=
  {| window := {| _rateLimitWindowCounter := 0; _lastWindowOverflow := 0;
                  _currentRateLimitWindowStart := t0; _rateLimitedApiCalls := [] |};
     heap := h; clockReads := O; dispatched := []; emitted := [];
     refreshed := []; logged := [] |}.

(** ** The state-and-exception monad *)

Definition M (A : Type) : Type := State → (Exn + A) * State.

Definition ret {A} (a : A) : M A := λ s, (inr a, s).

Definition throw {A} (e : Exn) : M A := λ s, (inl e, s).

Definition bind {A B} (m : M A) (k : A → M B) : M B :=
  λ s, match m s with
       | (inr a, s') => k a s'
       | (inl e, s') => (inl e, s')
       end.

(** [try { m } catch (e) { handler e }] *)
Definition tryCatch {A} (m : M A) (handler : Exn → M A) : M A :=
  λ s, match m s with
       | (inr a, s') => (inr a, s')
       | (inl e, s') => handler e s'
       end.

(** A step that only changes the state. *)
Definition modify (f : State → State) : M unit := λ s, (inr tt, f s).

Definition gets {A} (f : State → A) : M A := λ s, (inr (f s), s).

(** A result computed without touching the state. *)
Definition lift {A} (r : Exn + A) : M A :=
  match r with inl e => throw e | inr a => ret a end.

Declare Scope engine_scope.
Delimit Scope engine_scope with engine.

Notation "'let*' x ':=' m 'in' k" := (bind m (λ x, k))
  (at level 100, x pattern, m at level 99, k at level 100) : engine_scope.
Notation "m '>>' k" := (bind m (λ _, k))
  (at level 100, k at level 100, right associativity) : engine_scope.

#[local] Open Scope engine_scope.

(** ** Heap and collaborator primitives *)

(** [new APICall(...)], and any other fresh object. *)
Definition alloc (o : Obj) : M loc :=
  λ s, (inr (length (heap s)), setHeap (heap s ++ [o]) s).

(** Reading through an [APICall] reference. *)
Definition readCall (l : loc) : M APICall :=
  λ s, match heap s !! l with
       | Some (ObjCall c) => (inr c, s)
       | _ => (inl (TypeError "not an APICall"), s)
       end.

(** An assignment to a field of the call behind a reference: [f] is
    the change to the call. *)
Definition updateCall (l : loc) (f : APICall → APICall) : M unit :=
  λ s, match heap s !! l with
       | Some (ObjCall c) => (inr tt, setHeap (<[l := ObjCall (f c)]> (heap s)) s)
       | _ => (inl (TypeError "not an APICall"), s)
       end.

(** The params object behind a reference, if any. *)
Definition paramsAt (h : list Obj) (l : option loc) : option EndpointCallParams :=
  match l with
  | Some l => match h !! l with Some (ObjParams p) => Some p | _ => None end
  | None => None
  end.

Definition callAt (h : list Obj) (l : loc) : option APICall :=
  match h !! l with Some (ObjCall c) => Some c | _ => None end.

(** Reading the caller's params; [params] may be [undefined]. *)
Definition readParams (l : option loc) : M (option EndpointCallParams) :=
  gets (λ s, paramsAt (heap s) l).

Definition writeParams (l : loc) (p : EndpointCallParams) : M unit :=
  modify (λ s, setHeap (<[l := ObjParams p]> (heap s)) s).

Definition log (l : LogEntry) : M unit := modify (addLog l).

(** ** Case conversion of method names *)

Definition lowerChar (c : ascii) : ascii :=
  let n := nat_of_ascii c in
  if ((65 <=? n) && (n <=? 90))%nat then ascii_of_nat (n + 32) else c.

Definition upperChar (c : ascii) : ascii :=
  let n := nat_of_ascii c in
  if ((97 <=? n) && (n <=? 122))%nat then ascii_of_nat (n - 32) else c.

Fixpoint mapString (f : ascii → ascii) (s : string) : string :=
  match s with
  | EmptyString => EmptyString
  | String c rest => String (f c) (mapString f rest)
  end.

Definition toLowerCase : string → string := mapString lowerChar.
Definition toUpperCase : string → string := mapString upperChar.

(** ** Response normalizer *)

(** Modelled from the spec: lodash's [get] is a library function, not
    code of this repository.  The specification has it traverse the raw
    data by a dot-notation path: the path is cut at its dots and each
    piece names a field of the object reached so far; [None] is
    [undefined].  Values that are not objects have no fields here. *)
Fixpoint splitDots (current path : string) : list string :=
  match path with
  | EmptyString => [current]
  | String c rest =>
    if Ascii.eqb c "." then current :: splitDots EmptyString rest
    else splitDots (current ++ String c EmptyString) rest
  end.

Fixpoint getPath (value : JSON) (keys : list string) : option JSON :=
  match keys with
  | [] => Some value
  | key :: keys =>
    match value with
    | JObj o => match o !! key with Some v => getPath v keys | None => None end
    | _ => None
    end
  end.

Definition getByDotPath (payload : option JSON) (path : string) : option JSON :=
  match payload with
  | Some value => getPath value (splitDots EmptyString path)
  | None => None
  end.

Section Normalizer.

(** The traversal used by the normalizer. *)
Variable get : option JSON → string → option JSON.

(** [normalizedResponse[key] = value] on the object literal the
    normalizer fills in.  The key [__proto__] names the prototype
    accessor: its setter makes an object value the prototype of the
    result and ignores any other value, and in both cases the result
    gets no key.  The map holds the own keys of the result. *)
Definition assignProperty (key : string) (value : JSON)
    (normalizedResponse : gmap string JSON) : gmap string JSON :=
  if decide (key = "__proto__") then normalizedResponse
  else <[key := value]> normalizedResponse.

(** The body of [for (const [key, path] of Object.entries(mapping))]. *)
Fixpoint normalizeEntries (entries : list (string * string)) (payload : option JSON)
    (normalizedResponse : gmap string JSON) : M (gmap string JSON) :=
  match entries with
  | [] => ret normalizedResponse
  | (key, path) :: entries =>
    match get payload path with
    | Some value =>
      normalizeEntries entries payload (assignProperty key value normalizedResponse)
    | None =>
      log (WarnPathNotFound path key) >>
      normalizeEntries entries payload normalizedResponse
    end
  end.

(** [normalizeWithObjectMapping] *)
Definition normalizeWithObjectMapping (mapping : gmap string string)
    (payload : option JSON) : M (gmap string JSON) :=
  normalizeEntries (map_to_list mapping) payload ∅.

End Normalizer.

(** ** The engine of one service instance *)

Section Engine.

Variable svc : Service.

(** [this._authStrategies], built in the constructor. *)
Definition _authStrategies : gmap AuthType AuthStrategy :=
  keyBy (useAuthStrategies svc).

(** *** Rate limiter *)

(** [Date.now()] *)
Definition now : M Z :=
  λ s, (inr (Date_now svc (clockReads s)), tick s).

(** [nextRateLimitWindow] *)
Definition nextRateLimitWindow (w : RateLimitWindow) : Z :=
  _currentRateLimitWindowStart w + rateLimitWindowLength svc.

Definition setLastWindowOverflow (value : Z) : M unit :=
  modify (λ s, setWindow
    {| _rateLimitWindowCounter := _rateLimitWindowCounter (window s);
       _lastWindowOverflow := value;
       _currentRateLimitWindowStart := _currentRateLimitWindowStart (window s);
       _rateLimitedApiCalls := _rateLimitedApiCalls (window s) |} s).

Definition setCurrentRateLimitWindowStart (value : Z) : M unit :=
  modify (λ s, setWindow
    {| _rateLimitWindowCounter := _rateLimitWindowCounter (window s);
       _lastWindowOverflow := _lastWindowOverflow (window s);
       _currentRateLimitWindowStart := value;
       _rateLimitedApiCalls := _rateLimitedApiCalls (window s) |} s).

Definition setRateLimitWindowCounter (value : Z) : M unit :=
  modify (λ s, setWindow
    {| _rateLimitWindowCounter := value;
       _lastWindowOverflow := _lastWindowOverflow (window s);
       _currentRateLimitWindowStart := _currentRateLimitWindowStart (window s);
       _rateLimitedApiCalls := _rateLimitedApiCalls (window s) |} s).

Definition setRateLimitedApiCalls (value : list loc) : M unit :=
  modify (λ s, setWindow
    {| _rateLimitWindowCounter := _rateLimitWindowCounter (window s);
       _lastWindowOverflow := _lastWindowOverflow (window s);
       _currentRateLimitWindowStart := _currentRateLimitWindowStart (window s);
       _rateLimitedApiCalls := value |} s).

Definition incrementRateLimitWindowCounter : M unit :=
  let* w := gets window in setRateLimitWindowCounter (_rateLimitWindowCounter w + 1).

Definition resetRateLimitWindowCounter : M unit := setRateLimitWindowCounter 0.

(** The [if (now >= this.nextRateLimitWindow())] block of
    [enforceGlobalRateLimit]: report the overflow of the window that
    ended and start a fresh one. *)
Definition rollWindow (now : Z) : M unit :=
  let* w := gets window in
  let rateLimited := Z.of_nat (length (_rateLimitedApiCalls w)) in
  (if 0 <? rateLimited then
     (if (0 <? _lastWindowOverflow w) && (_lastWindowOverflow w <? rateLimited)
      then log (ErrorRateLimitedAndGrowing rateLimited (rateLimited - _lastWindowOverflow w))
      else log (WarnRateLimited rateLimited (rateLimited - _lastWindowOverflow w))) >>
     setLastWindowOverflow rateLimited
   else setLastWindowOverflow 0) >>
  setCurrentRateLimitWindowStart now >>
  resetRateLimitWindowCounter >>
  setRateLimitedApiCalls [].

(** [enforceGlobalRateLimit]: [true] means the call is rejected. *)
Definition enforceGlobalRateLimit (apiCall : loc) : M bool :=
  let* now := now in
  let* w := gets window in
  (if nextRateLimitWindow w <=? now then rollWindow now else ret tt) >>
  let* w := gets window in
  if rateLimit svc <=? _rateLimitWindowCounter w then
    setRateLimitedApiCalls (_rateLimitedApiCalls w ++ [apiCall]) >>
    ret true
  else
    incrementRateLimitWindowCounter >>
    ret false.

(** *** Building the call *)

(** [buildAuthStrategy]; it touches no state. *)
Definition buildAuthStrategy (endpoint : Endpoint) : Exn + AuthStrategy :=
  let strategyType :=
    match ep_authentication endpoint with
    | Some t => t
    | None => defaultAuthStrategy svc
    end in
  let strategy :=
    match strategyType with
    | NONE => Some NoneAuthStrategy
    | BEARER_TOKEN => _authStrategies !! BEARER_TOKEN
    | _ => _authStrategies !! strategyType
    end in
  match strategy with
  | Some strategy => inr strategy
  | None => inl (AuthStrategyNotConfigured strategyType (ep_name endpoint))
  end.

(** [addDefaultHeaders]: the endpoint's headers win over the defaults. *)
Definition addDefaultHeaders (apiCall : loc) : M unit :=
  updateCall apiCall
    (λ c, withRequestHeaders (req_headers (request c) ∪ defaultHeaders svc) c).

(** [apiCall.request.headers[name] = value] *)
Definition setHeader (apiCall : loc) (name value : string) : M unit :=
  updateCall apiCall
    (λ c, withRequestHeaders (<[name := value]> (req_headers (request c))) c).

(** [auth?.accessToken], when it is truthy. *)
Definition truthyAccessToken (auth : option (gmap string string)) : option string :=
  match auth with
  | Some auth =>
    match auth !! "accessToken" with
    | Some token => if Str.isEmpty token then None else Some token
    | None => None
    end
  | None => None
  end.

(** [authStrategy.execute(this, apiCall)] for each strategy class. *)
Definition execute (authStrategy : AuthStrategy) (apiCall : loc) : M unit :=
  match authStrategy with
  | NoneAuthStrategy => ret tt
  | BearerTokenAuthStrategy _ | RefreshableBearerTokenAuthStrategy _ _ =>
    let* c := readCall apiCall in
    match truthyAccessToken (req_auth (request c)) with
    | None => throw (InvalidAuthParams apiCall)
    | Some token => setHeader apiCall "Authorization" ("Bearer " ++ token)
    end
  | UnipileCustomAuthAuthStrategy _ =>
    let* c := readCall apiCall in
    match truthyAccessToken (req_auth (request c)) with
    | None => throw (InvalidAuthParams apiCall)
    | Some token => setHeader apiCall "X-API-KEY" token
    end
  end.

(** [overwriteUrl || this.constructUrl(endpoint.url, params?.pathParams)] *)
Definition callUrl (endpoint : Endpoint) (params : option EndpointCallParams)
    (overwriteUrl : option string) : Exn + string :=
  let constructed := constructUrl (baseUrl svc) (ep_url endpoint) (params ≫= p_pathParams) in
  match overwriteUrl with
  | Some url => if Str.isEmpty url then constructed else inr url
  | None => constructed
  end.

(** [new APICall(endpoint, {method, url, headers, payload, auth, query})]
    as [buildApiCall] fills it in. *)
Definition newAPICall (endpoint : Endpoint) (params : option EndpointCallParams)
    (url : string) : APICall :=
  {| endpoint := endpoint;
     request := {| req_method := ep_method endpoint; req_url := url;
                   req_query := params ≫= p_query;
                   req_headers := default ∅ (ep_headers endpoint);
                   req_auth := params ≫= p_auth;
                   req_payload := params ≫= p_payload |};
     response := None |}.

(** [buildApiCall]; [params] is the object it reads, by value: it does
    not keep or change it. *)
Definition buildApiCall (endpoint : Endpoint) (params : option EndpointCallParams)
    (authStrategy : AuthStrategy) (overwriteUrl : option string) : M loc :=
  let* url := lift (callUrl endpoint params overwriteUrl) in
  let* apiCall := alloc (ObjCall (newAPICall endpoint params url)) in
  addDefaultHeaders apiCall >>
  execute authStrategy apiCall >>
  ret apiCall.

(** [validateApiCall] *)
Definition validateApiCall (apiCall : loc) : M bool :=
  let* c := readCall apiCall in
  let method := toLowerCase (req_method (request c)) in
  if bool_decide (method ∈ ["get"; "post"; "delete"; "patch"]) then ret true
  else throw (InvalidMethod method).

(** *** Auth strategies reacting to a provider error *)

(** [AuthStrategy.onApiError], the base classification. *)
Definition baseStrategyOnApiError (strategy : AuthStrategy) (endpointParams : option loc)
    (apiCall : loc) (error : Exn) : M bool :=
  let* c := readCall apiCall in
  if strategyIsAuthError strategy c error then
    let* p := readParams endpointParams in
    lift (strategyOnAuthError strategy p apiCall c error)
  else ret true.

(** [callParams.payload = value] on a copy; the caller writes it back. *)
Definition withPayload (value : option JSON) (p : EndpointCallParams) : EndpointCallParams :=
  {| p_pathParams := p_pathParams p; p_query := p_query p; p_payload := value;
     p_auth := p_auth p; p_context := p_context p |}.

(** [{...(auth || {}), accessToken: token}] *)
Definition withAccessToken (token : string) (auth : option (gmap string string))
  : option (gmap string string) :=
  Some (<["accessToken" := token]> (default ∅ auth)).

(** [{...callParams, auth: {...callParams.auth, accessToken: token},
    payload: originalPayload}], a fresh object. *)
Definition retryParams (token : string) (originalPayload : option JSON)
    (p : EndpointCallParams) : EndpointCallParams :=
  {| p_pathParams := p_pathParams p; p_query := p_query p;
     p_payload := originalPayload;
     p_auth := withAccessToken token (p_auth p);
     p_context := p_context p |}.

(** [apiCall.request.auth = {...(apiCall.request.auth || {}), accessToken}] *)
Definition setRequestAccessToken (apiCall : loc) (token : string) : M unit :=
  updateCall apiCall
    (λ c, withRequestAuth (withAccessToken token (req_auth (request c))) c).

(** [RefreshableBearerTokenAuthStrategy.onApiError] *)
Definition refreshableOnApiError (strategy : AuthStrategy) (r : RefreshableParams)
    (callParams : option loc) (apiCall : loc) (error : Exn) : M bool :=
  let* c := readCall apiCall in
  if isAccessTokenExpiredError r c error then
    match buildRefreshAccessTokenPayload r with
    | None => throw (OtherError "buildRefreshAccessTokenPayload not provided")
    | Some build =>
      let* p := readParams callParams in
      match callParams, p with
      | Some paramsRef, Some p =>
        let originalPayload := p_payload p in
        let p := withPayload (build p) p in
        writeParams paramsRef p >>
        modify (addRefresh p) >>
        let* newTokens := lift (refreshAccessToken r p) in
        setRequestAccessToken apiCall (accessToken newTokens) >>
        let* c := readCall apiCall in
        let* newApiCall :=
          buildApiCall (endpoint c)
            (Some (retryParams (accessToken newTokens) originalPayload p))
            strategy None in
        throw (RetryAPICall callParams newApiCall)
      | _, _ => throw (TypeError "Cannot read properties of undefined (reading 'payload')")
      end
    end
  else baseStrategyOnApiError strategy callParams apiCall error.

(** [authStrategy.onApiError(this, endpointParams, apiCall, error)] for
    each strategy class. *)
Definition strategyOnApiError (strategy : AuthStrategy) (endpointParams : option loc)
    (apiCall : loc) (error : Exn) : M bool :=
  match strategy with
  | NoneAuthStrategy => ret true
  | RefreshableBearerTokenAuthStrategy _ r =>
    refreshableOnApiError strategy r endpointParams apiCall error
  | BearerTokenAuthStrategy _ | UnipileCustomAuthAuthStrategy _ =>
    baseStrategyOnApiError strategy endpointParams apiCall error
  end.

(** [this.onApiError(endpointParams, authStrategy, apiCall, error)], the
    service-level hook. *)
Definition serviceOnApiError (endpointParams : option loc)
    (authStrategy : option AuthStrategy) (apiCall : loc) (error : Exn) : M bool :=
  let* p := readParams endpointParams in
  let* c := readCall apiCall in
  lift (onApiError svc p authStrategy c error).

(** *** Dispatch *)

Definition requestConfig (c : APICall) : AxiosRequestConfig :=
  {| cfg_url := req_url (request c);
     cfg_method := toUpperCase (req_method (request c));
     cfg_data := req_payload (request c);
     cfg_headers := req_headers (request c);
     cfg_params := req_query (request c) |}.

(** [doCall]: one request to the transport. *)
Definition doCall (endpointParams : option loc) (apiCall : loc) : M Response :=
  let* c := readCall apiCall in
  λ s, let result := httpRequest svc (length (dispatched s)) (requestConfig c) in
       (result, addDispatch {| d_apiCall := apiCall; d_call := c; d_result := result |} s).

Definition dryRunResponse : Response :=
  {| res_status := None;
     res_data := Some (JObj {[ "message" := JStr "dry-run-response" ]}) |}.

(** [apiCall.response = response] *)
Definition setResponse (apiCall : loc) (response : option Response) : M unit :=
  updateCall apiCall (withResponse response).

(** The [catch (error)] block around [doCall] in [executeApiCall].  It
    throws when the error bubbles up or a hook throws; when it completes,
    [response] is still [undefined]. *)
Definition onDoCallError (endpointParams : option loc) (apiCall : loc)
    (authStrategy : option AuthStrategy) (error : Exn) : M (option Response) :=
  let* bubbleUp :=
    if isApiError svc error then
      match authStrategy with
      | Some strategy =>
        tryCatch
          (let* bubbleUp := strategyOnApiError strategy endpointParams apiCall error in
           let* bubbleUp := serviceOnApiError endpointParams authStrategy apiCall error in
           ret bubbleUp)
          (λ err,
            (if negb (isRetryAPICall err) then
               let* bubbleUp :=
                 serviceOnApiError endpointParams authStrategy apiCall error in
               ret tt
             else ret tt) >>
            throw err)
      | None => serviceOnApiError endpointParams authStrategy apiCall error
      end
    else ret true in
  if bubbleUp : bool then throw error else ret None.

(** [executeApiCall]: one attempt. *)
Definition executeApiCall (endpointParams : option loc) (apiCall : loc)
    (authStrategy : option AuthStrategy) : M loc :=
  let* limited := enforceGlobalRateLimit apiCall in
  if limited : bool then throw (LocalRemoteAPIRateLimitExceeded apiCall)
  else
    let* response :=
      if negb (dryRun svc) then
        tryCatch
          (let* response := doCall endpointParams apiCall in ret (Some response))
          (onDoCallError endpointParams apiCall authStrategy)
      else log WarnDryRun >> ret (Some dryRunResponse) in
    setResponse apiCall response >>
    ret apiCall.

(** *** After the dispatch *)

(** [onApiSuccessResponse] *)
Definition onApiSuccessResponse (apiCall : loc) : M unit :=
  let* c := readCall apiCall in
  if dryRun svc && negb (verbose svc) then log (VerboseDryRun (ep_name (endpoint c)))
  else if verbose svc then log (VerboseApiResponse c)
  else ret tt.

(** [apiCall.response.data = value] *)
Definition setResponseData (apiCall : loc) (value : JSON) : M unit :=
  let* c := readCall apiCall in
  match response c with
  | Some res =>
    setResponse apiCall (Some {| res_status := res_status res; res_data := Some value |})
  | None => throw (TypeError "Cannot set properties of undefined (setting 'data')")
  end.

(** [normalizeResponse] *)
Definition normalizeResponse (params : option loc) (apiCall : loc) : M loc :=
  let* c := readCall apiCall in
  match ep_normalizationMapping (endpoint c) with
  | Some rule =>
    match response c with
    | None => throw (TypeError "Cannot read properties of undefined (reading 'data')")
    | Some res =>
      let* normalizedResponse :=
        match rule with
        | MappingFunction f =>
          let* p := readParams params in
          match f p (res_data res) with
          | inl message => throw (OtherError message)
          | inr value => ret value
          end
        | MappingTable mapping =>
          let* o := normalizeWithObjectMapping getByDotPath mapping (res_data res) in
          ret (JObj o)
        end in
      setResponseData apiCall normalizedResponse >>
      ret apiCall
    end
  | None => ret apiCall
  end.

(** [emit]: the event name is [<Service>.<endpoint>.<phase>]. *)
Definition emit (endpointName : string) (eventType : EndpointEventTypes)
    (params : option loc) (apiCall : loc) : M unit :=
  modify (λ s, addEvent
    {| ev_name := serviceName svc ++ "." ++ endpointName ++ "." ++ eventTypeString eventType;
       ev_type := eventType;
       ev_params := params;
       ev_apiCall := apiCall;
       ev_paramsSeen := paramsAt (heap s) params;
       ev_apiCallSeen := callAt (heap s) apiCall |} s).

(** *** The call pipeline *)

(** [call], from the endpoint lookup to [validateApiCall]: everything
    that comes before the first event.  A name the endpoints object only
    inherits, such as [toString], is taken as not found; the source
    goes on to read the fields of the inherited member and fails on
    them, still before the first event. *)
Definition prepareCall (endpointName : string) (params : option loc)
    (overwriteUrl : option string) : M (AuthStrategy * loc) :=
  match _endpoints svc !! endpointName with
  | None => throw (EndpointNotFound endpointName)
  | Some endpoint =>
    let* authStrategy := lift (buildAuthStrategy endpoint) in
    let* p := readParams params in
    let* apiCall := buildApiCall endpoint p authStrategy overwriteUrl in
    validateApiCall apiCall >>
    ret (authStrategy, apiCall)
  end.

(** [call], after the attempts: the success hook, normalization, the
    [success] and [after] events, and the response that is returned. *)
Definition completeCall (endpointName : string) (params : option loc)
    (apiCall : loc) : M (option Response) :=
  onApiSuccessResponse apiCall >>
  normalizeResponse params apiCall >>
  emit endpointName SUCCESS params apiCall >>
  emit endpointName AFTER params apiCall >>
  let* c := readCall apiCall in
  ret (response c).

(** [call] *)
Definition call (endpointName : string) (params : option loc)
    (eventContext : option JSON) (overwriteUrl : option string) : M (option Response) :=
  let* (authStrategy, apiCall) := prepareCall endpointName params overwriteUrl in
  emit endpointName BEFORE params apiCall >>
  let* apiCall :=
    tryCatch
      (executeApiCall params apiCall (Some authStrategy) >> ret apiCall)
      (λ error,
        match error with
        | RetryAPICall _ retried =>
          let apiCall := retried in
          tryCatch
            (executeApiCall params apiCall (Some authStrategy) >> ret apiCall)
            (λ retryError,
              if isRetryAPICall retryError
              then throw (AuthenticationFailed apiCall retryError)
              else ret apiCall)
        | _ =>
          emit endpointName ERROR params apiCall >>
          emit endpointName AFTER params apiCall >>
          throw error
        end) in
  completeCall endpointName params apiCall.

End Engine.

(** ** States a service instance can be in

    A fresh instance; the state after an admission check or after a
    whole call; and any state that differs from such a state only
    outside the rate-limiting fields (the heap, the traces), which covers
    the points inside a call where the admission check runs. *)
Inductive reachable (svc : Service) : State → Prop :=
| reachable_initial t0 h :
    reachable svc (initialState t0 h)
| reachable_admission s apiCall :
    reachable svc s →
    reachable svc (enforceGlobalRateLimit svc apiCall s).2
| reachable_call s endpointName params eventContext overwriteUrl :
    reachable svc s →
    reachable svc (call svc endpointName params eventContext overwriteUrl s).2
| reachable_frame s s' :
    reachable svc s →
    window s' = window s →
    reachable svc s'.

(** The counter of the current window is within [[0, rateLimit()]]. *)
Definition counterInRange (svc : Service) (w : RateLimitWindow) : Prop :=
  0 ≤ _rateLimitWindowCounter w ≤ rateLimit svc.

(** The admission check at state [s] does not start a new window. *)
Definition sameWindow (svc : Service) (s : State) : Prop :=
  Date_now svc (clockReads s) < nextRateLimitWindow svc (window s).

(** ** Frames

    [steps R m]: whatever [m] does and however it ends, the state it
    leaves is [R]-related to the state it started in. *)
Definition steps (R : relation State) {A} (m : M A) : Prop :=
  ∀ s, R s (m s).2.

(** Only the heap differs. *)
Definition heapOnly : relation State :=
  λ s s', ∃ h, s' = setHeap h s.

(** Several lines written to the log, in order. *)
Definition addLogs (ls : list LogEntry) (s : State) : State :=
  fold_left (λ s l, addLog l s) ls s.

(** The failures of request construction and validation. *)
Definition isConstructionError (e : Exn) : Prop :=
  match e with
  | EndpointNotFound _ | AuthStrategyNotConfigured _ _ | MissingPathParameter _ _
  | InvalidAuthParams _ | InvalidMethod _ => True
  | _ => False
  end.

(** ** What the construction steps compute

    Closed forms of [execute] and of the call that [buildApiCall]
    allocates, used to state what the engine leaves on the heap. *)

(** The call [execute] leaves behind; [None] when it throws
    [InvalidAuthParams]. *)
Definition authorize (authStrategy : AuthStrategy) (c : APICall) : option APICall :=
  match authStrategy with
  | NoneAuthStrategy => Some c
  | BearerTokenAuthStrategy _ | RefreshableBearerTokenAuthStrategy _ _ =>
    match truthyAccessToken (req_auth (request c)) with
    | Some token =>
      Some (withRequestHeaders
              (<["Authorization" := "Bearer " ++ token]> (req_headers (request c))) c)
    | None => None
    end
  | UnipileCustomAuthAuthStrategy _ =>
    match truthyAccessToken (req_auth (request c)) with
    | Some token =>
      Some (withRequestHeaders (<["X-API-KEY" := token]> (req_headers (request c))) c)
    | None => None
    end
  end.

(** The fresh call once [addDefaultHeaders] has run. *)
Definition callWithDefaults (svc : Service) (endpoint : Endpoint)
    (params : option EndpointCallParams) (url : string) : APICall :=
  let c := newAPICall endpoint params url in
  withRequestHeaders (req_headers (request c) ∪ defaultHeaders svc) c.

(** The test of [validateApiCall]. *)
Definition validMethod (c : APICall) : bool :=
  bool_decide (toLowerCase (req_method (request c)) ∈ ["get"; "post"; "delete"; "patch"]).

(** Nothing was dispatched between two states. *)
Definition sameDispatches : relation State :=
  λ s s', dispatched s' = dispatched s.

(** At most [n] requests were dispatched between two states. *)
Definition dispatchesUpTo (n : nat) : relation State :=
  λ s s', ∃ ds, dispatched s' = (dispatched s ++ ds)%list ∧ (length ds ≤ n)%nat.

(** Between two states only the rate-limiting fields, the clock reading
    and the log may differ. *)
Definition quiet : relation State :=
  λ s s', heap s' = heap s ∧ dispatched s' = dispatched s ∧
          refreshed s' = refreshed s ∧ emitted s' = emitted s.

(** A hook result that is not the retry signal. *)
Definition raisesNoRetry {A} (r : Exn + A) : Prop :=
  match r with
  | inl e => isRetryAPICall e = false
  | inr _ => True
  end.

(** What the strategy leaves when it has refreshed the token and
    rebuilt the call: the params object with the refresh payload, one
    more refresh on record, the new token on the old call, and at the
    end of the heap the rebuilt call. *)
Definition afterRefresh (s : State) (pl : loc) (p1 : EndpointCallParams)
    (l : loc) (c' built : APICall) : State :=
  let sA := addRefresh p1 (setHeap (<[pl := ObjParams p1]> (heap s)) s) in
  let sB := setHeap (<[l := ObjCall c']> (heap sA)) sA in
  setHeap (heap sB ++ [ObjCall built]) sB.

(** The data [normalizeResponse] puts on the response, or the message of
    the error a normalization function throws.  A mapping table gives
    the keys whose path resolves, but for [__proto__], which
    [assignProperty] never adds. *)
Definition normalized (rule : option Normalization) (p : option EndpointCallParams)
    (data : option JSON) : string + option JSON :=
  match rule with
  | None => inr data
  | Some (MappingTable mapping) =>
    inr (Some (JObj (omap (getByDotPath data) (delete "__proto__" mapping))))
  | Some (MappingFunction f) =>
    match f p data with
    | inl message => inl message
    | inr value => inr (Some value)
    end
  end.

(** No event was emitted between two states. *)
Definition sameEvents : relation State :=
  λ s s', emitted s' = emitted s.

(** ** Endpoint definitions ([defineEndpoint], [types.ts]) *)

(** One [exec] of [/:([a-zA-Z0-9_]+)/] anchored at the start of [s]:
    the captured name. *)
Definition matchColonParam (s : string) : option string :=
  match s with
  | String c rest =>
    if Ascii.eqb c ":" then
      let name := Str.takeWord rest in
      if Str.isEmpty name then None else Some name
    else None
  | EmptyString => None
  end.

(** The [while ((match = pathParamRegex.exec(config.url)) !== null)]
    loop of [defineEndpoint], which runs the global regex as
    [extractPathParamNames] runs its own. *)
Fixpoint execColonParams (skip : nat) (s : string) : list string :=
  match s with
  | EmptyString => []
  | String _ rest =>
    match skip with
    | S k => execColonParams k rest
    | O =>
      match matchColonParam s with
      | Some name => name :: execColonParams (String.length name) rest
      | None => execColonParams O rest
      end
    end
  end.

(** The [config] argument of [defineEndpoint]. *)
Record EndpointConfig := {
  config_method : string;
  config_url : string;
  config_authentication : option AuthType;
  config_headers : option (gmap string string);
  config_pathParams : option (gmap string JSON);
}.

(** What [defineEndpoint] returns: [{...config, pathParams}]. *)
Record EndpointDefinition := {
  def_method : string;
  def_url : string;
  def_authentication : option AuthType;
  def_headers : option (gmap string string);
  def_pathParams : option (gmap string string);
}.

(** [pathParams[paramName] = "string"] on an object literal: the key
    [__proto__] names the prototype accessor, whose setter ignores a
    string, so that no key is added for it. *)
Definition declareParam (pathParams : gmap string string) (paramName : string)
  : gmap string string :=
  if decide (paramName = "__proto__") then pathParams
  else <[paramName := "string"]> pathParams.

(** [defineEndpoint] *)
Definition defineEndpoint (config : EndpointConfig) : EndpointDefinition :=
  let pathParams : gmap string string :=
    fold_left declareParam (execColonParams O (config_url config)) ∅ in
  {| def_method := config_method config;
     def_url := config_url config;
     def_authentication := config_authentication config;
     def_headers := config_headers config;
     def_pathParams := if decide (pathParams = ∅) then None else Some pathParams |}.

(** ** Cleaning up message text ([GMailAPI], [OutlookAPI]) *)

Module Text.

(** [s.indexOf(needle)]; [None] stands for [-1]. *)
Fixpoint indexOf (needle s : string) : option nat :=
  if String.prefix needle s then Some O
  else
    match s with
    | EmptyString => None
    | String _ rest => S <$> indexOf needle rest
    end.

(** [s.substring(0, n)] *)
Fixpoint take (n : nat) (s : string) : string :=
  match n, s with
  | S k, String c rest => String c (take k rest)
  | _, _ => EmptyString
  end.

(** The text ["\n--\n"]. *)
Definition signatureMarker : string :=
  String (ascii_of_nat 10) (String "-" (String "-" (String (ascii_of_nat 10) EmptyString))).

End Text.

(** [removeSignature], the same in both classes: the text up to the
    first signature marker. *)
Definition removeSignature (text : string) : string :=
  match Text.indexOf Text.signatureMarker text with
  | Some signatureIndex => Text.take signatureIndex text
  | None => text
  end.

(** ** Message parts ([GMailAPI.extractContentParts]) *)

(** A part of a Gmail message, as far as the function reads it:
    [mimeType], [parts] and the body data. *)
Inductive MessagePart :=
| Part (mimeType : option string) (parts : option (list MessagePart))
    (data : option string).

Definition part_mimeType (part : MessagePart) : option string :=
  match part with Part mimeType _ _ => mimeType end.

Definition part_parts (part : MessagePart) : option (list MessagePart) :=
  match part with Part _ parts _ => parts end.

(** [part.mimeType === "text/plain" || part.mimeType === "text/html"] *)
Definition isTextPart (part : MessagePart) : bool :=
  bool_decide (part_mimeType part = Some "text/plain") ||
  bool_decide (part_mimeType part = Some "text/html").

(** [extractContentParts]: [contentParts] is the array the parts are
    pushed to, and returned.  An array of sub-parts is truthy even when
    it is empty. *)
Fixpoint extractContentParts (part : MessagePart) (contentParts : list MessagePart)
  : list MessagePart :=
  match part with
  | Part _ (Some subParts) _ =>
    (fix forEach (subParts : list MessagePart) (contentParts : list MessagePart) :=
       match subParts with
       | [] => contentParts
       | subPart :: rest => forEach rest (extractContentParts subPart contentParts)
       end) subParts contentParts
  | Part _ None _ =>
    if isTextPart part then (contentParts ++ [part])%list else contentParts
  end.

(** ** A test service

    The fixtures of the repository's test suite ([RemoteAPITest]): a
    service at [http://testapi.com] with a limit of five calls per
    window of 50 ms, public endpoints (one of them declared with a
    method the engine does not support), and endpoints guarded by a
    bearer token and by a refreshable bearer token; and, beyond the test
    suite, one more endpoint guarded by the refreshable token, whose
    normalization function accepts only an object.  The transport is a
    script: the outcome of the [n]-th request. *)

Module Demo.

Definition endpointOf (name method url : string) (authentication : option AuthType)
    (rule : option Normalization) : Endpoint :=
  {| ep_name := name; ep_method := method; ep_url := url;
     ep_authentication := authentication; ep_headers := None;
     ep_normalizationMapping := rule |}.

Definition status (code : Z) : Response :=
  {| res_status := Some code; res_data := None |}.

Definition ok : Exn + Response :=
  inr {| res_status := Some 200; res_data := Some (JStr "ok") |}.

Definition failing (code : Z) : Exn + Response :=
  inl (AxiosError (Some (status code))).

(** A 401 from the provider means the access token has expired. *)
Definition isExpired (c : APICall) (e : Exn) : bool :=
  match e with
  | AxiosError (Some r) => bool_decide (res_status r = Some 401)
  | _ => false
  end.

Definition newTokens : AccessTokenResponse :=
  {| accessToken := "fresh-token"; refreshToken := None; expiresIn := 3600;
     tokenType := Some "Bearer" |}.

Definition refreshPayload : JSON :=
  JObj {[ "grant_type" := JStr "refresh_token" ]}.

Definition refreshParams : RefreshableParams :=
  {| isAccessTokenExpiredError := isExpired;
     refreshAccessToken := λ _, inr newTokens;
     buildRefreshAccessTokenPayload := Some (λ _, Some refreshPayload) |}.

(** The same without [buildRefreshAccessTokenPayload]: the property is
    not set by the constructor. *)
Definition unconfiguredParams : RefreshableParams :=
  {| isAccessTokenExpiredError := isExpired;
     refreshAccessToken := λ _, inr newTokens;
     buildRefreshAccessTokenPayload := None |}.

Definition unconfigured : AuthStrategy :=
  RefreshableBearerTokenAuthStrategy noAuthStrategyParams unconfiguredParams.

(** A refreshable strategy whose refresh request is refused. *)
Definition failingRefreshParams : RefreshableParams :=
  {| isAccessTokenExpiredError := isExpired;
     refreshAccessToken := λ _, inl (AxiosError (Some (status 400)));
     buildRefreshAccessTokenPayload := Some (λ _, Some refreshPayload) |}.

Definition failingRefresh : AuthStrategy :=
  RefreshableBearerTokenAuthStrategy noAuthStrategyParams failingRefreshParams.

Definition refreshable : AuthStrategy :=
  RefreshableBearerTokenAuthStrategy noAuthStrategyParams refreshParams.

(** A bearer strategy that takes every provider error for an auth error
    and whose [onAuthError] answers [false]. *)
Definition vetoing : AuthStrategy :=
  BearerTokenAuthStrategy
    {| isAuthError := Some (λ _ _, true);
       onAuthError := Some (λ _ _ _, inr false) |}.

(** A normalization function that throws unless the response data is
    an object. *)
Definition objectOnly : Normalization :=
  MappingFunction (λ _ data,
    match data with
    | Some (JObj o) => inr (JObj o)
    | _ => inl "response data is not an object"
    end).

(** A bearer strategy that takes every provider error for an auth error
    and keeps the [onAuthError] of the base class. *)
Definition strict : AuthStrategy :=
  BearerTokenAuthStrategy
    {| isAuthError := Some (λ _ _, true); onAuthError := None |}.

Definition service (strategies : list AuthStrategy)
    (script : nat → AxiosRequestConfig → Exn + Response) : Service :=
  {| serviceName := "RemoteAPITest";
     baseUrl := "http://testapi.com";
     defaultAuthStrategy := NONE;
     useAuthStrategies := strategies;
     defaultHeaders := ∅;
     rateLimit := 5;
     rateLimitWindowLength := 50;
     isApiError := isAxiosError;
     onApiError := baseOnApiError;
     _endpoints :=
       {[ "getEmpty" := endpointOf "getEmpty" "GET" "/get/empty" None None;
          "getUserDetails" :=
            endpointOf "getUserDetails" "GET" "/users/:userId/details" None None;
          "traceEndpoint" := endpointOf "traceEndpoint" "TRACE" "/trace" None None;
          "bearerAuthEndpoint" :=
            endpointOf "bearerAuthEndpoint" "GET" "/bearer-auth" (Some BEARER_TOKEN) None;
          "refreshableBearerAuthEndpoint" :=
            endpointOf "refreshableBearerAuthEndpoint" "POST" "/refreshable-bearer-auth"
              (Some REFRESHABLE_BEARER_TOKEN) None;
          "refreshableStrictEndpoint" :=
            endpointOf "refreshableStrictEndpoint" "POST" "/refreshable-strict"
              (Some REFRESHABLE_BEARER_TOKEN) (Some objectOnly) ]};
     dryRun := false;
     verbose := false;
     Date_now := λ n, 1000 + Z.of_nat n;
     httpRequest := script |}.

Definition guardedEndpoint : Endpoint :=
  endpointOf "refreshableBearerAuthEndpoint" "POST" "/refreshable-bearer-auth"
    (Some REFRESHABLE_BEARER_TOKEN) None.

(** The caller's params: a payload and an access token. *)
Definition params : EndpointCallParams :=
  {| p_pathParams := None; p_query := None;
     p_payload := Some (JStr "original payload");
     p_auth := Some {[ "accessToken" := "mock_token" ]};
     p_context := None |}.

(** A fresh instance at time 1000 with the caller's params at
    location 0. *)
Definition start : State := initialState 1000 [ObjParams params].

(** The same instance once the window is full. *)
Definition full : State :=
  setWindow {| _rateLimitWindowCounter := 5; _lastWindowOverflow := 0;
               _currentRateLimitWindowStart := 1000; _rateLimitedApiCalls := [] |}
    start.

(** The same instance read after its window has ended. *)
Definition stale : State :=
  setWindow {| _rateLimitWindowCounter := 5; _lastWindowOverflow := 0;
               _currentRateLimitWindowStart := 900; _rateLimitedApiCalls := [7%nat] |}
    start.

(** Transport scripts. *)
Definition alwaysOk : nat → AxiosRequestConfig → Exn + Response := λ _ _, ok.

Definition expiredThenOk : nat → AxiosRequestConfig → Exn + Response :=
  λ n _, match n with O => failing 401 | _ => ok end.

Definition expiredThenServerError : nat → AxiosRequestConfig → Exn + Response :=
  λ n _, match n with O => failing 401 | _ => failing 500 end.

Definition alwaysExpired : nat → AxiosRequestConfig → Exn + Response :=
  λ _ _, failing 401.

Definition alwaysServerError : nat → AxiosRequestConfig → Exn + Response :=
  λ _ _, failing 500.

(** The service whose bearer strategy vetoes, and the same with a
    service-level hook that vetoes too. *)
Definition vetoingService : Service := service [vetoing] alwaysServerError.

Definition vetoingServiceAndHook : Service :=
  {| serviceName := serviceName vetoingService;
     baseUrl := baseUrl vetoingService;
     defaultAuthStrategy := defaultAuthStrategy vetoingService;
     useAuthStrategies := useAuthStrategies vetoingService;
     defaultHeaders := defaultHeaders vetoingService;
     rateLimit := rateLimit vetoingService;
     rateLimitWindowLength := rateLimitWindowLength vetoingService;
     isApiError := isApiError vetoingService;
     onApiError := λ _ _ _ _, inr false;
     _endpoints := _endpoints vetoingService;
     dryRun := dryRun vetoingService;
     verbose := verbose vetoingService;
     Date_now := Date_now vetoingService;
     httpRequest := httpRequest vetoingService |}.

(** The service without strategies of its own, and the one that knows
    the refreshable strategy. *)
Definition publicService : Service := service [] alwaysOk.

Definition guardedService (script : nat → AxiosRequestConfig → Exn + Response) : Service :=
  service [refreshable] script.

(** The public service in dry-run mode. *)
Definition dryService (script : nat → AxiosRequestConfig → Exn + Response) : Service :=
  {| serviceName := serviceName publicService;
     baseUrl := baseUrl publicService;
     defaultAuthStrategy := defaultAuthStrategy publicService;
     useAuthStrategies := useAuthStrategies publicService;
     defaultHeaders := defaultHeaders publicService;
     rateLimit := rateLimit publicService;
     rateLimitWindowLength := rateLimitWindowLength publicService;
     isApiError := isApiError publicService;
     onApiError := onApiError publicService;
     _endpoints := _endpoints publicService;
     dryRun := true;
     verbose := verbose publicService;
     Date_now := Date_now publicService;
     httpRequest := script |}.

(** A call on a fresh instance. *)
Definition run (svc : Service) (endpointName : string) (params : option loc)
  : (Exn + option Response) * State :=
  call svc endpointName params None None start.

(** The instance once [call] has built the request of the guarded
    endpoint: the caller's params at location 0, the call at
    location 1. *)
Definition prepared : State :=
  (prepareCall (guardedService expiredThenOk) "refreshableBearerAuthEndpoint"
     (Some 0%nat) None start).2.

(** The configuration of an endpoint of a local server: a port and two
    path parameters. *)
Definition localEndpoint : EndpointConfig :=
  {| config_method := "GET";
     config_url := "http://localhost:8080/users/:userId/posts/:postId";
     config_authentication := None;
     config_headers := None;
     config_pathParams := None |}.

End Demo.

(** * Properties *)

#[local] Open Scope list_scope.

(** ** Rate limiter *)

Section RateLimiter.

Variable svc : Service.

(** Within the current window the check goes straight to the limit
    test: a call below the limit is admitted and counted. *)
Lemma enforceGlobalRateLimit_admit s apiCall :
  sameWindow svc s →
  _rateLimitWindowCounter (window s) < rateLimit svc →
  enforceGlobalRateLimit svc apiCall s =
    (inr false,
     setWindow {| _rateLimitWindowCounter := _rateLimitWindowCounter (window s) + 1;
                  _lastWindowOverflow := _lastWindowOverflow (window s);
                  _currentRateLimitWindowStart := _currentRateLimitWindowStart (window s);
                  _rateLimitedApiCalls := _rateLimitedApiCalls (window s) |} (tick s)).
Proof.
  unfold sameWindow. intros Hw Hc.
  unfold enforceGlobalRateLimit, bind, now, gets. simpl.
  destruct (Z.leb_spec (nextRateLimitWindow svc (window s))
              (Date_now svc (clockReads s))) as [?|_]; [lia|].
  simpl.
  destruct (Z.leb_spec (rateLimit svc) (_rateLimitWindowCounter (window s))) as [?|_]; [lia|].
  reflexivity.
Qed.

(** At or above the limit the call joins the overflow buffer and is
    rejected; the counter stays. *)
Lemma enforceGlobalRateLimit_reject s apiCall :
  sameWindow svc s →
  rateLimit svc ≤ _rateLimitWindowCounter (window s) →
  enforceGlobalRateLimit svc apiCall s =
    (inr true,
     setWindow {| _rateLimitWindowCounter := _rateLimitWindowCounter (window s);
                  _lastWindowOverflow := _lastWindowOverflow (window s);
                  _currentRateLimitWindowStart := _currentRateLimitWindowStart (window s);
                  _rateLimitedApiCalls := _rateLimitedApiCalls (window s) ++ [apiCall] |}
       (tick s)).
Proof.
  unfold sameWindow. intros Hw Hc.
  unfold enforceGlobalRateLimit, bind, now, gets. simpl.
  destruct (Z.leb_spec (nextRateLimitWindow svc (window s))
              (Date_now svc (clockReads s))) as [?|_]; [lia|].
  simpl.
  destruct (Z.leb_spec (rateLimit svc) (_rateLimitWindowCounter (window s))) as [_|?]; [|lia].
  reflexivity.
Qed.

(** What [rollWindow] leaves in the rate-limiting fields. *)
Lemma rollWindow_window t s :
  ∃ overflow,
    window (rollWindow t s).2 =
      {| _rateLimitWindowCounter := 0; _lastWindowOverflow := overflow;
         _currentRateLimitWindowStart := t; _rateLimitedApiCalls := [] |}.
Proof.
  unfold rollWindow, bind, gets, log, modify. simpl.
  destruct (0 <? Z.of_nat (length (_rateLimitedApiCalls (window s)))); simpl.
  - destruct ((0 <? _lastWindowOverflow (window s)) &&
              (_lastWindowOverflow (window s) <? _)); simpl; eauto.
  - eauto.
Qed.

Lemma rollWindow_ok t s : (rollWindow t s).1 = inr tt.
Proof.
  unfold rollWindow, bind, gets, log, modify. simpl.
  destruct (0 <? Z.of_nat (length (_rateLimitedApiCalls (window s)))); simpl;
    [destruct ((0 <? _lastWindowOverflow (window s)) &&
               (_lastWindowOverflow (window s) <? _)); simpl|]; reflexivity.
Qed.

(** The admission check as one equation: roll the window over if its
    time has come, then test the limit. *)
Lemma enforceGlobalRateLimit_unfold s apiCall :
  let t := Date_now svc (clockReads s) in
  let s1 :=
    if nextRateLimitWindow svc (window s) <=? t
    then (rollWindow t (tick s)).2 else tick s in
  let w := window s1 in
  enforceGlobalRateLimit svc apiCall s =
    if rateLimit svc <=? _rateLimitWindowCounter w then
      (inr true,
       setWindow {| _rateLimitWindowCounter := _rateLimitWindowCounter w;
                    _lastWindowOverflow := _lastWindowOverflow w;
                    _currentRateLimitWindowStart := _currentRateLimitWindowStart w;
                    _rateLimitedApiCalls := _rateLimitedApiCalls w ++ [apiCall] |} s1)
    else
      (inr false,
       setWindow {| _rateLimitWindowCounter := _rateLimitWindowCounter w + 1;
                    _lastWindowOverflow := _lastWindowOverflow w;
                    _currentRateLimitWindowStart := _currentRateLimitWindowStart w;
                    _rateLimitedApiCalls := _rateLimitedApiCalls w |} s1).
Proof.
  cbv zeta. unfold enforceGlobalRateLimit, now, bind, gets. cbn beta iota.
  change (window (tick s)) with (window s).
  destruct (nextRateLimitWindow svc (window s) <=? Date_now svc (clockReads s)).
  - pose proof (rollWindow_ok (Date_now svc (clockReads s)) (tick s)) as Hok.
    destruct (rollWindow (Date_now svc (clockReads s)) (tick s)) as [r s1].
    simpl in Hok. subst r. cbn beta iota. simpl.
    destruct (rateLimit svc <=? _rateLimitWindowCounter (window s1)); reflexivity.
  - simpl.
    destruct (rateLimit svc <=? _rateLimitWindowCounter (window s)); reflexivity.
Qed.

(** The admission check never throws. *)
Lemma enforceGlobalRateLimit_total s apiCall :
  ∃ limited, (enforceGlobalRateLimit svc apiCall s).1 = inr limited.
Proof.
  rewrite enforceGlobalRateLimit_unfold. cbv zeta.
  destruct (rateLimit svc <=? _); simpl; eauto.
Qed.

(** The admission check keeps the counter within the limit, whether or
    not the window rolls over. *)
Lemma enforceGlobalRateLimit_in_range s apiCall :
  0 ≤ rateLimit svc →
  counterInRange svc (window s) →
  counterInRange svc (window (enforceGlobalRateLimit svc apiCall s).2).
Proof.
  intros Hl [Hlo Hhi]. unfold counterInRange.
  rewrite enforceGlobalRateLimit_unfold. cbv zeta.
  destruct (nextRateLimitWindow svc (window s) <=? Date_now svc (clockReads s)).
  - destruct (rollWindow_window (Date_now svc (clockReads s)) (tick s)) as [ov ->].
    simpl. destruct (Z.leb_spec (rateLimit svc) 0); simpl; lia.
  - change (window (tick s)) with (window s).
    destruct (Z.leb_spec (rateLimit svc) (_rateLimitWindowCounter (window s)));
      simpl; lia.
Qed.

End RateLimiter.

Create HintDb steps.

(** ** Frame rules of the monad *)

Section Steps.

Context (R : relation State) `{!PreOrder R}.

Lemma steps_ret {A} (a : A) : steps R (ret a).
Proof. intros s. simpl. reflexivity. Qed.

Lemma steps_throw {A} e : steps R (throw (A:=A) e).
Proof. intros s. simpl. reflexivity. Qed.

Lemma steps_gets {A} (f : State → A) : steps R (gets f).
Proof. intros s. simpl. reflexivity. Qed.

Lemma steps_lift {A} (r : Exn + A) : steps R (lift r).
Proof. destruct r; [apply steps_throw | apply steps_ret]. Qed.

Lemma steps_modify f : (∀ s, R s (f s)) → steps R (modify f).
Proof. intros Hf s. apply Hf. Qed.

Lemma steps_bind {A B} (m : M A) (k : A → M B) :
  steps R m → (∀ a, steps R (k a)) → steps R (bind m k).
Proof.
  intros Hm Hk s. unfold bind. specialize (Hm s).
  destruct (m s) as [[e|a] s1]; simpl in *; [done|].
  etrans; [exact Hm | apply Hk].
Qed.

Lemma steps_tryCatch {A} (m : M A) (handler : Exn → M A) :
  steps R m → (∀ e, steps R (handler e)) → steps R (tryCatch m handler).
Proof.
  intros Hm Hh s. unfold tryCatch. specialize (Hm s).
  destruct (m s) as [[e|a] s1]; simpl in *; [|done].
  etrans; [exact Hm | apply Hh].
Qed.

End Steps.

#[global] Instance heapOnly_preorder : PreOrder heapOnly.
Proof.
  split.
  - intros s. exists (heap s). by destruct s.
  - intros s1 s2 s3 [h1 ->] [h2 ->]. by exists h2.
Qed.

(** One frame rule at a time, through the structure of a computation. *)
Ltac steps_structure :=
  repeat first
    [ solve [auto with steps]
    | lazymatch goal with
      | |- steps _ (ret _) => solve [apply steps_ret; typeclasses eauto]
      | |- steps _ (throw _) => solve [apply steps_throw; typeclasses eauto]
      | |- steps _ (gets _) => solve [apply steps_gets; typeclasses eauto]
      | |- steps _ (lift _) => solve [apply steps_lift; typeclasses eauto]
      | |- steps _ (bind _ _) => apply steps_bind; [typeclasses eauto | | intros ?]
      | |- steps _ (tryCatch _ _) => apply steps_tryCatch; [typeclasses eauto | | intros ?]
      | |- steps _ (match ?x with _ => _ end) => destruct x
      end
    | progress cbv beta zeta ].

(** ** What each operation of the engine may change *)

Section Frames.

Context (R : relation State) `{!PreOrder R}.

(** The changes [R] has to allow; each lemma below depends on those it
    names. *)
Hypothesis R_alloc : ∀ s o, R s (setHeap (heap s ++ [o]) s).
Hypothesis R_update : ∀ s l c c',
  callAt (heap s) l = Some c → R s (setHeap (<[l := ObjCall c']> (heap s)) s).
Hypothesis R_params : ∀ s l p, R s (setHeap (<[l := ObjParams p]> (heap s)) s).
Hypothesis R_log : ∀ s l, R s (addLog l s).
Hypothesis R_event : ∀ s e, R s (addEvent e s).
Hypothesis R_dispatch : ∀ s d, R s (addDispatch d s).
Hypothesis R_refresh : ∀ s p, R s (addRefresh p s).

Variable svc : Service.

Hypothesis R_enforce : ∀ apiCall, steps R (enforceGlobalRateLimit svc apiCall).

Lemma steps_alloc o : steps R (alloc o).
Proof. intros s. apply R_alloc. Qed.

Lemma steps_readCall l : steps R (readCall l).
Proof. intros s. unfold readCall. by destruct (heap s !! l) as [[]|]. Qed.

Lemma steps_updateCall l f : steps R (updateCall l f).
Proof.
  intros s. unfold updateCall, callAt.
  destruct (heap s !! l) as [[p|c]|] eqn:E; simpl; try reflexivity.
  apply R_update with c. unfold callAt. by rewrite E.
Qed.

Lemma steps_readParams l : steps R (readParams l).
Proof. apply steps_gets; typeclasses eauto. Qed.

Lemma steps_writeParams l p : steps R (writeParams l p).
Proof. apply steps_modify. intros s. apply R_params. Qed.

Lemma steps_log l : steps R (log l).
Proof. apply steps_modify. intros s. apply R_log. Qed.

#[local] Hint Resolve steps_alloc steps_readCall steps_updateCall steps_readParams
  steps_writeParams steps_log : steps.

Lemma steps_addDefaultHeaders l : steps R (addDefaultHeaders svc l).
Proof. unfold addDefaultHeaders. steps_structure; auto with steps. Qed.

Lemma steps_setHeader l name value : steps R (setHeader l name value).
Proof. unfold setHeader. steps_structure; auto with steps. Qed.

#[local] Hint Resolve steps_addDefaultHeaders steps_setHeader : steps.

Lemma steps_execute a l : steps R (execute a l).
Proof. unfold execute. steps_structure; auto with steps. Qed.

#[local] Hint Resolve steps_execute : steps.

Lemma steps_buildApiCall ep p a ow : steps R (buildApiCall svc ep p a ow).
Proof. unfold buildApiCall. steps_structure; auto with steps. Qed.

Lemma steps_validateApiCall l : steps R (validateApiCall l).
Proof. unfold validateApiCall. steps_structure; auto with steps. Qed.

#[local] Hint Resolve steps_buildApiCall steps_validateApiCall : steps.

Lemma steps_prepareCall name p ow : steps R (prepareCall svc name p ow).
Proof. unfold prepareCall. steps_structure; auto with steps. Qed.

#[local] Hint Resolve steps_prepareCall : steps.

Lemma steps_emit name t p l : steps R (emit svc name t p l).
Proof. apply steps_modify. intros s. apply R_event. Qed.

Lemma steps_doCall p l : steps R (doCall svc p l).
Proof.
  unfold doCall. apply steps_bind; [typeclasses eauto | auto with steps |].
  intros c s. apply R_dispatch.
Qed.

Lemma steps_setResponse l r : steps R (setResponse l r).
Proof. unfold setResponse. steps_structure; auto with steps. Qed.

Lemma steps_setRequestAccessToken l t : steps R (setRequestAccessToken l t).
Proof. unfold setRequestAccessToken. steps_structure; auto with steps. Qed.

#[local] Hint Resolve steps_emit steps_doCall steps_setResponse
  steps_setRequestAccessToken : steps.

Lemma steps_baseStrategyOnApiError a p l e : steps R (baseStrategyOnApiError a p l e).
Proof. unfold baseStrategyOnApiError. steps_structure; auto with steps. Qed.

#[local] Hint Resolve steps_baseStrategyOnApiError : steps.

Lemma steps_refreshableOnApiError a r p l e :
  steps R (refreshableOnApiError svc a r p l e).
Proof.
  unfold refreshableOnApiError. steps_structure; auto with steps.
  apply steps_modify. intros s. apply R_refresh.
Qed.

#[local] Hint Resolve steps_refreshableOnApiError : steps.

Lemma steps_strategyOnApiError a p l e : steps R (strategyOnApiError svc a p l e).
Proof. unfold strategyOnApiError. steps_structure; auto with steps. Qed.

Lemma steps_serviceOnApiError p a l e : steps R (serviceOnApiError svc p a l e).
Proof. unfold serviceOnApiError. steps_structure; auto with steps. Qed.

#[local] Hint Resolve steps_strategyOnApiError steps_serviceOnApiError : steps.

Lemma steps_onDoCallError p l a e : steps R (onDoCallError svc p l a e).
Proof. unfold onDoCallError. steps_structure; auto with steps. Qed.

#[local] Hint Resolve steps_onDoCallError : steps.

Lemma steps_executeApiCall p l a : steps R (executeApiCall svc p l a).
Proof. unfold executeApiCall. steps_structure; auto with steps. Qed.

Lemma steps_onApiSuccessResponse l : steps R (onApiSuccessResponse svc l).
Proof. unfold onApiSuccessResponse. steps_structure; auto with steps. Qed.

Lemma steps_normalizeEntries get entries payload acc :
  steps R (normalizeEntries get entries payload acc).
Proof.
  revert acc. induction entries as [|[key path] entries IH]; intros acc; simpl.
  - apply steps_ret; typeclasses eauto.
  - destruct (get payload path); [apply IH|].
    apply steps_bind; [typeclasses eauto | auto with steps | intros; apply IH].
Qed.

#[local] Hint Resolve steps_executeApiCall steps_onApiSuccessResponse
  steps_normalizeEntries : steps.

Lemma steps_setResponseData l v : steps R (setResponseData l v).
Proof. unfold setResponseData. steps_structure; auto with steps. Qed.

#[local] Hint Resolve steps_setResponseData : steps.

Lemma steps_normalizeResponse p l : steps R (normalizeResponse p l).
Proof.
  unfold normalizeResponse, normalizeWithObjectMapping.
  steps_structure; auto with steps.
Qed.

#[local] Hint Resolve steps_normalizeResponse : steps.

Lemma steps_completeCall name p l : steps R (completeCall svc name p l).
Proof. unfold completeCall. steps_structure; auto with steps. Qed.

#[local] Hint Resolve steps_completeCall : steps.

Lemma steps_call name p ctx ow : steps R (call svc name p ctx ow).
Proof. unfold call. steps_structure; auto with steps. Qed.

End Frames.

(** The admission check changes the rate-limiting fields, the clock
    reading and the log, nothing else. *)
Lemma steps_enforceGlobalRateLimit (R : relation State) `{!PreOrder R} svc apiCall :
  (∀ s w, R s (setWindow w s)) →
  (∀ s, R s (tick s)) →
  (∀ s l, R s (addLog l s)) →
  steps R (enforceGlobalRateLimit svc apiCall).
Proof.
  intros R_window R_tick R_log.
  assert (∀ f, (∀ s, ∃ w, f s = setWindow w s) → steps R (modify f)) as Hset.
  { intros f Hf. apply steps_modify. intros s. destruct (Hf s) as [w ->]. apply R_window. }
  unfold enforceGlobalRateLimit, rollWindow, now, incrementRateLimitWindowCounter,
    resetRateLimitWindowCounter, setRateLimitedApiCalls, setRateLimitWindowCounter,
    setCurrentRateLimitWindowStart, setLastWindowOverflow, log.
  apply steps_bind; [typeclasses eauto | intros s; apply R_tick | intros t].
  steps_structure;
    first [ solve [apply steps_modify; intros ?; apply R_log]
          | solve [apply Hset; intros ?; eauto] ].
Qed.


Section RateLimiterClaims.

Variable svc : Service.

#[local] Instance counterInRange_preorder :
  PreOrder (λ s s' : State,
    counterInRange svc (window s) → counterInRange svc (window s')).
Proof. split; [intros s; auto | intros s1 s2 s3 H12 H23; auto]. Qed.

(** In every state the instance can reach, the counter is within the
    limit. *)
Lemma reachable_counterInRange s :
  0 ≤ rateLimit svc → reachable svc s → counterInRange svc (window s).
Proof.
  intros Hl Hs. induction Hs as [t0 h|s c _ IH|s name p ctx ow _ IH|s s' _ IH Hw].
  - unfold counterInRange. simpl. lia.
  - by apply enforceGlobalRateLimit_in_range.
  - revert IH.
    apply (λ Ha Hu Hp Hg He Hd Hr Hf,
      steps_call (λ s s', counterInRange svc (window s) → counterInRange svc (window s'))
        Ha Hu Hp Hg He Hd Hr svc Hf name p ctx ow s); try done.
    intros c s0. by apply enforceGlobalRateLimit_in_range.
  - by rewrite Hw.
Qed.

End RateLimiterClaims.

(** C5.  Within one rate-limit window, an admission check below the
    limit admits the call and adds exactly one to the counter; at or
    above the limit it appends the call to the overflow buffer and the
    attempt fails with [LocalRemoteAPIRateLimitExceeded] before anything
    is dispatched, the counter unchanged; and so, for a limit that is
    not negative, the counter is within [[0, rateLimit()]] in every
    state the instance can reach. *)
Theorem rate_limit_within_window svc s apiCall endpointParams authStrategy :
  (sameWindow svc s →
   _rateLimitWindowCounter (window s) < rateLimit svc →
   ∃ s', enforceGlobalRateLimit svc apiCall s = (inr false, s') ∧
     _rateLimitWindowCounter (window s') = _rateLimitWindowCounter (window s) + 1 ∧
     _rateLimitedApiCalls (window s') = _rateLimitedApiCalls (window s) ∧
     _currentRateLimitWindowStart (window s') = _currentRateLimitWindowStart (window s))
  ∧ (sameWindow svc s →
     rateLimit svc ≤ _rateLimitWindowCounter (window s) →
     ∃ s', enforceGlobalRateLimit svc apiCall s = (inr true, s') ∧
       executeApiCall svc endpointParams apiCall authStrategy s =
         (inl (LocalRemoteAPIRateLimitExceeded apiCall), s') ∧
       _rateLimitWindowCounter (window s') = _rateLimitWindowCounter (window s) ∧
       _rateLimitedApiCalls (window s') = (_rateLimitedApiCalls (window s) ++ [apiCall])%list ∧
       dispatched s' = dispatched s)
  ∧ (0 ≤ rateLimit svc → reachable svc s → counterInRange svc (window s)).
Proof.
  split; [|split].
  - intros Hw Hc. eexists. split; [by apply enforceGlobalRateLimit_admit|]. done.
  - intros Hw Hc. eexists. split; [by apply enforceGlobalRateLimit_reject|].
    split; [|done].
    unfold executeApiCall, bind. by rewrite enforceGlobalRateLimit_reject.
  - apply reachable_counterInRange.
Qed.

Lemma rate_limit_within_window_witness :
  (∃ s', enforceGlobalRateLimit Demo.publicService 1%nat Demo.start = (inr false, s') ∧
     _rateLimitWindowCounter (window s') = 1)
  ∧ (∃ s', executeApiCall Demo.publicService (Some 0%nat) 1%nat None Demo.full =
       (inl (LocalRemoteAPIRateLimitExceeded 1%nat), s') ∧
     _rateLimitWindowCounter (window s') = 5 ∧
     _rateLimitedApiCalls (window s') = [1%nat] ∧
     dispatched s' = [])
  ∧ counterInRange Demo.publicService (window Demo.start).
Proof.
  pose proof (rate_limit_within_window Demo.publicService Demo.start 1%nat (Some 0%nat) None)
    as (Hadmit & _ & Hrange).
  pose proof (rate_limit_within_window Demo.publicService Demo.full 1%nat (Some 0%nat) None)
    as (_ & Hreject & _).
  split; [|split].
  - destruct Hadmit as (s' & E & Hc & _); [reflexivity | reflexivity |].
    exists s'. split; [exact E | exact Hc].
  - destruct Hreject as (s' & _ & E & Hc & Hb & Hd); [reflexivity | vm_compute; discriminate |].
    exists s'. repeat split; assumption.
  - apply Hrange; [vm_compute; discriminate | apply reachable_initial].
Defined.

(** C6.  When the window's time is up at an admission check, a fresh
    window is started before the limit is tested: it begins now, its
    counter is 0 and its overflow buffer is empty; with a positive limit
    the call that triggered the check is then admitted as the first of
    the new window. *)
Theorem rate_limit_window_rollover svc s apiCall :
  nextRateLimitWindow svc (window s) ≤ Date_now svc (clockReads s) →
  0 < rateLimit svc →
  ∃ overflow s',
    window (rollWindow (Date_now svc (clockReads s)) (tick s)).2 =
      {| _rateLimitWindowCounter := 0; _lastWindowOverflow := overflow;
         _currentRateLimitWindowStart := Date_now svc (clockReads s);
         _rateLimitedApiCalls := [] |} ∧
    enforceGlobalRateLimit svc apiCall s = (inr false, s') ∧
    window s' =
      {| _rateLimitWindowCounter := 1; _lastWindowOverflow := overflow;
         _currentRateLimitWindowStart := Date_now svc (clockReads s);
         _rateLimitedApiCalls := [] |}.
Proof.
  intros Hroll Hl.
  destruct (rollWindow_window (Date_now svc (clockReads s)) (tick s)) as [ov Hw].
  exists ov. eexists. split; [exact Hw|].
  rewrite enforceGlobalRateLimit_unfold. cbv zeta.
  destruct (Z.leb_spec (nextRateLimitWindow svc (window s))
              (Date_now svc (clockReads s))) as [_|?]; [|lia].
  rewrite Hw. simpl.
  destruct (Z.leb_spec (rateLimit svc) 0) as [?|_]; [lia|].
  split; reflexivity.
Qed.

Lemma rate_limit_window_rollover_witness :
  ∃ overflow s',
    window (rollWindow 1000 (tick Demo.stale)).2 =
      {| _rateLimitWindowCounter := 0; _lastWindowOverflow := overflow;
         _currentRateLimitWindowStart := 1000; _rateLimitedApiCalls := [] |} ∧
    enforceGlobalRateLimit Demo.publicService 1%nat Demo.stale =
      (inr false, s') ∧
    window s' =
      {| _rateLimitWindowCounter := 1; _lastWindowOverflow := overflow;
         _currentRateLimitWindowStart := 1000; _rateLimitedApiCalls := [] |}.
Proof.
  apply (rate_limit_window_rollover Demo.publicService Demo.stale 1%nat).
  - vm_compute. discriminate.
  - reflexivity.
Defined.

(** ** Response normalizer *)

Section NormalizerClaims.

Variable get : option JSON → string → option JSON.

(** The loop over the entries of a mapping table: it always completes;
    a key other than [__proto__] whose path resolves is bound to the
    value found, any other key keeps what the accumulator had; and one
    warning is logged for each entry whose path is missing. *)
Lemma normalizeEntries_spec entries payload acc s :
  NoDup entries.*1 →
  ∃ normalized warnings,
    normalizeEntries get entries payload acc s = (inr normalized, addLogs warnings s) ∧
    (∀ key,
       normalized !! key =
         match (list_to_map entries : gmap string string) !! key with
         | Some path =>
           match get payload path with
           | Some value => if decide (key = "__proto__") then acc !! key else Some value
           | None => acc !! key
           end
         | None => acc !! key
         end) ∧
    (∀ path key,
       WarnPathNotFound path key ∈ warnings ↔
       (key, path) ∈ entries ∧ get payload path = None).
Proof.
  revert acc s. induction entries as [|[key path] entries IH]; intros acc s Hnd.
  - exists acc, []. split; [done|]. split; [done|].
    intros p k. split; [by intros ?%elem_of_nil | by intros [?%elem_of_nil _]].
  - apply NoDup_cons in Hnd as [Hkey Hnd]. simpl in Hkey.
    assert ((list_to_map entries : gmap string string) !! key = None) as Hfresh
      by by apply not_elem_of_list_to_map_1.
    simpl. destruct (get payload path) as [value|] eqn:Hget.
    + destruct (IH (assignProperty key value acc) s Hnd) as (n & ws & E & Hn & Hws).
      exists n, ws. split; [exact E|]. split.
      * intros k. rewrite Hn. unfold assignProperty.
        destruct (decide (k = key)) as [->|Hne].
        -- rewrite Hfresh, lookup_insert_eq, Hget.
           destruct (decide (key = "__proto__")); [done | by rewrite lookup_insert_eq].
        -- rewrite lookup_insert_ne by done.
           destruct (decide (key = "__proto__")); [done | by rewrite lookup_insert_ne].
      * intros p k. rewrite Hws, elem_of_cons. split; [by intros [? ?]; split; [right|] |].
        intros [[[= -> ->]|?] Hp]; [congruence | done].
    + unfold bind, log, modify.
      destruct (IH acc (addLog (WarnPathNotFound path key) s) Hnd)
        as (n & ws & E & Hn & Hws).
      exists n, (WarnPathNotFound path key :: ws). split; [exact E|]. split.
      * intros k. rewrite Hn. destruct (decide (k = key)) as [->|Hne].
        -- by rewrite Hfresh, lookup_insert_eq, Hget.
        -- by rewrite lookup_insert_ne by done.
      * intros p k. rewrite !elem_of_cons, Hws. split.
        -- intros [[= -> ->]|[? ?]]; [by split; [left|] | by split; [right|]].
        -- intros [[[= -> ->]|?] Hp]; [by left | by right].
Qed.

End NormalizerClaims.

(** C8.  The example of the specification normalizes as stated.  But
    a mapping whose key is [__proto__] (an own key, as [JSON.parse] or
    a computed key makes it), with a source path that resolves to the
    same defined value, gives an object without that key, and logs no
    warning: the assignment went to the prototype accessor. *)
Theorem normalizeWithObjectMapping_drops_proto_key s :
  let payload := Some (JObj {[ "tokens" := JObj {[ "access_token" := JStr "abc" ]} ]}) in
  normalizeWithObjectMapping getByDotPath
      {[ "accessToken" := "tokens.access_token" ]} payload s =
    (inr {[ "accessToken" := JStr "abc" ]}, s)
  ∧ getByDotPath payload "tokens.access_token" = Some (JStr "abc")
  ∧ normalizeWithObjectMapping getByDotPath
      {[ "__proto__" := "tokens.access_token" ]} payload s =
    (inr ∅, s).
Proof.
  cbv zeta. unfold normalizeWithObjectMapping. rewrite !map_to_list_singleton.
  split; [reflexivity|]. split; reflexivity.
Qed.

(** ** Heap accesses *)

Lemma setHeap_id s : setHeap (heap s) s = s.
Proof. by destruct s. Qed.

Lemma readCall_Some l s c :
  callAt (heap s) l = Some c → readCall l s = (inr c, s).
Proof.
  unfold readCall, callAt. by destruct (heap s !! l) as [[p|c']|]; intros [= ->].
Qed.

Lemma callAt_lt h l c : callAt h l = Some c → (l < length h)%nat.
Proof.
  unfold callAt. destruct (h !! l) eqn:E; [|done]. intros _.
  by apply lookup_lt_Some in E.
Qed.

Lemma callAt_insert h l c :
  (l < length h)%nat → callAt (<[l := ObjCall c]> h) l = Some c.
Proof. intros Hl. unfold callAt. by rewrite list_lookup_insert_eq. Qed.

Lemma callAt_insert_ne h l l' o : l ≠ l' → callAt (<[l := o]> h) l' = callAt h l'.
Proof. intros Hl. unfold callAt. by rewrite list_lookup_insert_ne. Qed.

Lemma callAt_app_new h c : callAt (h ++ [ObjCall c]) (length h) = Some c.
Proof. unfold callAt. by rewrite lookup_app_r, Nat.sub_diag. Qed.

Lemma callAt_app_old h o l : (l < length h)%nat → callAt (h ++ [o]) l = callAt h l.
Proof. intros Hl. unfold callAt. by rewrite lookup_app_l. Qed.

Lemma paramsAt_app_old h o l p :
  paramsAt h l = Some p → paramsAt (h ++ [o]) l = Some p.
Proof.
  destruct l as [l|]; [|done]. simpl.
  destruct (h !! l) as [x|] eqn:E; [|done].
  by rewrite (lookup_app_l_Some _ _ _ _ E).
Qed.

Lemma insert_app_new {A} (h : list A) (x y : A) :
  <[length h := y]> (h ++ [x]) = h ++ [y].
Proof. by rewrite insert_app_r_alt, Nat.sub_diag. Qed.

(** Writing through a reference to a call that is on the heap. *)
Lemma updateCall_Some l s c (f : APICall → APICall) :
  callAt (heap s) l = Some c →
  updateCall l f s = (inr tt, setHeap (<[l := ObjCall (f c)]> (heap s)) s).
Proof.
  unfold updateCall, callAt. by destruct (heap s !! l) as [[p|c']|]; intros [= ->].
Qed.

(** ** Construction and validation *)

Section Construction.

Variable svc : Service.

Lemma setHeader_eq l name value s c :
  callAt (heap s) l = Some c →
  setHeader l name value s =
    (inr tt,
     setHeap (<[l := ObjCall
                  (withRequestHeaders (<[name := value]> (req_headers (request c))) c)]>
                (heap s)) s).
Proof.
  exact (updateCall_Some l s c
    (λ c, withRequestHeaders (<[name := value]> (req_headers (request c))) c)).
Qed.

Lemma addDefaultHeaders_eq l s c :
  callAt (heap s) l = Some c →
  addDefaultHeaders svc l s =
    (inr tt,
     setHeap (<[l := ObjCall
                  (withRequestHeaders (req_headers (request c) ∪ defaultHeaders svc) c)]>
                (heap s)) s).
Proof.
  exact (updateCall_Some l s c
    (λ c, withRequestHeaders (req_headers (request c) ∪ defaultHeaders svc) c)).
Qed.

(** [execute] on a call that is on the heap. *)
Lemma execute_eq a l s c :
  callAt (heap s) l = Some c →
  execute a l s =
    match authorize a c with
    | Some c' => (inr tt, setHeap (<[l := ObjCall c']> (heap s)) s)
    | None => (inl (InvalidAuthParams l), s)
    end.
Proof.
  intros Hc.
  assert (heap s !! l = Some (ObjCall c)) as Hl.
  { unfold callAt in Hc. by destruct (heap s !! l) as [[]|]; simplify_eq. }
  destruct a as [|p|p rp|p]; simpl.
  - by rewrite list_insert_id, setHeap_id.
  - unfold bind at 1. rewrite (readCall_Some _ _ _ Hc).
    destruct (truthyAccessToken _); [|done]. by apply setHeader_eq.
  - unfold bind at 1. rewrite (readCall_Some _ _ _ Hc).
    destruct (truthyAccessToken _); [|done]. by apply setHeader_eq.
  - unfold bind at 1. rewrite (readCall_Some _ _ _ Hc).
    destruct (truthyAccessToken _); [|done]. by apply setHeader_eq.
Qed.

(** [buildApiCall] allocates one call, at the end of the heap, and
    changes nothing else. *)
Lemma buildApiCall_eq ep p a ow s :
  buildApiCall svc ep p a ow s =
    match callUrl svc ep p ow with
    | inl e => (inl e, s)
    | inr url =>
      match authorize a (callWithDefaults svc ep p url) with
      | Some c => (inr (length (heap s)), setHeap (heap s ++ [ObjCall c]) s)
      | None =>
        (inl (InvalidAuthParams (length (heap s))),
         setHeap (heap s ++ [ObjCall (callWithDefaults svc ep p url)]) s)
      end
    end.
Proof.
  unfold buildApiCall. unfold bind at 1.
  destruct (callUrl svc ep p ow) as [e|url]; [done|]. simpl.
  unfold bind at 1, alloc. unfold bind at 1.
  erewrite addDefaultHeaders_eq by apply callAt_app_new.
  simpl. rewrite insert_app_new.
  unfold bind at 1. erewrite execute_eq by apply callAt_app_new.
  fold (callWithDefaults svc ep p url).
  destruct (authorize a _) as [c|]; [|done].
  simpl. by rewrite insert_app_new.
Qed.

(** [validateApiCall] on a call that is on the heap. *)
Lemma validateApiCall_eq l s c :
  callAt (heap s) l = Some c →
  validateApiCall l s =
    if validMethod c then (inr true, s)
    else (inl (InvalidMethod (toLowerCase (req_method (request c)))), s).
Proof.
  intros Hc. unfold validateApiCall, bind. rewrite (readCall_Some _ _ _ Hc).
  unfold validMethod. by case_bool_decide.
Qed.

(** The part of [call] that comes before the first event: what it
    returns and the one object it adds to the heap. *)
Lemma prepareCall_eq name params ow s :
  prepareCall svc name params ow s =
    match _endpoints svc !! name with
    | None => (inl (EndpointNotFound name), s)
    | Some ep =>
      match buildAuthStrategy svc ep with
      | inl e => (inl e, s)
      | inr a =>
        let p := paramsAt (heap s) params in
        match callUrl svc ep p ow with
        | inl e => (inl e, s)
        | inr url =>
          match authorize a (callWithDefaults svc ep p url) with
          | None =>
            (inl (InvalidAuthParams (length (heap s))),
             setHeap (heap s ++ [ObjCall (callWithDefaults svc ep p url)]) s)
          | Some c =>
            if validMethod c
            then (inr (a, length (heap s)), setHeap (heap s ++ [ObjCall c]) s)
            else (inl (InvalidMethod (toLowerCase (req_method (request c)))),
                  setHeap (heap s ++ [ObjCall c]) s)
          end
        end
      end
    end.
Proof.
  unfold prepareCall. destruct (_endpoints svc !! name) as [ep|]; [|done].
  unfold bind at 1. destruct (buildAuthStrategy svc ep) as [e|a]; [done|]. simpl.
  unfold bind at 1, readParams, gets. unfold bind at 1.
  rewrite buildApiCall_eq.
  destruct (callUrl svc ep _ ow) as [e|url]; [done|].
  destruct (authorize a _) as [c|]; [|done].
  unfold bind. erewrite validateApiCall_eq by apply callAt_app_new.
  by destruct (validMethod c).
Qed.

(** A missing path parameter is the only way [callUrl] fails. *)
Lemma callUrl_error ep p ow e :
  callUrl svc ep p ow = inl e → ∃ url missing, e = MissingPathParameter url missing.
Proof.
  unfold callUrl, constructUrl, validatePathParams.
  destruct ow as [url|]; [destruct (Str.isEmpty url); [|done]|];
    (destruct (extractPathParamNames _); [done|]);
    (destruct (p ≫= p_pathParams); [|intros [= <-]; eauto]);
    (destruct (List.filter _ _); [done|]); intros [= <-]; eauto.
Qed.

(** Construction fails in one of the five named ways only. *)
Lemma prepareCall_error name params ow s e s' :
  prepareCall svc name params ow s = (inl e, s') → isConstructionError e.
Proof.
  rewrite prepareCall_eq.
  destruct (_endpoints svc !! name) as [ep|]; [|by intros [= <- <-]].
  destruct (buildAuthStrategy svc ep) as [e'|a] eqn:Ha.
  { intros [= <- <-]. unfold buildAuthStrategy in Ha.
    by repeat case_match; simplify_eq. }
  cbv zeta. destruct (callUrl svc ep _ ow) as [e'|url] eqn:Hu.
  { intros [= <- <-]. by apply callUrl_error in Hu as (? & ? & ->). }
  destruct (authorize a _) as [c|]; [|by intros [= <- <-]].
  destruct (validMethod c); [done|]. by intros [= <- <-].
Qed.

End Construction.



(** ** Counting dispatches *)

#[global] Instance sameDispatches_preorder : PreOrder sameDispatches.
Proof.
  split; [by intros s|]. intros s1 s2 s3 H12 H23. unfold sameDispatches in *. congruence.
Qed.

Lemma dispatchesUpTo_0 s s' : sameDispatches s s' → dispatchesUpTo 0 s s'.
Proof. intros H. exists []. by rewrite app_nil_r. Qed.

Lemma dispatchesUpTo_trans n m k s1 s2 s3 :
  dispatchesUpTo n s1 s2 → dispatchesUpTo m s2 s3 → (n + m ≤ k)%nat →
  dispatchesUpTo k s1 s3.
Proof.
  intros (d1 & E1 & H1) (d2 & E2 & H2) Hk. exists (d1 ++ d2).
  rewrite E2, E1, app_assoc, length_app. split; [done | lia].
Qed.

Lemma dispatchesUpTo_mono n k s s' :
  dispatchesUpTo n s s' → (n ≤ k)%nat → dispatchesUpTo k s s'.
Proof. intros (d & E & H) Hk. exists d. split; [done | lia]. Qed.

Lemma dispatches_none k {A} (c : M A) :
  steps sameDispatches c → ∀ s, dispatchesUpTo k s (c s).2.
Proof.
  intros Hc s. apply dispatchesUpTo_mono with 0%nat; [|lia].
  apply dispatchesUpTo_0, Hc.
Qed.

Lemma dispatches_bind n m k {A B} (c : M A) (f : A → M B) :
  (∀ s, dispatchesUpTo n s (c s).2) →
  (∀ a s, dispatchesUpTo m s (f a s).2) →
  (n + m ≤ k)%nat →
  ∀ s, dispatchesUpTo k s (bind c f s).2.
Proof.
  intros Hc Hf Hk s. unfold bind. specialize (Hc s).
  destruct (c s) as [[e|a] s1]; simpl in *.
  - eapply dispatchesUpTo_mono; [done | lia].
  - eapply dispatchesUpTo_trans; [done | apply Hf | done].
Qed.

Lemma dispatches_tryCatch n m k {A} (c : M A) (handler : Exn → M A) :
  (∀ s, dispatchesUpTo n s (c s).2) →
  (∀ e s, dispatchesUpTo m s (handler e s).2) →
  (n + m ≤ k)%nat →
  ∀ s, dispatchesUpTo k s (tryCatch c handler s).2.
Proof.
  intros Hc Hh Hk s. unfold tryCatch. specialize (Hc s).
  destruct (c s) as [[e|a] s1]; simpl in *.
  - eapply dispatchesUpTo_trans; [done | apply Hh | done].
  - eapply dispatchesUpTo_mono; [done | lia].
Qed.

Section Dispatches.

Variable svc : Service.

Lemma sameDispatches_heap s h : sameDispatches s (setHeap h s).
Proof. done. Qed.

Lemma sameDispatches_update s l c c' :
  callAt (heap s) l = Some c → sameDispatches s (setHeap (<[l := ObjCall c']> (heap s)) s).
Proof. done. Qed.

Lemma sameDispatches_log s l : sameDispatches s (addLog l s).
Proof. done. Qed.

Lemma sameDispatches_event s e : sameDispatches s (addEvent e s).
Proof. done. Qed.

Lemma sameDispatches_refresh s p : sameDispatches s (addRefresh p s).
Proof. done. Qed.

Lemma sameDispatches_enforce apiCall :
  steps sameDispatches (enforceGlobalRateLimit svc apiCall).
Proof. apply steps_enforceGlobalRateLimit; [typeclasses eauto | done..]. Qed.

(** One request, exactly, goes to the transport in [doCall] (when the
    call is on the heap). *)
Lemma doCall_dispatches p l s : dispatchesUpTo 1 s (doCall svc p l s).2.
Proof.
  unfold doCall, bind, readCall.
  destruct (heap s !! l) as [[q|c]|]; simpl;
    try (by apply dispatchesUpTo_mono with 0%nat; [apply dispatchesUpTo_0 | lia]).
  eexists [_]. split; [done | simpl; lia].
Qed.

(** An attempt dispatches at most once. *)
Lemma executeApiCall_dispatches p l a s :
  dispatchesUpTo 1 s (executeApiCall svc p l a s).2.
Proof.
  revert s. unfold executeApiCall.
  apply (dispatches_bind 0 1); [apply dispatches_none, sameDispatches_enforce | | lia].
  intros [|]; [apply dispatches_none, steps_throw; typeclasses eauto|].
  apply (dispatches_bind 1 0); [| | lia].
  - destruct (negb (dryRun svc)).
    + apply (dispatches_tryCatch 1 0); [| | lia].
      * apply (dispatches_bind 1 0); [apply doCall_dispatches | | lia].
        intros r. apply dispatches_none, steps_ret; typeclasses eauto.
      * intros e. apply dispatches_none.
        by apply steps_onDoCallError; [typeclasses eauto | ..].
    + apply dispatches_none. steps_structure. by apply steps_log.
  - intros r. apply dispatches_none. steps_structure.
    by apply steps_setResponse; [typeclasses eauto|].
Qed.

(** A call dispatches at most twice. *)
Lemma call_dispatches name p ctx ow s :
  dispatchesUpTo 2 s (call svc name p ctx ow s).2.
Proof.
  pose proof sameDispatches_heap as Hh. pose proof sameDispatches_log as Hg.
  pose proof sameDispatches_event as He.
  assert (∀ n t q l, steps sameDispatches (emit svc n t q l)) as Hemit
    by (intros; by apply steps_emit).
  revert s. unfold call.
  apply (dispatches_bind 0 2); [|  | lia].
  { apply dispatches_none. by apply steps_prepareCall; [typeclasses eauto | ..]. }
  intros [authStrategy apiCall].
  apply (dispatches_bind 0 2); [by apply dispatches_none | | lia].
  intros _. apply (dispatches_bind 2 0); [| | lia].
  - apply (dispatches_tryCatch 1 1); [| | lia].
    + apply (dispatches_bind 1 0); [apply executeApiCall_dispatches | | lia].
      intros ?. apply dispatches_none, steps_ret; typeclasses eauto.
    + intros [].
      all: try (apply dispatches_none; steps_structure; by apply Hemit).
      apply (dispatches_tryCatch 1 0); [| | lia].
      * apply (dispatches_bind 1 0); [apply executeApiCall_dispatches | | lia].
        intros ?. apply dispatches_none, steps_ret; typeclasses eauto.
      * intros e. apply dispatches_none.
        destruct (isRetryAPICall e); [apply steps_throw | apply steps_ret]; typeclasses eauto.
  - intros l. apply dispatches_none.
    by apply steps_completeCall; [typeclasses eauto | ..].
Qed.

End Dispatches.

(** ** The single retry *)

(** C2.  When the first attempt of a call raises the retry signal and
    the retry attempt raises it again, the call fails with
    [AuthenticationFailed]; there is no third attempt: this call has
    dispatched at most twice, as has any call. *)
Theorem call_second_retry_is_fatal
    svc endpointName params eventContext overwriteUrl s
    authStrategy apiCall s1 params1 retried s2 params2 again s3 :
  prepareCall svc endpointName params overwriteUrl s = (inr (authStrategy, apiCall), s1) →
  executeApiCall svc params apiCall (Some authStrategy)
    (emit svc endpointName BEFORE params apiCall s1).2 =
    (inl (RetryAPICall params1 retried), s2) →
  executeApiCall svc params retried (Some authStrategy) s2 =
    (inl (RetryAPICall params2 again), s3) →
  call svc endpointName params eventContext overwriteUrl s =
    (inl (AuthenticationFailed retried (RetryAPICall params2 again)), s3)
  ∧ dispatchesUpTo 2 s s3
  ∧ ∀ endpointName' params' eventContext' overwriteUrl' s',
      dispatchesUpTo 2 s'
        (call svc endpointName' params' eventContext' overwriteUrl' s').2.
Proof.
  intros Hprepare Hfirst Hretry.
  assert (call svc endpointName params eventContext overwriteUrl s =
            (inl (AuthenticationFailed retried (RetryAPICall params2 again)), s3)) as Hcall.
  { unfold call. unfold bind at 1. rewrite Hprepare. cbv beta iota.
    unfold bind at 1.
    set (before := emit svc endpointName BEFORE params apiCall s1) in *.
    assert (before.1 = inr tt) as Hbefore by reflexivity.
    destruct before as [r sB]. simpl in Hbefore, Hfirst. subst r. cbv beta iota.
    unfold bind at 1. unfold tryCatch at 1. unfold bind at 1. rewrite Hfirst.
    unfold tryCatch, bind. by rewrite Hretry. }
  split; [exact Hcall|]. split; [|intros; apply call_dispatches].
  pose proof (call_dispatches svc endpointName params eventContext overwriteUrl s) as Hd.
  by rewrite Hcall in Hd.
Qed.

Lemma call_second_retry_is_fatal_witness :
  (Demo.run (Demo.guardedService Demo.alwaysExpired)
     "refreshableBearerAuthEndpoint" (Some 0%nat)).1 =
    inl (AuthenticationFailed 2%nat (RetryAPICall (Some 0%nat) 3%nat))
  ∧ length (dispatched
      (Demo.run (Demo.guardedService Demo.alwaysExpired)
         "refreshableBearerAuthEndpoint" (Some 0%nat)).2) = 2%nat.
Proof.
  edestruct (call_second_retry_is_fatal (Demo.guardedService Demo.alwaysExpired)
               "refreshableBearerAuthEndpoint" (Some 0%nat) None None Demo.start)
    as (Hcall & _ & _).
  - vm_compute. reflexivity.
  - vm_compute. reflexivity.
  - vm_compute. reflexivity.
  - unfold Demo.run. rewrite Hcall. split; [reflexivity | vm_compute; reflexivity].
Defined.

(** ** Where the code departs from the specification *)

(** When the retry attempt fails with anything but the retry signal,
    [call] goes on as after a success. *)
Lemma call_swallows_error_of_retry
    svc endpointName params eventContext overwriteUrl s
    authStrategy apiCall s1 params1 retried s2 retryError s3 :
  prepareCall svc endpointName params overwriteUrl s = (inr (authStrategy, apiCall), s1) →
  executeApiCall svc params apiCall (Some authStrategy)
    (emit svc endpointName BEFORE params apiCall s1).2 =
    (inl (RetryAPICall params1 retried), s2) →
  executeApiCall svc params retried (Some authStrategy) s2 = (inl retryError, s3) →
  isRetryAPICall retryError = false →
  call svc endpointName params eventContext overwriteUrl s =
    completeCall svc endpointName params retried s3.
Proof.
  intros Hprepare Hfirst Hretry Hkind.
  unfold call. unfold bind at 1. rewrite Hprepare. cbv beta iota.
  unfold bind at 1.
  set (before := emit svc endpointName BEFORE params apiCall s1) in *.
  assert (before.1 = inr tt) as Hbefore by reflexivity.
  destruct before as [r sB]. simpl in Hbefore, Hfirst. subst r. cbv beta iota.
  unfold bind at 1. unfold tryCatch at 1. unfold bind at 1. rewrite Hfirst.
  unfold tryCatch at 1. unfold bind at 1. rewrite Hretry, Hkind. reflexivity.
Qed.

(** C1.  The first attempt meets an expired token and raises the retry
    signal; the retry attempt fails with a provider error that is not a
    retry signal.  The claim has the call emit [error] then [after] and
    reject with that error.  The code drops the error: the call emits
    [success] then [after] and resolves, with no response. *)
Theorem call_retry_error_is_swallowed :
  (Demo.run (Demo.guardedService Demo.expiredThenServerError)
     "refreshableBearerAuthEndpoint" (Some 0%nat)).1 = inr None
  ∧ ev_type <$> emitted
      (Demo.run (Demo.guardedService Demo.expiredThenServerError)
         "refreshableBearerAuthEndpoint" (Some 0%nat)).2 = [BEFORE; SUCCESS; AFTER]
  ∧ d_result <$> dispatched
      (Demo.run (Demo.guardedService Demo.expiredThenServerError)
         "refreshableBearerAuthEndpoint" (Some 0%nat)).2 =
    [Demo.failing 401; Demo.failing 500].
Proof. vm_compute. done. Qed.

(** C4.  A provider error, a strategy whose [onApiError] answers
    [false] without throwing, and the service hook of the base class.
    The claim has the strategy's veto keep the error inside the attempt.
    In the code the answer of the service hook replaces the strategy's:
    the attempt throws the provider error and the call fails with it.
    When the service hook answers [false] the error does stay inside
    the attempt. *)
Theorem executeApiCall_drops_strategy_veto :
  (Demo.run Demo.vetoingService "bearerAuthEndpoint" (Some 0%nat)).1 =
    inl (AxiosError (Some (Demo.status 500)))
  ∧ ev_type <$> emitted
      (Demo.run Demo.vetoingService "bearerAuthEndpoint" (Some 0%nat)).2 =
    [BEFORE; ERROR; AFTER]
  ∧ (Demo.run Demo.vetoingServiceAndHook "bearerAuthEndpoint" (Some 0%nat)).1 = inr None
  ∧ ev_type <$> emitted
      (Demo.run Demo.vetoingServiceAndHook "bearerAuthEndpoint" (Some 0%nat)).2 =
    [BEFORE; SUCCESS; AFTER].
Proof. vm_compute. done. Qed.

(** ** URL resolver *)

(** A placeholder that [pathParams] does not cover makes resolution
    fail, unless it has the name of an inherited member. *)
Lemma constructUrl_missing baseUrl url pathParams name :
  name ∈ extractPathParamNames (resolveBaseUrl baseUrl url) →
  name ∉ Object_prototype →
  (∀ entries, pathParams = Some entries → name ∉ entries.*1) →
  ∃ missing,
    constructUrl baseUrl url pathParams = inl (MissingPathParameter url missing) ∧
    name ∈ missing.
Proof.
  intros Hname Hown Hout. unfold constructUrl, validatePathParams.
  destruct (extractPathParamNames _) as [|n names] eqn:E; [by apply elem_of_nil in Hname|].
  destruct pathParams as [entries|]; [|by eexists].
  set (missing := List.filter _ _).
  assert (name ∈ missing) as Hin.
  { apply list_elem_of_In, filter_In. split; [by apply list_elem_of_In|].
    unfold hasKey. rewrite !bool_decide_eq_false_2; [done..|]. by apply Hout. }
  destruct missing; [by apply elem_of_nil in Hin|]. by eexists.
Qed.

(** A template with a scheme separator is taken as it is; any other is
    appended to the base URL. *)
Lemma resolveBaseUrl_cases baseUrl url :
  resolveBaseUrl baseUrl url = (if Str.includes "://" url then url else baseUrl ++ url)%string.
Proof. reflexivity. Qed.

(** C7.  The example of the specification resolves as stated.  But in
    [/files/:id.json] the text [:id] follows a path separator and is a
    placeholder for the engine (leaving [id] out is a missing path
    parameter), and with [id] given it is not replaced: the pattern of
    [replacePathParams] wants the placeholder followed by a separator or
    by the end of the URL. *)
Theorem constructUrl_placeholder_not_replaced :
  constructUrl "http://testapi.com" "/users/:userId/details" (Some [("userId", "123")]) =
    inr "http://testapi.com/users/123/details"
  ∧ constructUrl "http://testapi.com" "/users/:userId/details" (Some []) =
    inl (MissingPathParameter "/users/:userId/details" ["userId"])
  ∧ extractPathParamNames "http://testapi.com/files/:id.json" = ["id"]
  ∧ constructUrl "http://testapi.com" "/files/:id.json" (Some []) =
    inl (MissingPathParameter "/files/:id.json" ["id"])
  ∧ constructUrl "http://testapi.com" "/files/:id.json" (Some [("id", "7")]) =
    inr "http://testapi.com/files/:id.json".
Proof. vm_compute. done. Qed.

(** ** The refresh of an expired token *)

#[global] Instance quiet_preorder : PreOrder quiet.
Proof.
  split; [by intros s|].
  intros s1 s2 s3 (?&?&?&?) (?&?&?&?). unfold quiet. repeat split; congruence.
Qed.

Lemma distinct_locations h l pl c p :
  callAt h l = Some c → paramsAt h (Some pl) = Some p → l ≠ pl.
Proof.
  unfold callAt, paramsAt. intros Hc Hp ->.
  by destruct (h !! pl) as [[]|].
Qed.

Lemma callAt_insert_params h l pl p :
  l ≠ pl → callAt (<[pl := ObjParams p]> h) l = callAt h l.
Proof. intros Hl. unfold callAt. by rewrite list_lookup_insert_ne. Qed.

Lemma paramsAt_insert_eq h pl p q :
  paramsAt h (Some pl) = Some q →
  paramsAt (<[pl := ObjParams p]> h) (Some pl) = Some p.
Proof.
  unfold paramsAt. intros Hq.
  destruct (h !! pl) eqn:E; [|done].
  by rewrite list_lookup_insert_eq by by eapply lookup_lt_Some.
Qed.

Lemma paramsAt_insert_call h l pl c' :
  l ≠ pl → paramsAt (<[l := ObjCall c']> h) (Some pl) = paramsAt h (Some pl).
Proof. intros Hl. unfold paramsAt. by rewrite list_lookup_insert_ne. Qed.

Lemma paramsAt_lt h pl p : paramsAt h (Some pl) = Some p → (pl < length h)%nat.
Proof.
  unfold paramsAt. destruct (h !! pl) eqn:E; [|done]. intros _.
  by eapply lookup_lt_Some.
Qed.

Section Refresh.

Variable svc : Service.

(** The refresh path of [RefreshableBearerTokenAuthStrategy.onApiError]
    step by step: it never returns; it throws the retry signal exactly
    when the refresh yields tokens and the rebuilt call passes
    [buildApiCall]. *)
Lemma refreshableOnApiError_eq strategy rp build pl p0 l c error s :
  callAt (heap s) l = Some c →
  isAccessTokenExpiredError rp c error = true →
  buildRefreshAccessTokenPayload rp = Some build →
  paramsAt (heap s) (Some pl) = Some p0 →
  let p1 := withPayload (build p0) p0 in
  let sA := addRefresh p1 (setHeap (<[pl := ObjParams p1]> (heap s)) s) in
  refreshableOnApiError svc strategy rp (Some pl) l error s =
    match refreshAccessToken rp p1 with
    | inl e => (inl e, sA)
    | inr newTokens =>
      let token := accessToken newTokens in
      let c' := withRequestAuth (withAccessToken token (req_auth (request c))) c in
      let sB := setHeap (<[l := ObjCall c']> (heap sA)) sA in
      let retry := Some (retryParams token (p_payload p0) p1) in
      match callUrl svc (endpoint c) retry None with
      | inl e => (inl e, sB)
      | inr url =>
        match authorize strategy (callWithDefaults svc (endpoint c) retry url) with
        | Some built =>
          (inl (RetryAPICall (Some pl) (length (heap sB))),
           setHeap (heap sB ++ [ObjCall built]) sB)
        | None =>
          (inl (InvalidAuthParams (length (heap sB))),
           setHeap (heap sB ++ [ObjCall (callWithDefaults svc (endpoint c) retry url)]) sB)
        end
      end
    end.
Proof.
  intros Hc Hexp Hbuild Hp p1 sA.
  pose proof (distinct_locations _ _ _ _ _ Hc Hp) as Hne.
  unfold refreshableOnApiError. unfold bind at 1.
  rewrite (readCall_Some _ _ _ Hc), Hexp, Hbuild.
  unfold bind at 1, readParams, gets. rewrite Hp.
  unfold bind at 1, writeParams, modify. unfold bind at 1.
  unfold bind at 1. fold p1. fold sA.
  destruct (refreshAccessToken rp p1) as [e|newTokens]; [done|]. simpl lift. unfold ret at 1.
  assert (callAt (heap sA) l = Some c) as HcA.
  { subst sA. simpl. by rewrite callAt_insert_params. }
  unfold bind at 1. unfold setRequestAccessToken.
  rewrite (updateCall_Some _ _ _ _ HcA).
  set (c' := withRequestAuth _ c).
  set (sB := setHeap (<[l := ObjCall c']> (heap sA)) sA).
  assert (callAt (heap sB) l = Some c') as HcB.
  { subst sB. simpl. apply callAt_insert. by eapply callAt_lt. }
  unfold bind at 1. rewrite (readCall_Some _ _ _ HcB).
  unfold bind at 1. rewrite buildApiCall_eq.
  change (endpoint c') with (endpoint c).
  destruct (callUrl svc (endpoint c) _ None) as [e|url]; [done|].
  by destruct (authorize strategy _).
Qed.

End Refresh.

(** ** One attempt, step by step *)

Section Attempt.

Variable svc : Service.

Lemma enforceGlobalRateLimit_quiet apiCall :
  steps quiet (enforceGlobalRateLimit svc apiCall).
Proof. by apply steps_enforceGlobalRateLimit; [typeclasses eauto | ..]. Qed.

(** [doCall] on a call that is on the heap. *)
Lemma doCall_eq p l s c :
  callAt (heap s) l = Some c →
  doCall svc p l s =
    let result := httpRequest svc (length (dispatched s)) (requestConfig c) in
    (result, addDispatch {| d_apiCall := l; d_call := c; d_result := result |} s).
Proof. intros Hc. unfold doCall, bind. by rewrite (readCall_Some _ _ _ Hc). Qed.

Lemma onDoCallError_sameDispatches p l a e :
  steps sameDispatches (onDoCallError svc p l a e).
Proof.
  apply steps_onDoCallError; first [typeclasses eauto | done].
Qed.

Lemma setResponse_sameDispatches l r : steps sameDispatches (setResponse l r).
Proof. by apply steps_setResponse; [typeclasses eauto|]. Qed.

(** An attempt either dispatches nothing, or dispatches the call as it
    is on the heap; then a response is recorded on the call, and a
    failure goes through the [catch] block. *)
Lemma executeApiCall_inv p l a s r s' :
  executeApiCall svc p l a s = (r, s') →
  dispatched s' = dispatched s
  ∨ ∃ c sE,
      callAt (heap s) l = Some c ∧ quiet s sE ∧
      let result := httpRequest svc (length (dispatched s)) (requestConfig c) in
      let d := {| d_apiCall := l; d_call := c; d_result := result |} in
      let sD := addDispatch d sE in
      dispatched s' = dispatched s ++ [d] ∧
      match result with
      | inr resp =>
        r = inr l ∧
        s' = setHeap (<[l := ObjCall (withResponse (Some resp) c)]> (heap sD)) sD
      | inl e =>
        match onDoCallError svc p l a e sD with
        | (inl x, sH) => r = inl x ∧ s' = sH
        | (inr resp, sH) => (r, s') = (setResponse l resp >> ret l) sH
        end
      end.
Proof.
  unfold executeApiCall. unfold bind at 1.
  pose proof (enforceGlobalRateLimit_quiet l s) as Hq.
  destruct (enforceGlobalRateLimit svc l s) as [[e|limited] sE]; simpl in Hq.
  { intros [= <- <-]. left. apply Hq. }
  destruct Hq as (Hheap & Hdisp & Hrefr & Hemit).
  destruct limited.
  { intros [= <- <-]. by left. }
  destruct (dryRun svc); simpl negb; cbv iota.
  { intros E. left. rewrite <- Hdisp.
    change (dispatched s') with (dispatched (r, s').2). rewrite <- E.
    apply (steps_bind sameDispatches).
    - apply steps_bind; [typeclasses eauto | by apply steps_log |].
      intros ?. apply steps_ret; typeclasses eauto.
    - intros ?. apply steps_bind; [typeclasses eauto | |].
      + apply setResponse_sameDispatches.
      + intros ?. apply steps_ret; typeclasses eauto. }
  destruct (callAt (heap s) l) as [c|] eqn:Hc.
  - intros E. right. exists c, sE. split; [done|]. split; [done|]. cbv zeta.
    assert (callAt (heap sE) l = Some c) as HcE by by rewrite Hheap.
    revert E. unfold bind at 1, tryCatch at 1, bind at 1.
    rewrite (doCall_eq _ _ _ _ HcE). cbv zeta. rewrite Hdisp.
    set (result := httpRequest svc _ _).
    set (d := {| d_apiCall := l; d_call := c; d_result := result |}).
    destruct result as [e|resp] eqn:Hres.
    + pose proof (onDoCallError_sameDispatches p l a e (addDispatch d sE)) as HsH.
      destruct (onDoCallError svc p l a e (addDispatch d sE)) as [[x|resp] sH];
        simpl in HsH.
      * intros [= <- <-]. rewrite HsH. simpl. by rewrite Hdisp.
      * intros E. split; [|done].
        pose proof (steps_bind sameDispatches (setResponse l resp) (λ _, ret l)
                      (setResponse_sameDispatches l resp)
                      (λ _, steps_ret sameDispatches l) sH) as Hs.
        rewrite E in Hs. simpl in Hs. rewrite Hs, HsH. simpl. by rewrite Hdisp.
    + unfold ret at 1. unfold bind at 1. unfold setResponse.
      assert (callAt (heap (addDispatch d sE)) l = Some c) as HcD by done.
      rewrite (updateCall_Some _ _ _ _ HcD). intros [= <- <-].
      split; [|done]. simpl. by rewrite Hdisp.
  - intros E. left. rewrite <- Hdisp.
    assert (readCall l sE = (inl (TypeError "not an APICall"), sE)) as Hread.
    { unfold readCall. unfold callAt in Hc. rewrite Hheap.
      by destruct (heap s !! l) as [[]|]. }
    revert E. unfold bind at 1, tryCatch at 1, bind at 1, doCall, bind at 1.
    rewrite Hread.
    pose proof (onDoCallError_sameDispatches p l a (TypeError "not an APICall") sE) as HsH.
    destruct (onDoCallError svc p l a _ sE) as [[x|resp] sH]; simpl in HsH.
    + intros [= <- <-]. done.
    + intros E.
      pose proof (steps_bind sameDispatches (setResponse l resp) (λ _, ret l)
                    (setResponse_sameDispatches l resp)
                    (λ _, steps_ret sameDispatches l) sH) as Hs.
      rewrite E in Hs. simpl in Hs. by rewrite Hs.
Qed.

End Attempt.

Section RefreshOutcome.

Variable svc : Service.

Lemma serviceOnApiError_inv p a l e s r s' :
  (∀ q x c y, raisesNoRetry (onApiError svc q x c y)) →
  serviceOnApiError svc p a l e s = (r, s') →
  s' = s ∧ raisesNoRetry r.
Proof.
  intros Hsane. unfold serviceOnApiError, bind, readParams, gets, readCall.
  destruct (heap s !! l) as [[q|c]|]; try (intros [= <- <-]; done).
  specialize (Hsane (paramsAt (heap s) p) a c e).
  destruct (onApiError svc _ a c e); intros [= <- <-]; done.
Qed.

(** On an expired token the strategy always throws, and the retry
    signal only after a successful refresh and rebuild. *)
Lemma refreshableOnApiError_outcome strategy rp p l c error s r s' :
  callAt (heap s) l = Some c →
  isAccessTokenExpiredError rp c error = true →
  (∀ q, raisesNoRetry (refreshAccessToken rp q)) →
  refreshableOnApiError svc strategy rp p l error s = (r, s') →
  ∃ x, r = inl x ∧
    (isRetryAPICall x = false ∧ dispatched s' = dispatched s
     ∨ ∃ build pl p0 newTokens url built,
         buildRefreshAccessTokenPayload rp = Some build ∧
         p = Some pl ∧
         paramsAt (heap s) p = Some p0 ∧
         let p1 := withPayload (build p0) p0 in
         let token := accessToken newTokens in
         let c' := withRequestAuth (withAccessToken token (req_auth (request c))) c in
         let retry := Some (retryParams token (p_payload p0) p1) in
         refreshAccessToken rp p1 = inr newTokens ∧
         callUrl svc (endpoint c) retry None = inr url ∧
         authorize strategy (callWithDefaults svc (endpoint c) retry url) = Some built ∧
         x = RetryAPICall (Some pl) (length (heap s)) ∧
         s' = afterRefresh s pl p1 l c' built).
Proof.
  intros Hc Hexp Hsane.
  destruct (buildRefreshAccessTokenPayload rp) as [build|] eqn:Hbuild; cycle 1.
  { unfold refreshableOnApiError, bind.
    rewrite (readCall_Some _ _ _ Hc), Hexp, Hbuild. intros [= <- <-].
    eexists. split; [done|]. by left. }
  destruct (paramsAt (heap s) p) as [p0|] eqn:Hp; cycle 1.
  { unfold refreshableOnApiError. unfold bind at 1.
    rewrite (readCall_Some _ _ _ Hc), Hexp, Hbuild.
    unfold bind, readParams, gets. rewrite Hp.
    destruct p; intros [= <- <-]; (eexists; split; [done|]; by left). }
  destruct p as [pl|]; [|done].
  rewrite (refreshableOnApiError_eq svc strategy rp build pl p0 l c error s Hc Hexp Hbuild Hp).
  cbv zeta.
  specialize (Hsane (withPayload (build p0) p0)).
  destruct (refreshAccessToken rp _) as [e|newTokens] eqn:Hrefresh.
  { intros [= <- <-]. eexists. split; [done|]. by left. }
  destruct (callUrl svc (endpoint c) _ None) as [e|url] eqn:Hurl.
  { intros [= <- <-]. eexists. split; [done|]. left.
    by apply callUrl_error in Hurl as (? & ? & ->). }
  destruct (authorize strategy _) as [built|] eqn:Hauth.
  - intros [= <- <-]. eexists. split; [done|]. right.
    exists build, pl, p0, newTokens, url, built. cbv zeta.
    repeat (split; [done|]). simpl. rewrite !length_insert. done.
  - intros [= <- <-]. eexists. split; [done|]. by left.
Qed.

(** The [catch] block when a refreshable strategy meets an expired
    token: it throws, and the retry signal only out of the strategy's
    own refresh. *)
Lemma onDoCallError_refresh ap rp p l c error s r s' :
  callAt (heap s) l = Some c →
  isApiError svc error = true →
  isAccessTokenExpiredError rp c error = true →
  (∀ q, raisesNoRetry (refreshAccessToken rp q)) →
  (∀ q x c y, raisesNoRetry (onApiError svc q x c y)) →
  onDoCallError svc p l (Some (RefreshableBearerTokenAuthStrategy ap rp)) error s = (r, s') →
  ∃ x, r = inl x ∧
    (isRetryAPICall x = false ∧ dispatched s' = dispatched s
     ∨ ∃ build pl p0 newTokens url built,
         buildRefreshAccessTokenPayload rp = Some build ∧
         p = Some pl ∧
         paramsAt (heap s) p = Some p0 ∧
         let p1 := withPayload (build p0) p0 in
         let token := accessToken newTokens in
         let c' := withRequestAuth (withAccessToken token (req_auth (request c))) c in
         let retry := Some (retryParams token (p_payload p0) p1) in
         refreshAccessToken rp p1 = inr newTokens ∧
         callUrl svc (endpoint c) retry None = inr url ∧
         authorize (RefreshableBearerTokenAuthStrategy ap rp)
           (callWithDefaults svc (endpoint c) retry url) = Some built ∧
         x = RetryAPICall (Some pl) (length (heap s)) ∧
         s' = afterRefresh s pl p1 l c' built).
Proof.
  intros Hc Hapi Hexp Hsane1 Hsane2.
  unfold onDoCallError. rewrite Hapi. unfold bind at 1, tryCatch at 1, bind at 1.
  unfold strategyOnApiError.
  destruct (refreshableOnApiError svc _ rp p l error s) as [r1 s1] eqn:E1.
  destruct (refreshableOnApiError_outcome _ _ _ _ _ _ _ _ _ Hc Hexp Hsane1 E1)
    as (x & -> & Hx).
  destruct Hx as [[Hx Hd]|Hx].
  - rewrite Hx. simpl negb. cbv iota. unfold bind at 1. unfold bind at 1.
    destruct (serviceOnApiError svc p _ l error s1) as [r2 s2] eqn:E2.
    apply serviceOnApiError_inv in E2 as [-> Hr2]; [|done].
    destruct r2 as [y|b]; intros [= <- <-]; (eexists; split; [done|]; by left).
  - destruct Hx as (build & pl & p0 & newTokens & url & built & H).
    cbv zeta in H. destruct H as (Hb & -> & Hp & Hrefresh & Hurl & Hauth & -> & ->).
    simpl. intros [= <- <-]. eexists. split; [done|]. right.
    by exists build, pl, p0, newTokens, url, built.
Qed.

End RefreshOutcome.

(** ** After a successful attempt *)

Lemma addLogs_quiet ws s : quiet s (addLogs ws s).
Proof.
  revert s. induction ws as [|w ws IH]; intros s; [done|].
  simpl. etrans; [|apply IH]. done.
Qed.

Lemma paramsAt_insert_over_call h l q c c' :
  callAt h l = Some c →
  paramsAt (<[l := ObjCall c']> h) q = paramsAt h q.
Proof.
  intros Hc. destruct q as [pl|]; [|done]. simpl.
  destruct (decide (l = pl)) as [->|Hne].
  - unfold callAt in Hc. destruct (h !! pl) as [[]|] eqn:E; try done.
    by rewrite list_lookup_insert_eq by by eapply lookup_lt_Some.
  - by rewrite list_lookup_insert_ne.
Qed.

Section Complete.

Variable svc : Service.

Lemma onApiSuccessResponse_inv l c s :
  callAt (heap s) l = Some c →
  ∃ s', onApiSuccessResponse svc l s = (inr tt, s') ∧ quiet s s'.
Proof.
  intros Hc. unfold onApiSuccessResponse, bind. rewrite (readCall_Some _ _ _ Hc).
  destruct (dryRun svc && negb (verbose svc)); [by eexists|].
  destruct (verbose svc); by eexists.
Qed.

(** The table form of normalization, as a value. *)
Lemma normalizeWithObjectMapping_eq mapping payload s :
  ∃ warnings,
    normalizeWithObjectMapping getByDotPath mapping payload s =
      (inr (omap (getByDotPath payload) (delete "__proto__" mapping)), addLogs warnings s).
Proof.
  destruct (normalizeEntries_spec getByDotPath (map_to_list mapping) payload ∅ s)
    as (n & ws & E & Hn & _); [apply NoDup_fst_map_to_list|].
  exists ws. unfold normalizeWithObjectMapping. rewrite E. f_equal. f_equal.
  apply map_eq. intros key.
  rewrite Hn, list_to_map_to_list, lookup_empty, lookup_omap.
  destruct (decide (key = "__proto__")) as [->|Hkey].
  - rewrite lookup_delete_eq. simpl.
    destruct (mapping !! "__proto__") as [path|]; [|done].
    by destruct (getByDotPath payload path).
  - rewrite lookup_delete_ne by done.
    destruct (mapping !! key) as [path|]; simpl; [|done].
    by destruct (getByDotPath payload path).
Qed.

(** [normalizeResponse] on a call that has a response. *)
Lemma normalizeResponse_inv params l c resp s :
  callAt (heap s) l = Some c →
  response c = Some resp →
  let outcome :=
    normalized (ep_normalizationMapping (endpoint c)) (paramsAt (heap s) params)
      (res_data resp) in
  ∃ s',
    normalizeResponse params l s =
      (match outcome with inl message => inl (OtherError message) | inr _ => inr l end,
       s') ∧
    dispatched s' = dispatched s ∧ refreshed s' = refreshed s ∧
    emitted s' = emitted s ∧
    (∀ q, paramsAt (heap s') q = paramsAt (heap s) q) ∧
    match outcome with
    | inl _ => True
    | inr data =>
      callAt (heap s') l =
        Some (withResponse (Some {| res_status := res_status resp; res_data := data |}) c)
    end.
Proof.
  intros Hc Hresp. cbv zeta. unfold normalizeResponse, normalized. unfold bind at 1.
  rewrite (readCall_Some _ _ _ Hc).
  destruct (ep_normalizationMapping (endpoint c)) as [[mapping|f]|].
  - rewrite Hresp. unfold bind at 1. unfold bind at 1.
    destruct (normalizeWithObjectMapping_eq mapping (res_data resp) s) as [ws ->].
    unfold ret at 1. unfold bind at 1.
    destruct (addLogs_quiet ws s) as (Hh & Hd & Hr & He).
    assert (callAt (heap (addLogs ws s)) l = Some c) as HcL by by rewrite Hh.
    unfold setResponseData, bind. rewrite (readCall_Some _ _ _ HcL), Hresp.
    unfold setResponse. rewrite (updateCall_Some _ _ _ _ HcL).
    eexists. split; [done|]. simpl. rewrite Hh, Hd, Hr, He.
    repeat split; try done.
    + intros q. by eapply paramsAt_insert_over_call.
    + apply callAt_insert. by eapply callAt_lt.
  - rewrite Hresp. unfold bind at 1. unfold bind at 1, readParams, gets.
    destruct (f (paramsAt (heap s) params) (res_data resp)) as [message|value].
    + by eexists.
    + unfold ret at 1. unfold bind at 1.
      unfold setResponseData, bind. rewrite (readCall_Some _ _ _ Hc), Hresp.
      unfold setResponse. rewrite (updateCall_Some _ _ _ _ Hc).
      eexists. split; [done|]. simpl. repeat split; try done.
      * intros q. by eapply paramsAt_insert_over_call.
      * apply callAt_insert. by eapply callAt_lt.
  - exists s. repeat split; try done. rewrite Hc. f_equal.
    destruct c as [ep rq rs]. simpl in *. subst rs. by destruct resp.
Qed.

(** The tail of [call] on a call that carries the response [resp]: it
    returns that response with its data normalized, after emitting
    [success] and [after] to listeners that see the params object as it
    is then; or it fails with the error of the normalization function,
    and emits nothing. *)
Lemma completeCall_inv name params l c resp s :
  callAt (heap s) l = Some c →
  response c = Some resp →
  let p := paramsAt (heap s) params in
  let outcome := normalized (ep_normalizationMapping (endpoint c)) p (res_data resp) in
  ∃ s',
    completeCall svc name params l s =
      (match outcome with
       | inl message => inl (OtherError message)
       | inr data => inr (Some {| res_status := res_status resp; res_data := data |})
       end, s') ∧
    dispatched s' = dispatched s ∧ refreshed s' = refreshed s ∧
    paramsAt (heap s') params = p ∧
    match outcome with
    | inl message => emitted s' = emitted s
    | inr data =>
      ∃ success after,
        emitted s' = emitted s ++ [success; after] ∧
        ev_type success = SUCCESS ∧ ev_type after = AFTER ∧
        ev_apiCall success = l ∧ ev_apiCall after = l ∧
        ev_params success = params ∧ ev_params after = params ∧
        ev_paramsSeen success = p ∧ ev_paramsSeen after = p
    end.
Proof.
  intros Hc Hresp. cbv zeta. unfold completeCall. unfold bind at 1.
  destruct (onApiSuccessResponse_inv l c s Hc) as (sL & -> & Hh & Hd & Hr & He).
  assert (callAt (heap sL) l = Some c) as HcL by by rewrite Hh.
  destruct (normalizeResponse_inv params l c resp sL HcL Hresp)
    as (sN & EN & HdN & HrN & HeN & HpN & HcN).
  cbv zeta in EN, HcN. rewrite Hh in EN, HcN.
  unfold bind at 1. rewrite EN.
  destruct (normalized _ _ _) as [message|data].
  - eexists. split; [done|]. simpl. rewrite HdN, HrN, HeN, HpN, Hd, Hr, He, Hh. done.
  - unfold bind at 1, emit at 1, modify at 1.
    unfold bind at 1, emit at 1, modify at 1.
    unfold bind. erewrite readCall_Some by exact HcN.
    eexists. split; [done|]. simpl. rewrite HdN, HrN, HeN, !HpN, Hd, Hr, He, Hh.
    repeat split; try done.
    eexists _, _. rewrite <- app_assoc. simpl. split; [done|]. done.
Qed.

End Complete.

(** ** A whole call across a refresh *)

Lemma paramsAt_app_call h c q : paramsAt (h ++ [ObjCall c]) q = paramsAt h q.
Proof.
  destruct q as [pl|]; [|done]. simpl.
  destruct (decide (pl < length h)%nat) as [Hlt|Hge].
  - by rewrite lookup_app_l.
  - rewrite lookup_app_r by lia. rewrite (lookup_ge_None_2 h) by lia.
    by destruct (pl - length h)%nat.
Qed.

(** [execute] only adds a header. *)
Lemma authorize_request a c c' :
  authorize a c = Some c' →
  endpoint c' = endpoint c ∧ response c' = response c ∧
  req_auth (request c') = req_auth (request c) ∧
  req_payload (request c') = req_payload (request c).
Proof.
  unfold authorize. destruct a; [by intros [= <-] | ..];
    (destruct (truthyAccessToken _); [|done]; by intros [= <-]).
Qed.

Lemma lookup_past_end {A} (l : list A) i x : (length l ≤ i)%nat → l !! i = Some x → False.
Proof. intros Hle Hl. apply lookup_lt_Some in Hl. lia. Qed.

Section Run.

Variable svc : Service.

Lemma emit_eq name t p l s :
  emit svc name t p l s =
    (inr tt,
     addEvent {| ev_name := serviceName svc ++ "." ++ name ++ "." ++ eventTypeString t;
                 ev_type := t; ev_params := p; ev_apiCall := l;
                 ev_paramsSeen := paramsAt (heap s) p;
                 ev_apiCallSeen := callAt (heap s) l |} s).
Proof. reflexivity. Qed.

Lemma completeCall_sameDispatches name p l :
  steps sameDispatches (completeCall svc name p l).
Proof.
  apply steps_completeCall; first [typeclasses eauto | done].
Qed.

Lemma onDoCallError_notApi p l a e s :
  isApiError svc e = false → onDoCallError svc p l a e s = (inl e, s).
Proof. intros Hapi. unfold onDoCallError. by rewrite Hapi. Qed.

Lemma call_across_refresh name params eventContext overwriteUrl s0 res s_fin
    ep ap rp d1 e d2 r :
  _endpoints svc !! name = Some ep →
  buildAuthStrategy svc ep = inr (RefreshableBearerTokenAuthStrategy ap rp) →
  (∀ q, raisesNoRetry (refreshAccessToken rp q)) →
  (∀ q x c y, raisesNoRetry (onApiError svc q x c y)) →
  call svc name params eventContext overwriteUrl s0 = (res, s_fin) →
  dispatched s_fin !! length (dispatched s0) = Some d1 →
  d_result d1 = inl e →
  isRetryAPICall e = false →
  isAccessTokenExpiredError rp (d_call d1) e = true →
  dispatched s_fin !! S (length (dispatched s0)) = Some d2 →
  d_result d2 = inr r →
  ∃ build pl p0 newTokens,
    buildRefreshAccessTokenPayload rp = Some build ∧
    params = Some pl ∧
    paramsAt (heap s0) params = Some p0 ∧
    let p1 := withPayload (build p0) p0 in
    isApiError svc e = true ∧
    refreshAccessToken rp p1 = inr newTokens ∧
    refreshed s_fin = refreshed s0 ++ [p1] ∧
    dispatched s_fin = dispatched s0 ++ [d1; d2] ∧
    d_apiCall d1 = length (heap s0) ∧
    d_apiCall d2 = S (length (heap s0)) ∧
    req_payload (request (d_call d1)) = p_payload p0 ∧
    endpoint (d_call d2) = ep ∧
    req_auth (request (d_call d2)) =
      withAccessToken (accessToken newTokens) (p_auth p0) ∧
    req_payload (request (d_call d2)) = p_payload p0 ∧
    paramsAt (heap s_fin) params = Some p1 ∧
    ∃ before,
      ev_type before = BEFORE ∧ ev_paramsSeen before = Some p0 ∧
      match normalized (ep_normalizationMapping ep) (Some p1) (res_data r) with
      | inl message =>
        res = inl (OtherError message) ∧ emitted s_fin = emitted s0 ++ [before]
      | inr data =>
        res = inr (Some {| res_status := res_status r; res_data := data |}) ∧
        ∃ success after,
          emitted s_fin = emitted s0 ++ [before; success; after] ∧
          ev_type success = SUCCESS ∧ ev_type after = AFTER ∧
          ev_apiCall success = d_apiCall d2 ∧ ev_apiCall after = d_apiCall d2 ∧
          ev_params success = params ∧ ev_params after = params ∧
          ev_paramsSeen success = Some p1 ∧ ev_paramsSeen after = Some p1
      end.
Proof.
  intros Hep Hstrategy Hsane1 Hsane2 Hcall Hd1 He Hnoretry Hexp Hd2 Hr.
  revert Hcall. unfold call. unfold bind at 1.
  rewrite prepareCall_eq, Hep, Hstrategy. cbv zeta.
  set (p := paramsAt (heap s0) params).
  destruct (callUrl svc ep p overwriteUrl) as [x|url] eqn:Hurl.
  { intros [= <- <-]. by eapply lookup_past_end in Hd1. }
  destruct (authorize _ _) as [c0|] eqn:Hauth0;
    [|intros [= <- <-]; by eapply lookup_past_end in Hd1].
  destruct (validMethod c0);
    [|intros [= <- <-]; by eapply lookup_past_end in Hd1].
  cbv beta iota.
  set (s1 := setHeap (heap s0 ++ [ObjCall c0]) s0).
  set (l0 := length (heap s0)).
  unfold bind at 1. rewrite emit_eq. cbv beta iota.
  set (before := Build_Event _ _ _ _ _ _).
  set (sB := addEvent before s1).
  unfold bind at 1, tryCatch at 1, bind at 1.
  destruct (executeApiCall svc params l0 _ sB) as [r1 s3] eqn:E1.
  intros Hcall.
  assert (∃ ds, dispatched s_fin = dispatched s3 ++ ds ∧ (length ds ≤ 1)%nat ∧
                match r1 with inl (RetryAPICall _ _) => True | _ => ds = [] end)
    as (ds & Hds & Hlen & Hkind).
  { destruct r1 as [x|l].
    - destruct x;
        try (cbv [bind emit modify throw] in Hcall; injection Hcall as <- <-;
             exists []; rewrite app_nil_r; simpl; split; [done | split; [lia | done]]).
      unfold tryCatch, bind in Hcall.
      destruct (executeApiCall_dispatches svc params apiCall
                  (Some (RefreshableBearerTokenAuthStrategy ap rp)) s3)
        as (ds & Hds & Hlen).
      exists ds. split; [|done]. rewrite <- Hds.
      destruct (executeApiCall svc params apiCall _ s3) as [[x2|l2] s4]; simpl.
      + destruct (isRetryAPICall x2); [by injection Hcall as <- <-|].
        pose proof (completeCall_sameDispatches name params apiCall s4) as Hs.
        cbv beta iota delta [ret] in Hcall. by rewrite Hcall in Hs.
      + pose proof (completeCall_sameDispatches name params apiCall s4) as Hs.
        cbv beta iota delta [ret] in Hcall. by rewrite Hcall in Hs.
    - pose proof (completeCall_sameDispatches name params l0 s3) as Hs.
      cbv beta iota delta [ret] in Hcall. rewrite Hcall in Hs.
      exists []. rewrite app_nil_r. split; [done | split; [simpl; lia | done]]. }
  assert (callAt (heap sB) l0 = Some c0) as Hc0 by apply callAt_app_new.
  assert (dispatched sB = dispatched s0) as HdB by done.
  apply executeApiCall_inv in E1 as [Hno|(c & sE & Hc & Hq & H)].
  { exfalso. eapply lookup_past_end; [|exact Hd2].
    rewrite Hds, Hno, HdB, length_app. lia. }
  rewrite Hc0 in Hc. injection Hc as <-.
  cbv zeta in H. destruct H as [Hd3 H]. rewrite HdB in Hd3, H.
  set (d := Build_Dispatch _ _ _) in Hd3.
  assert (d1 = d) as ->.
  { rewrite Hds, Hd3, <- app_assoc in Hd1. rewrite lookup_app_r in Hd1 by lia.
    rewrite Nat.sub_diag in Hd1. by injection Hd1. }
  simpl in He, Hexp. rewrite He in H.
  assert (∀ x, isRetryAPICall x = false → r1 = inl x → False) as Hstop.
  { intros x Hx ->. assert (ds = []) as -> by (by destruct x).
    eapply lookup_past_end; [|exact Hd2].
    rewrite Hds, Hd3, app_nil_r, length_app. simpl. lia. }
  destruct Hq as (HhE & HdE & HrE & HeE).
  set (sD := addDispatch _ sE) in H.
  assert (callAt (heap sD) l0 = Some c0) as HcD by (simpl; by rewrite HhE).
  destruct (isApiError svc e) eqn:Hapi; cycle 1.
  { rewrite onDoCallError_notApi in H by done. destruct H as [-> _].
    by destruct (Hstop e). }
  destruct (onDoCallError svc params l0 _ e sD) as [r' sH] eqn:EH.
  apply onDoCallError_refresh with (c := c0) in EH as (x & -> & Hx); [|done..].
  destruct H as [-> ->].
  destruct Hx as [[Hx _]|Hx]; [by destruct (Hstop x)|].
  clear Hstop Hkind.
  destruct Hx as (build & pl & p0 & newTokens & url' & built & Hx). cbv zeta in Hx.
  destruct Hx as (Hbuild & -> & Hp0 & Hrefresh & Hurl' & Hauth' & -> & ->).
  cbv beta iota in Hcall.
  set (p1 := withPayload (build p0) p0) in *.
  set (c0' := withRequestAuth _ c0) in *.
  set (s3 := afterRefresh sD pl p1 l0 c0' built) in *.
  set (l1 := length (heap sD)) in *.
  assert (l1 = S l0) as Hl1.
  { unfold l1. simpl. rewrite HhE. simpl. rewrite length_app. simpl. lia. }
  assert (p = Some p0) as Hp.
  { unfold p. rewrite <- Hp0. simpl heap. rewrite HhE. simpl heap.
    symmetry. apply paramsAt_app_call. }
  assert (l0 ≠ pl) as Hl0pl by by eapply distinct_locations.
  assert (l1 ≠ pl) as Hl1pl by (apply paramsAt_lt in Hp0; unfold l1; lia).
  assert (callAt (heap s3) l1 = Some built) as Hc1.
  { unfold s3, afterRefresh. simpl heap.
    replace l1 with (length (<[l0:=ObjCall c0']> (<[pl:=ObjParams p1]> (heap sD))))
      by (by rewrite !length_insert).
    apply callAt_app_new. }
  unfold tryCatch at 1, bind at 1 in Hcall.
  destruct (executeApiCall svc (Some pl) l1 _ s3) as [r2 s4] eqn:E2.
  assert (dispatched s_fin = dispatched s4 ∧
          (r2 = inr l1 → completeCall svc name (Some pl) l1 s4 = (res, s_fin)))
    as [Hd4 Hfin].
  { pose proof (completeCall_sameDispatches name (Some pl) l1 s4) as Hs.
    destruct r2 as [x2|l2]; cbv beta iota in Hcall.
    - destruct (isRetryAPICall x2); [by injection Hcall as <- <-|].
      cbv beta iota delta [ret] in Hcall. by rewrite Hcall in Hs.
    - cbv beta iota delta [ret] in Hcall. by rewrite Hcall in Hs. }
  apply executeApiCall_inv in E2 as [Hno|(c & sE2 & Hc & Hq & H)].
  { exfalso. eapply lookup_past_end; [|exact Hd2].
    rewrite Hd4, Hno, Hd3, length_app. simpl. lia. }
  rewrite Hc1 in Hc. injection Hc as <-. cbv zeta in H. destruct H as [Hd5 H].
  rewrite Hd3 in Hd5, H.
  set (d' := Build_Dispatch _ _ _) in Hd5.
  assert (d2 = d') as ->.
  { rewrite Hd4, Hd5, <- app_assoc in Hd2. simpl in Hd2.
    rewrite lookup_app_r in Hd2 by lia.
    replace (S (length (dispatched s0)) - length (dispatched s0))%nat with 1%nat in Hd2
      by lia.
    by injection Hd2. }
  simpl in Hr. rewrite Hr in H. destruct H as [-> ->].
  specialize (Hfin eq_refl).
  destruct Hq as (HhE2 & HdE2 & HrE2 & HeE2).
  set (sD2 := addDispatch _ sE2) in *.
  set (c1 := withResponse (Some r) built).
  set (s4 := setHeap _ sD2) in *.
  assert (callAt (heap s4) l1 = Some c1) as Hc4.
  { apply callAt_insert. simpl. rewrite HhE2. by eapply callAt_lt. }
  destruct (authorize_request _ _ _ Hauth0) as (Hep0 & _ & Hauth0' & Hpay0).
  destruct (authorize_request _ _ _ Hauth') as (Hep1 & _ & Hauth1 & Hpay1).
  assert (paramsAt (heap s4) (Some pl) = Some p1) as Hp4.
  { unfold s4. simpl heap. rewrite HhE2. unfold s3, afterRefresh. simpl heap.
    rewrite paramsAt_insert_call by done.
    rewrite paramsAt_app_call, paramsAt_insert_call by done.
    by eapply paramsAt_insert_eq. }
  destruct (completeCall_inv svc name (Some pl) l1 c1 r s4 Hc4 eq_refl)
    as (s' & Heq & HdF & HrF & HpF & HF).
  cbv zeta in Heq, HF. rewrite Hfin, Hp4 in Heq. rewrite Hp4 in HF, HpF.
  change (endpoint c1) with (endpoint built) in Heq, HF.
  assert (endpoint built = ep) as HepB by (rewrite Hep1; simpl; by rewrite Hep0).
  rewrite HepB in Heq, HF.
  injection Heq as -> <-.
  exists build, pl, p0, newTokens. cbv zeta. fold p1.
  do 5 (split; [done|]).
  split.
  { rewrite HrF. simpl. rewrite HrE2. unfold s3, afterRefresh. simpl.
    by rewrite HrE. }
  split; [by rewrite Hd4, Hd5, <- app_assoc|].
  do 2 (split; [done|]).
  split; [simpl; rewrite Hpay0; simpl; by rewrite Hp|].
  split; [done|].
  split; [simpl; by rewrite Hauth1|].
  split; [simpl; by rewrite Hpay1|].
  split; [done|].
  exists before. split; [done|].
  split.
  { change (paramsAt (heap s0 ++ [ObjCall c0]) (Some pl) = Some p0).
    by rewrite paramsAt_app_call. }
  assert (emitted s4 = emitted s0 ++ [before]) as Hem4.
  { simpl. rewrite HeE2. unfold s3, afterRefresh. simpl. by rewrite HeE. }
  destruct (normalized _ _ _) as [message|data].
  - split; [done|]. by rewrite HF.
  - destruct HF as (success & after & Hem & HF). split; [done|].
    exists success, after. split; [|done].
    by rewrite Hem, Hem4, <- app_assoc.
Qed.

End Run.

(** ** The refresh of an expired token, end to end *)

(** C3, as stated, fails.  The first request of the call is answered
    with a 401, which the strategy takes for an expired token; the
    retry is answered with a 200.  The endpoint's normalization function
    throws on the response, and so does the call: it does not return the
    response of the second attempt. *)
Lemma call_retry_success_is_not_always_returned :
  ∃ d1 e d2 r,
    dispatched (Demo.run (Demo.guardedService Demo.expiredThenOk)
                  "refreshableStrictEndpoint" (Some 0%nat)).2 = [d1; d2]
    ∧ d_result d1 = inl e
    ∧ Demo.isExpired (d_call d1) e = true
    ∧ d_result d2 = inr r
    ∧ (Demo.run (Demo.guardedService Demo.expiredThenOk)
         "refreshableStrictEndpoint" (Some 0%nat)).1 =
        inl (OtherError "response data is not an object")
    ∧ (Demo.run (Demo.guardedService Demo.expiredThenOk)
         "refreshableStrictEndpoint" (Some 0%nat)).1 ≠ inr (Some r).
Proof.
  eexists _, _, _, _. split; [vm_compute; reflexivity|].
  split; [reflexivity|]. split; [vm_compute; reflexivity|].
  split; [reflexivity|]. split; [vm_compute; reflexivity|].
  vm_compute. discriminate.
Qed.

(** C3, amended.  A call of an endpoint guarded by the refreshable
    strategy; its first request fails with an error [e] that the strategy
    takes for an expired token, and its second request is answered with
    [r], which the endpoint's normalization turns into [data] without
    throwing.  (The injected refresh function, the service's [onApiError]
    hook and the transport do not forge the retry signal.)  Then
    [refreshAccessToken] ran once, on the params with the refresh
    payload, and gave tokens; the call dispatched exactly these two
    requests; the second is a call allocated during this call, whose
    auth params are the caller's with the new access token and whose
    payload is the caller's original payload; and the call returns the
    response of the second attempt with its data normalized: [r] itself
    when the endpoint has no normalization. *)
Theorem call_refreshes_and_retries_once
    svc name params eventContext overwriteUrl s0 res s_fin
    ep ap rp d1 e d2 r data :
  _endpoints svc !! name = Some ep →
  buildAuthStrategy svc ep = inr (RefreshableBearerTokenAuthStrategy ap rp) →
  (∀ q, raisesNoRetry (refreshAccessToken rp q)) →
  (∀ q x c y, raisesNoRetry (onApiError svc q x c y)) →
  call svc name params eventContext overwriteUrl s0 = (res, s_fin) →
  dispatched s_fin !! length (dispatched s0) = Some d1 →
  d_result d1 = inl e →
  isRetryAPICall e = false →
  isAccessTokenExpiredError rp (d_call d1) e = true →
  dispatched s_fin !! S (length (dispatched s0)) = Some d2 →
  d_result d2 = inr r →
  normalized (ep_normalizationMapping ep) (paramsAt (heap s_fin) params) (res_data r) =
    inr data →
  ∃ build p0 newTokens,
    buildRefreshAccessTokenPayload rp = Some build ∧
    paramsAt (heap s0) params = Some p0 ∧
    refreshed s_fin = refreshed s0 ++ [withPayload (build p0) p0] ∧
    refreshAccessToken rp (withPayload (build p0) p0) = inr newTokens ∧
    dispatched s_fin = dispatched s0 ++ [d1; d2] ∧
    d_apiCall d1 = length (heap s0) ∧
    d_apiCall d2 = S (length (heap s0)) ∧
    req_auth (request (d_call d2)) =
      withAccessToken (accessToken newTokens) (p_auth p0) ∧
    req_payload (request (d_call d2)) = p_payload p0 ∧
    req_payload (request (d_call d1)) = p_payload p0 ∧
    res = inr (Some {| res_status := res_status r; res_data := data |}) ∧
    (ep_normalizationMapping ep = None → res = inr (Some r)).
Proof.
  intros Hep Hstrategy Hsane1 Hsane2 Hcall Hd1 He Hnoretry Hexp Hd2 Hr Hnorm.
  destruct (call_across_refresh svc name params eventContext overwriteUrl s0 res s_fin
              ep ap rp d1 e d2 r Hep Hstrategy Hsane1 Hsane2 Hcall Hd1 He Hnoretry
              Hexp Hd2 Hr)
    as (build & pl & p0 & newTokens & Hbuild & -> & Hp0 & H).
  cbv zeta in H.
  destruct H as (_ & Hrefresh & Hrefreshed & Hdisp & Hl1 & Hl2 & Hpay1 & _ & Hauth
                 & Hpay2 & Hp1 & before & _ & _ & Hout).
  rewrite Hp1 in Hnorm. rewrite Hnorm in Hout. destruct Hout as [-> _].
  exists build, p0, newTokens. repeat (split; [done|]).
  intros Hnone. rewrite Hnone in Hnorm. simpl in Hnorm. injection Hnorm as <-.
  by destruct r.
Qed.

Lemma call_refreshes_and_retries_once_witness :
  (Demo.run (Demo.guardedService Demo.expiredThenOk)
     "refreshableBearerAuthEndpoint" (Some 0%nat)).1 =
    inr (Some {| res_status := Some 200; res_data := Some (JStr "ok") |})
  ∧ length (refreshed (Demo.run (Demo.guardedService Demo.expiredThenOk)
                         "refreshableBearerAuthEndpoint" (Some 0%nat)).2) = 1%nat.
Proof.
  edestruct (λ d1 d2, call_refreshes_and_retries_once
               (Demo.guardedService Demo.expiredThenOk)
               "refreshableBearerAuthEndpoint" (Some 0%nat) None None Demo.start
               (Demo.run (Demo.guardedService Demo.expiredThenOk)
                  "refreshableBearerAuthEndpoint" (Some 0%nat)).1
               (Demo.run (Demo.guardedService Demo.expiredThenOk)
                  "refreshableBearerAuthEndpoint" (Some 0%nat)).2
               Demo.guardedEndpoint noAuthStrategyParams Demo.refreshParams
               d1 (AxiosError (Some (Demo.status 401))) d2
               {| res_status := Some 200; res_data := Some (JStr "ok") |}
               (Some (JStr "ok")))
    as (build & p0 & newTokens & _ & _ & Hrefreshed & _ & _ & _ & _ & _ & _ & _ & Hres & _).
  - vm_compute. reflexivity.
  - vm_compute. reflexivity.
  - intros q. exact I.
  - intros q x c y. exact I.
  - unfold Demo.run. by destruct (call _ _ _ _ _ _).
  - vm_compute. reflexivity.
  - vm_compute. reflexivity.
  - reflexivity.
  - vm_compute. reflexivity.
  - vm_compute. reflexivity.
  - vm_compute. reflexivity.
  - vm_compute. reflexivity.
  - split; [exact Hres|]. rewrite Hrefreshed. reflexivity.
Defined.

(** ** The caller's params after a refresh *)

(** C10.  [RefreshableBearerTokenAuthStrategy.onApiError] on an expired
    token, with the caller's params object [p0] at [pl]: however the
    strategy ends, the object at [pl] then carries the refresh payload
    in place of the caller's payload, and that is what
    [refreshAccessToken] was given.  When the refresh gives tokens and
    the strategy throws the retry signal, the signal names the same
    params object and a call allocated by the strategy, whose payload is
    the caller's original one.  An event emitted from there on with
    these params shows its listeners the refresh payload. *)
Theorem refresh_overwrites_params_payload
    svc strategy rp build pl p0 l c error s r s' :
  callAt (heap s) l = Some c →
  isAccessTokenExpiredError rp c error = true →
  buildRefreshAccessTokenPayload rp = Some build →
  paramsAt (heap s) (Some pl) = Some p0 →
  refreshableOnApiError svc strategy rp (Some pl) l error s = (r, s') →
  let p1 := withPayload (build p0) p0 in
  paramsAt (heap s') (Some pl) = Some p1
  ∧ p_payload p1 = build p0
  ∧ refreshed s' = refreshed s ++ [p1]
  ∧ (∀ newTokens q rebuilt,
       refreshAccessToken rp p1 = inr newTokens →
       r = inl (RetryAPICall q rebuilt) →
       q = Some pl ∧ rebuilt = length (heap s) ∧ rebuilt ≠ l ∧
       ∃ c', callAt (heap s') rebuilt = Some c' ∧
             req_payload (request c') = p_payload p0)
  ∧ (∀ name eventType apiCall,
       ∃ event,
         emitted (emit svc name eventType (Some pl) apiCall s').2 = emitted s' ++ [event]
         ∧ ev_params event = Some pl
         ∧ ev_paramsSeen event = Some p1).
Proof.
  intros Hc Hexp Hbuild Hp0 Hrun p1.
  pose proof (distinct_locations _ _ _ _ _ Hc Hp0) as Hne.
  pose proof (paramsAt_lt _ _ _ Hp0) as Hlt.
  pose proof (callAt_lt _ _ _ Hc) as Hltl.
  rewrite (refreshableOnApiError_eq svc strategy rp build pl p0 l c error s
             Hc Hexp Hbuild Hp0) in Hrun.
  cbv zeta in Hrun. fold p1 in Hrun.
  assert (paramsAt (<[pl:=ObjParams p1]> (heap s)) (Some pl) = Some p1) as HA
    by by eapply paramsAt_insert_eq.
  assert (paramsAt (heap s') (Some pl) = Some p1 ∧ refreshed s' = refreshed s ++ [p1]
          ∧ ∀ newTokens q rebuilt,
              refreshAccessToken rp p1 = inr newTokens →
              r = inl (RetryAPICall q rebuilt) →
              q = Some pl ∧ rebuilt = length (heap s) ∧ rebuilt ≠ l ∧
              ∃ c', callAt (heap s') rebuilt = Some c' ∧
                    req_payload (request c') = p_payload p0)
    as (Hp1 & Hrefreshed & Hretry).
  { destruct (refreshAccessToken rp p1) as [e|newTokens].
    { injection Hrun as <- <-. by repeat split. }
    destruct (callUrl svc (endpoint c) _ None) as [e|url] eqn:Hurl.
    { injection Hrun as <- <-. split; [|split; [done|]].
      - simpl heap. by rewrite paramsAt_insert_call.
      - intros ??? _ [=]. by apply callUrl_error in Hurl as (? & ? & ->). }
    destruct (authorize strategy _) as [built|] eqn:Hauth;
      injection Hrun as <- <-.
    - split; [|split; [done|]].
      + simpl heap. by rewrite paramsAt_app_call, paramsAt_insert_call.
      + intros ??? _ [= <- <-]. simpl heap. rewrite !length_insert.
        split; [done|]. split; [done|]. split; [lia|].
        exists built. split.
        * replace (length (heap s))
            with (length (<[l:=ObjCall (withRequestAuth
                    (withAccessToken (accessToken newTokens) (req_auth (request c))) c)]>
                    (<[pl:=ObjParams p1]> (heap s))))
            by (by rewrite !length_insert).
          apply callAt_app_new.
        * by destruct (authorize_request _ _ _ Hauth) as (_ & _ & _ & ->).
    - split; [|split; [done|done]].
      simpl heap. by rewrite paramsAt_app_call, paramsAt_insert_call. }
  do 4 (split; [done|]).
  intros name eventType apiCall. eexists. split; [reflexivity|]. by split.
Qed.

Lemma refresh_overwrites_params_payload_witness :
  paramsAt
    (heap (refreshableOnApiError (Demo.guardedService Demo.expiredThenOk)
             Demo.refreshable Demo.refreshParams (Some 0%nat) 1%nat
             (AxiosError (Some (Demo.status 401))) Demo.prepared).2)
    (Some 0%nat) =
  Some (withPayload (Some Demo.refreshPayload) Demo.params).
Proof.
  edestruct (λ c, refresh_overwrites_params_payload
               (Demo.guardedService Demo.expiredThenOk)
               Demo.refreshable Demo.refreshParams (λ _, Some Demo.refreshPayload)
               0%nat Demo.params 1%nat c (AxiosError (Some (Demo.status 401)))
               Demo.prepared
               (refreshableOnApiError (Demo.guardedService Demo.expiredThenOk)
                  Demo.refreshable Demo.refreshParams (Some 0%nat) 1%nat
                  (AxiosError (Some (Demo.status 401))) Demo.prepared).1
               (refreshableOnApiError (Demo.guardedService Demo.expiredThenOk)
                  Demo.refreshable Demo.refreshParams (Some 0%nat) 1%nat
                  (AxiosError (Some (Demo.status 401))) Demo.prepared).2)
    as (Hparams & _).
  - vm_compute. reflexivity.
  - vm_compute. reflexivity.
  - reflexivity.
  - vm_compute. reflexivity.
  - by destruct (refreshableOnApiError _ _ _ _ _ _ _).
  - exact Hparams.
Defined.

(** The same within a call (the run of C3): the [before] event showed
    the caller's payload; the [success] and [after] events, emitted for
    the retried call, show the refresh payload, and so does the params
    object the caller holds when the call has returned. *)
Lemma call_events_across_refresh
    svc name params eventContext overwriteUrl s0 res s_fin
    ep ap rp d1 e d2 r data :
  _endpoints svc !! name = Some ep →
  buildAuthStrategy svc ep = inr (RefreshableBearerTokenAuthStrategy ap rp) →
  (∀ q, raisesNoRetry (refreshAccessToken rp q)) →
  (∀ q x c y, raisesNoRetry (onApiError svc q x c y)) →
  call svc name params eventContext overwriteUrl s0 = (res, s_fin) →
  dispatched s_fin !! length (dispatched s0) = Some d1 →
  d_result d1 = inl e →
  isRetryAPICall e = false →
  isAccessTokenExpiredError rp (d_call d1) e = true →
  dispatched s_fin !! S (length (dispatched s0)) = Some d2 →
  d_result d2 = inr r →
  normalized (ep_normalizationMapping ep) (paramsAt (heap s_fin) params) (res_data r) =
    inr data →
  ∃ build p0 before success after,
    buildRefreshAccessTokenPayload rp = Some build ∧
    paramsAt (heap s0) params = Some p0 ∧
    paramsAt (heap s_fin) params = Some (withPayload (build p0) p0) ∧
    emitted s_fin = emitted s0 ++ [before; success; after] ∧
    ev_type before = BEFORE ∧ ev_type success = SUCCESS ∧ ev_type after = AFTER ∧
    ev_apiCall success = d_apiCall d2 ∧ ev_apiCall after = d_apiCall d2 ∧
    ev_paramsSeen before = Some p0 ∧
    ev_paramsSeen success = Some (withPayload (build p0) p0) ∧
    ev_paramsSeen after = Some (withPayload (build p0) p0).
Proof.
  intros Hep Hstrategy Hsane1 Hsane2 Hcall Hd1 He Hnoretry Hexp Hd2 Hr Hnorm.
  destruct (call_across_refresh svc name params eventContext overwriteUrl s0 res s_fin
              ep ap rp d1 e d2 r Hep Hstrategy Hsane1 Hsane2 Hcall Hd1 He Hnoretry
              Hexp Hd2 Hr)
    as (build & pl & p0 & newTokens & Hbuild & -> & Hp0 & H).
  cbv zeta in H.
  destruct H as (_ & _ & _ & _ & _ & _ & _ & _ & _ & _ & Hp1 & before & Hb1 & Hb2 & Hout).
  rewrite Hp1 in Hnorm. rewrite Hnorm in Hout.
  destruct Hout as (_ & success & after & Hem & ? & ? & ? & ? & _ & _ & ? & ?).
  by exists build, p0, before, success, after.
Qed.

(** * Further properties of the engine *)

(** ** The shape of a call *)

Section CallShape.

Variable svc : Service.

(** [call], attempt by attempt. *)
Lemma call_unfold name params eventContext overwriteUrl s :
  call svc name params eventContext overwriteUrl s =
    match prepareCall svc name params overwriteUrl s with
    | (inl e, s1) => (inl e, s1)
    | (inr (a, l), s1) =>
      match executeApiCall svc params l (Some a) (emit svc name BEFORE params l s1).2 with
      | (inr _, s3) => completeCall svc name params l s3
      | (inl (RetryAPICall _ retried), s3) =>
        match executeApiCall svc params retried (Some a) s3 with
        | (inr _, s4) => completeCall svc name params retried s4
        | (inl retryError, s4) =>
          if isRetryAPICall retryError
          then (inl (AuthenticationFailed retried retryError), s4)
          else completeCall svc name params retried s4
        end
      | (inl error, s3) =>
        (inl error,
         (emit svc name AFTER params l (emit svc name ERROR params l s3).2).2)
      end
    end.
Proof.
  unfold call. unfold bind at 1.
  destruct (prepareCall svc name params overwriteUrl s) as [[e|[a l]] s1]; [done|].
  cbv beta iota. unfold bind at 1. rewrite emit_eq. cbv beta iota. cbn [snd].
  unfold bind at 1, tryCatch at 1, bind at 1.
  destruct (executeApiCall svc params l (Some a) _) as [[error|l'] s3]; [|done].
  destruct error; try reflexivity.
  unfold tryCatch at 1. unfold bind at 1.
  destruct (executeApiCall svc params apiCall (Some a) s3) as [[retryError|l'] s4];
    [|done].
  by destruct (isRetryAPICall retryError).
Qed.

(** One attempt on a call that is on the heap ends in one of three
    ways: the admission check rejects it; or, in a dry run, the canned
    response is recorded on the call; or one request is dispatched. *)
Lemma executeApiCall_cases p l a s c r s' :
  callAt (heap s) l = Some c →
  executeApiCall svc p l a s = (r, s') →
  (r = inl (LocalRemoteAPIRateLimitExceeded l) ∧ quiet s s'
   ∧ (enforceGlobalRateLimit svc l s).1 = inr true)
  ∨ (dryRun svc = true ∧ r = inr l ∧
     ∃ sE, quiet s sE ∧
       s' = setHeap (<[l := ObjCall (withResponse (Some dryRunResponse) c)]> (heap sE))
              (addLog WarnDryRun sE))
  ∨ (dryRun svc = false ∧
     ∃ sE, quiet s sE ∧
       let result := httpRequest svc (length (dispatched s)) (requestConfig c) in
       let d := {| d_apiCall := l; d_call := c; d_result := result |} in
       let sD := addDispatch d sE in
       dispatched s' = dispatched s ++ [d] ∧
       match result with
       | inr resp =>
         r = inr l ∧
         s' = setHeap (<[l := ObjCall (withResponse (Some resp) c)]> (heap sD)) sD
       | inl e =>
         match onDoCallError svc p l a e sD with
         | (inl x, sH) => r = inl x ∧ s' = sH
         | (inr resp, sH) => (r, s') = (setResponse l resp >> ret l) sH
         end
       end).
Proof.
  intros Hc E.
  pose proof (enforceGlobalRateLimit_quiet svc l s) as Hq.
  destruct (enforceGlobalRateLimit svc l s) as [[e|limited] sE] eqn:EL; simpl in Hq.
  { exfalso. revert EL. rewrite enforceGlobalRateLimit_unfold. cbv zeta.
    by repeat case_match. }
  destruct limited.
  { left. revert E. unfold executeApiCall, bind. rewrite EL. by intros [= <- <-]. }
  right. destruct (dryRun svc) eqn:Hdry.
  - left. split; [done|]. revert E. unfold executeApiCall. unfold bind at 1.
    rewrite EL, Hdry. simpl negb. cbv iota. unfold bind at 1, bind at 1, log, modify.
    cbv beta iota. unfold ret at 1. unfold bind at 1, setResponse.
    destruct Hq as (Hh & ?).
    assert (callAt (heap (addLog WarnDryRun sE)) l = Some c) as HcL by (simpl; by rewrite Hh).
    rewrite (updateCall_Some _ _ _ _ HcL). intros [= <- <-].
    split; [done|]. exists sE. by split.
  - right. split; [done|]. exists sE. split; [done|]. cbv zeta.
    destruct Hq as (Hheap & Hdisp & Hrefr & Hemit).
    assert (callAt (heap sE) l = Some c) as HcE by by rewrite Hheap.
    revert E. unfold executeApiCall. unfold bind at 1. rewrite EL, Hdry.
    simpl negb. cbv iota.
    unfold bind at 1, tryCatch at 1, bind at 1.
    rewrite (doCall_eq _ _ _ _ _ HcE). cbv zeta. rewrite Hdisp.
    set (result := httpRequest svc _ _).
    set (d := {| d_apiCall := l; d_call := c; d_result := result |}).
    destruct result as [e|resp] eqn:Hres.
    + pose proof (onDoCallError_sameDispatches svc p l a e (addDispatch d sE)) as HsH.
      destruct (onDoCallError svc p l a e (addDispatch d sE)) as [[x|resp] sH];
        simpl in HsH.
      * intros [= <- <-]. rewrite HsH. simpl. by rewrite Hdisp.
      * intros E. split; [|done].
        pose proof (steps_bind sameDispatches (setResponse l resp) (λ _, ret l)
                      (setResponse_sameDispatches l resp)
                      (λ _, steps_ret sameDispatches l) sH) as Hs.
        rewrite E in Hs. simpl in Hs. rewrite Hs, HsH. simpl. by rewrite Hdisp.
    + unfold ret at 1. unfold bind at 1. unfold setResponse.
      assert (callAt (heap (addDispatch d sE)) l = Some c) as HcD by done.
      rewrite (updateCall_Some _ _ _ _ HcD). intros [= <- <-].
      split; [|done]. simpl. by rewrite Hdisp.
Qed.

(** What [prepareCall] has done when it succeeds. *)
Lemma prepareCall_inr name params overwriteUrl s a l s1 :
  prepareCall svc name params overwriteUrl s = (inr (a, l), s1) →
  ∃ ep url c,
    _endpoints svc !! name = Some ep ∧
    buildAuthStrategy svc ep = inr a ∧
    callUrl svc ep (paramsAt (heap s) params) overwriteUrl = inr url ∧
    authorize a (callWithDefaults svc ep (paramsAt (heap s) params) url) = Some c ∧
    validMethod c = true ∧
    l = length (heap s) ∧
    s1 = setHeap (heap s ++ [ObjCall c]) s.
Proof.
  rewrite prepareCall_eq.
  destruct (_endpoints svc !! name) as [ep|] eqn:Hep; [|done].
  destruct (buildAuthStrategy svc ep) as [e|a'] eqn:Hstrategy; [done|]. cbv zeta.
  destruct (callUrl svc ep _ overwriteUrl) as [e|url] eqn:Hurl; [done|].
  destruct (authorize a' _) as [c|] eqn:Hauth; [|done].
  destruct (validMethod c) eqn:Hvalid; [|done].
  intros [= <- <- <-]. by exists ep, url, c.
Qed.

(** After the first attempt, the rest of [call] dispatches at most
    once more, and only on a retry signal. *)
Lemma call_rest_dispatches name params eventContext overwriteUrl s res s' a l s1 r1 s3 :
  call svc name params eventContext overwriteUrl s = (res, s') →
  prepareCall svc name params overwriteUrl s = (inr (a, l), s1) →
  executeApiCall svc params l (Some a) (emit svc name BEFORE params l s1).2 = (r1, s3) →
  ∃ ds, dispatched s' = dispatched s3 ++ ds ∧ (length ds ≤ 1)%nat ∧
        match r1 with inl (RetryAPICall _ _) => True | _ => ds = [] end.
Proof.
  rewrite call_unfold. intros Hcall Hprep E1. rewrite Hprep, E1 in Hcall.
  destruct r1 as [x|l'].
  - destruct x;
      try (injection Hcall as <- <-; exists []; rewrite app_nil_r; simpl;
           split; [done | split; [lia | done]]).
    destruct (executeApiCall_dispatches svc params apiCall (Some a) s3)
      as (ds & Hds & Hlen).
    exists ds. split; [|done]. rewrite <- Hds.
    pose proof (completeCall_sameDispatches svc name params apiCall) as Hs.
    destruct (executeApiCall svc params apiCall _ s3) as [[x2|l2] s4]; simpl.
    + destruct (isRetryAPICall x2); [by injection Hcall as <- <-|].
      specialize (Hs s4). by rewrite Hcall in Hs.
    + specialize (Hs s4). by rewrite Hcall in Hs.
  - pose proof (completeCall_sameDispatches svc name params l s3) as Hs.
    rewrite Hcall in Hs. exists []. rewrite app_nil_r.
    split; [done | split; [simpl; lia | done]].
Qed.

Lemma prepareCall_sameDispatches name params overwriteUrl :
  steps sameDispatches (prepareCall svc name params overwriteUrl).
Proof.
  pose proof sameDispatches_heap as Hh.
  apply steps_prepareCall; first [typeclasses eauto | done].
Qed.

(** The first request of a call is dispatched by its first attempt, on
    the call that [prepareCall] built. *)
Lemma call_first_dispatch name params eventContext overwriteUrl s res s' d :
  call svc name params eventContext overwriteUrl s = (res, s') →
  dispatched s' !! length (dispatched s) = Some d →
  ∃ ep a url s1 r1 s3 sE,
    let l := length (heap s) in
    let c := d_call d in
    let sB := (emit svc name BEFORE params l s1).2 in
    let sD := addDispatch d sE in
    _endpoints svc !! name = Some ep ∧
    buildAuthStrategy svc ep = inr a ∧
    callUrl svc ep (paramsAt (heap s) params) overwriteUrl = inr url ∧
    authorize a (callWithDefaults svc ep (paramsAt (heap s) params) url) = Some c ∧
    prepareCall svc name params overwriteUrl s = (inr (a, l), s1) ∧
    s1 = setHeap (heap s ++ [ObjCall c]) s ∧
    executeApiCall svc params l (Some a) sB = (r1, s3) ∧
    dryRun svc = false ∧
    quiet sB sE ∧
    d = {| d_apiCall := l; d_call := c;
           d_result := httpRequest svc (length (dispatched s)) (requestConfig c) |} ∧
    dispatched s3 = dispatched s ++ [d] ∧
    match d_result d with
    | inr resp =>
      r1 = inr l ∧
      s3 = setHeap (<[l := ObjCall (withResponse (Some resp) c)]> (heap sD)) sD
    | inl e =>
      match onDoCallError svc params l (Some a) e sD with
      | (inl x, sH) => r1 = inl x ∧ s3 = sH
      | (inr resp, sH) => (r1, s3) = (setResponse l resp >> ret l) sH
      end
    end.
Proof.
  intros Hcall Hd.
  destruct (prepareCall svc name params overwriteUrl s) as [[e|[a l]] s1] eqn:Hprep.
  { exfalso. rewrite call_unfold, Hprep in Hcall. injection Hcall as <- <-.
    pose proof (prepareCall_sameDispatches name params overwriteUrl s) as Hs.
    rewrite Hprep in Hs. unfold sameDispatches in Hs. simpl in Hs.
    eapply lookup_past_end; [|exact Hd]. by rewrite Hs. }
  destruct (prepareCall_inr _ _ _ _ _ _ _ Hprep)
    as (ep & url & c & Hep & Hstrategy & Hurl & Hauth & _ & -> & ->).
  set (s1 := setHeap (heap s ++ [ObjCall c]) s) in *.
  destruct (executeApiCall svc params (length (heap s)) (Some a)
              (emit svc name BEFORE params (length (heap s)) s1).2)
    as [r1 s3] eqn:E1.
  destruct (call_rest_dispatches _ _ _ _ _ _ _ _ _ _ _ _ Hcall Hprep E1)
    as (ds & Hds & Hlen & Hkind).
  assert (callAt (heap (emit svc name BEFORE params (length (heap s)) s1).2)
            (length (heap s)) = Some c) as Hc by apply callAt_app_new.
  assert (∀ sQ, quiet (emit svc name BEFORE params (length (heap s)) s1).2 sQ →
                dispatched sQ = dispatched s) as Hquiet.
  { intros sQ (_ & HdQ & _). by rewrite HdQ. }
  destruct (executeApiCall_cases _ _ _ _ _ _ _ Hc E1)
    as [(-> & Hq & _)|[(Hdry & -> & sE & Hq & ->)|(Hdry & sE & Hq & H)]].
  - exfalso. subst ds. rewrite app_nil_r in Hds.
    eapply lookup_past_end; [|exact Hd]. by rewrite Hds, (Hquiet _ Hq).
  - exfalso. subst ds. rewrite app_nil_r in Hds.
    eapply lookup_past_end; [|exact Hd]. rewrite Hds. simpl. by rewrite (Hquiet _ Hq).
  - cbv zeta in H. destruct H as [Hd3 H].
    change (dispatched (emit svc name BEFORE params (length (heap s)) s1).2)
      with (dispatched s) in Hd3, H.
    assert (d = {| d_apiCall := length (heap s); d_call := c;
                   d_result := httpRequest svc (length (dispatched s)) (requestConfig c) |})
      as Hdeq.
    { rewrite Hds, Hd3, <- app_assoc in Hd. rewrite lookup_app_r in Hd by lia.
      rewrite Nat.sub_diag in Hd. by injection Hd. }
    subst d. exists ep, a, url, s1, r1, s3, sE. cbv zeta. cbn [d_call d_result].
    repeat (split; [done|]). exact H.
Qed.

End CallShape.

(** ** A call whose first request is answered *)

(** What [execute] leaves of the call it was given. *)
Lemma authorize_headers a c c' :
  authorize a c = Some c' →
  req_url (request c') = req_url (request c) ∧
  req_method (request c') = req_method (request c) ∧
  req_query (request c') = req_query (request c) ∧
  match a with
  | NoneAuthStrategy => req_headers (request c') = req_headers (request c)
  | BearerTokenAuthStrategy _ | RefreshableBearerTokenAuthStrategy _ _ =>
    ∃ token, truthyAccessToken (req_auth (request c)) = Some token ∧
      req_headers (request c') =
        <["Authorization" := ("Bearer " ++ token)%string]> (req_headers (request c))
  | UnipileCustomAuthAuthStrategy _ =>
    ∃ token, truthyAccessToken (req_auth (request c)) = Some token ∧
      req_headers (request c') = <["X-API-KEY" := token]> (req_headers (request c))
  end.
Proof.
  unfold authorize. destruct a; [by intros [= <-] | ..];
    (destruct (truthyAccessToken _) as [token|]; [|done]; intros [= <-];
     repeat (split; [done|]); by exists token).
Qed.

(** X1.  When the first request of a call is answered with a response,
    and the endpoint's normalization of it does not throw, the call
    returns that response with its data normalized.  It has dispatched
    that one request and refreshed no token; the caller's params object
    is as it was; and it has emitted [before], [success] and [after], in
    this order, all three with the call that was dispatched. *)
Theorem call_returns_first_response
    svc name params eventContext overwriteUrl s res s' d resp data :
  call svc name params eventContext overwriteUrl s = (res, s') →
  dispatched s' !! length (dispatched s) = Some d →
  d_result d = inr resp →
  normalized (ep_normalizationMapping (endpoint (d_call d)))
    (paramsAt (heap s) params) (res_data resp) = inr data →
  res = inr (Some {| res_status := res_status resp; res_data := data |})
  ∧ dispatched s' = dispatched s ++ [d]
  ∧ refreshed s' = refreshed s
  ∧ paramsAt (heap s') params = paramsAt (heap s) params
  ∧ ∃ before success after,
      emitted s' = emitted s ++ [before; success; after]
      ∧ ev_type before = BEFORE ∧ ev_type success = SUCCESS ∧ ev_type after = AFTER
      ∧ ev_apiCall before = d_apiCall d ∧ ev_apiCall success = d_apiCall d
      ∧ ev_apiCall after = d_apiCall d
      ∧ ev_params before = params ∧ ev_params success = params
      ∧ ev_params after = params.
Proof.
  intros Hcall Hd Hres Hnorm.
  destruct (call_first_dispatch svc _ _ _ _ _ _ _ _ Hcall Hd)
    as (ep & a & url & s1 & r1 & s3 & sE & H).
  cbv zeta in H.
  destruct H as (_ & _ & _ & _ & Hprep & -> & E1 & _ & Hq & Hdeq & Hd3 & H).
  rewrite Hres in H. destruct H as [-> ->].
  assert (d_apiCall d = length (heap s)) as Hl by by rewrite Hdeq.
  clear Hdeq.
  rewrite call_unfold, Hprep, E1 in Hcall.
  destruct Hq as (HhE & HdE & HrE & HeE).
  set (l := length (heap s)) in *. set (c := d_call d) in *.
  set (sD := addDispatch d sE) in *.
  set (s3 := setHeap _ sD) in *.
  assert (callAt (heap sD) l = Some c) as HcD.
  { simpl. rewrite HhE. apply callAt_app_new. }
  assert (callAt (heap s3) l = Some (withResponse (Some resp) c)) as Hc3.
  { apply callAt_insert. by eapply callAt_lt. }
  assert (paramsAt (heap s3) params = paramsAt (heap s) params) as Hp3.
  { unfold s3. simpl heap. rewrite (paramsAt_insert_over_call _ _ _ c) by exact HcD.
    simpl heap. rewrite HhE. simpl heap. apply paramsAt_app_call. }
  destruct (completeCall_inv svc name params l _ resp s3 Hc3 eq_refl)
    as (sF & Heq & HdF & HrF & HpF & HF).
  cbv zeta in Heq, HF. rewrite Hcall, Hp3 in Heq. rewrite Hp3 in HF, HpF.
  change (endpoint (withResponse (Some resp) c)) with (endpoint c) in Heq, HF.
  rewrite Hnorm in Heq, HF. injection Heq as -> <-.
  split; [done|]. split; [by rewrite HdF|].
  split; [rewrite HrF; simpl; by rewrite HrE|]. split; [done|].
  destruct HF as (success & after & Hem & ? & ? & ? & ? & ? & ? & _).
  eexists _, success, after. split.
  { rewrite Hem. simpl. rewrite HeE. rewrite emit_eq. simpl.
    rewrite <- app_assoc. reflexivity. }
  rewrite Hl. by repeat split.
Qed.

Lemma call_returns_first_response_witness :
  (Demo.run Demo.publicService "getEmpty" (Some 0%nat)).1 =
    inr (Some {| res_status := Some 200; res_data := Some (JStr "ok") |}).
Proof.
  edestruct (λ d, call_returns_first_response Demo.publicService "getEmpty"
               (Some 0%nat) None None Demo.start
               (Demo.run Demo.publicService "getEmpty" (Some 0%nat)).1
               (Demo.run Demo.publicService "getEmpty" (Some 0%nat)).2
               d {| res_status := Some 200; res_data := Some (JStr "ok") |}
               (Some (JStr "ok")))
    as (Hres & _).
  - unfold Demo.run. by destruct (call _ _ _ _ _ _).
  - vm_compute. reflexivity.
  - reflexivity.
  - vm_compute. reflexivity.
  - exact Hres.
Defined.

(** The request of the first dispatch, read off [prepareCall]. *)
Lemma first_request_shape
    svc name params eventContext overwriteUrl s res s' d :
  call svc name params eventContext overwriteUrl s = (res, s') →
  dispatched s' !! length (dispatched s) = Some d →
  ∃ ep a url,
    let p := paramsAt (heap s) params in
    let cfg := requestConfig (d_call d) in
    let headers := default ∅ (ep_headers ep) ∪ defaultHeaders svc in
    _endpoints svc !! name = Some ep
    ∧ buildAuthStrategy svc ep = inr a
    ∧ callUrl svc ep p overwriteUrl = inr url
    ∧ d_result d = httpRequest svc (length (dispatched s)) cfg
    ∧ cfg_url cfg = url
    ∧ cfg_method cfg = toUpperCase (ep_method ep)
    ∧ cfg_data cfg = p ≫= p_payload
    ∧ cfg_params cfg = p ≫= p_query
    ∧ match a with
      | NoneAuthStrategy => cfg_headers cfg = headers
      | BearerTokenAuthStrategy _ | RefreshableBearerTokenAuthStrategy _ _ =>
        ∃ token, truthyAccessToken (p ≫= p_auth) = Some token ∧
          cfg_headers cfg = <["Authorization" := ("Bearer " ++ token)%string]> headers
      | UnipileCustomAuthAuthStrategy _ =>
        ∃ token, truthyAccessToken (p ≫= p_auth) = Some token ∧
          cfg_headers cfg = <["X-API-KEY" := token]> headers
      end.
Proof.
  intros Hcall Hd.
  destruct (call_first_dispatch svc _ _ _ _ _ _ _ _ Hcall Hd)
    as (ep & a & url & s1 & r1 & s3 & sE & H).
  cbv zeta in H.
  destruct H as (Hep & Hstrategy & Hurl & Hauth & _ & _ & _ & _ & _ & Hdeq & _).
  exists ep, a, url. cbv zeta.
  destruct (authorize_request _ _ _ Hauth) as (_ & _ & _ & Hpay).
  destruct (authorize_headers _ _ _ Hauth) as (Hu & Hm & Hquery & Hheaders).
  repeat (split; [done|]).
  split; [by rewrite Hdeq at 1|].
  unfold requestConfig. cbn [cfg_url cfg_method cfg_data cfg_params cfg_headers].
  rewrite Hu, Hm, Hquery, Hpay.
  repeat (split; [done|]). exact Hheaders.
Qed.

(** X2.  The first request a call dispatches is made from the endpoint
    and from the caller's params as they are when the call starts: the
    URL is [overwriteUrl] or the constructed one, the method is the
    endpoint's in upper case, the data and the query are the params'
    payload and query; the headers are the endpoint's, then the
    service's defaults for names the endpoint does not set, and over
    both the header of the auth strategy, made from the params' access
    token. *)
Theorem call_first_request
    svc name params eventContext overwriteUrl s res s' d :
  call svc name params eventContext overwriteUrl s = (res, s') →
  dispatched s' !! length (dispatched s) = Some d →
  ∃ ep a url,
    let p := paramsAt (heap s) params in
    let cfg := requestConfig (d_call d) in
    let headers := default ∅ (ep_headers ep) ∪ defaultHeaders svc in
    _endpoints svc !! name = Some ep
    ∧ buildAuthStrategy svc ep = inr a
    ∧ callUrl svc ep p overwriteUrl = inr url
    ∧ d_result d = httpRequest svc (length (dispatched s)) cfg
    ∧ cfg_url cfg = url
    ∧ cfg_method cfg = toUpperCase (ep_method ep)
    ∧ cfg_data cfg = p ≫= p_payload
    ∧ cfg_params cfg = p ≫= p_query
    ∧ match a with
      | NoneAuthStrategy => cfg_headers cfg = headers
      | BearerTokenAuthStrategy _ | RefreshableBearerTokenAuthStrategy _ _ =>
        ∃ token, truthyAccessToken (p ≫= p_auth) = Some token ∧
          cfg_headers cfg = <["Authorization" := ("Bearer " ++ token)%string]> headers
      | UnipileCustomAuthAuthStrategy _ =>
        ∃ token, truthyAccessToken (p ≫= p_auth) = Some token ∧
          cfg_headers cfg = <["X-API-KEY" := token]> headers
      end.
Proof. apply first_request_shape. Qed.

Lemma call_first_request_witness :
  ∃ d ep,
    dispatched (Demo.run (Demo.guardedService Demo.alwaysOk)
                  "refreshableBearerAuthEndpoint" (Some 0%nat)).2 !! 0%nat = Some d
    ∧ cfg_method (requestConfig (d_call d)) = toUpperCase (ep_method ep)
    ∧ cfg_data (requestConfig (d_call d)) = Some (JStr "original payload").
Proof.
  destruct (dispatched (Demo.run (Demo.guardedService Demo.alwaysOk)
                          "refreshableBearerAuthEndpoint" (Some 0%nat)).2 !! 0%nat)
    as [d|] eqn:Hd; [|exfalso; revert Hd; vm_compute; discriminate].
  destruct (call_first_request (Demo.guardedService Demo.alwaysOk)
              "refreshableBearerAuthEndpoint" (Some 0%nat) None None Demo.start
              (Demo.run (Demo.guardedService Demo.alwaysOk)
                 "refreshableBearerAuthEndpoint" (Some 0%nat)).1
              (Demo.run (Demo.guardedService Demo.alwaysOk)
                 "refreshableBearerAuthEndpoint" (Some 0%nat)).2 d)
    as (ep & a & url & H).
  - unfold Demo.run. by destruct (call _ _ _ _ _ _).
  - exact Hd.
  - cbv zeta in H. destruct H as (_ & _ & _ & _ & _ & Hmethod & Hdata & _).
    exists d, ep. split; [reflexivity|]. split; [exact Hmethod | exact Hdata].
Defined.

(** ** The events of a call *)

#[global] Instance sameEvents_preorder : PreOrder sameEvents.
Proof.
  split; [by intros s|]. intros s1 s2 s3 H12 H23. unfold sameEvents in *. congruence.
Qed.

Section Events.

Variable svc : Service.

Lemma sameEvents_enforce l : steps sameEvents (enforceGlobalRateLimit svc l).
Proof. by apply steps_enforceGlobalRateLimit; [typeclasses eauto | ..]. Qed.

Lemma prepareCall_sameEvents name params overwriteUrl :
  steps sameEvents (prepareCall svc name params overwriteUrl).
Proof. apply steps_prepareCall; first [typeclasses eauto | done]. Qed.

Lemma executeApiCall_sameEvents p l a : steps sameEvents (executeApiCall svc p l a).
Proof.
  apply steps_executeApiCall; first [typeclasses eauto | done | apply sameEvents_enforce].
Qed.

Lemma onApiSuccessResponse_sameEvents l : steps sameEvents (onApiSuccessResponse svc l).
Proof. apply steps_onApiSuccessResponse; first [typeclasses eauto | done]. Qed.

Lemma normalizeResponse_sameEvents p l : steps sameEvents (normalizeResponse p l).
Proof. apply steps_normalizeResponse; first [typeclasses eauto | done]. Qed.

(** The tail of [call] emits [success] and [after], or nothing when the
    success hook or the normalization throws. *)
Lemma completeCall_events name params l s res s' :
  completeCall svc name params l s = (res, s') →
  (emitted s' = emitted s ∧ ∃ e, res = inl e)
  ∨ ∃ success after,
      emitted s' = emitted s ++ [success; after] ∧
      ev_type success = SUCCESS ∧ ev_type after = AFTER ∧
      ev_params success = params ∧ ev_params after = params ∧
      ev_name success = (serviceName svc ++ "." ++ name ++ "." ++ "success")%string ∧
      ev_name after = (serviceName svc ++ "." ++ name ++ "." ++ "after")%string.
Proof.
  unfold completeCall. unfold bind at 1.
  pose proof (onApiSuccessResponse_sameEvents l s) as H1.
  destruct (onApiSuccessResponse svc l s) as [[e|[]] s1]; simpl in H1.
  { intros [= <- <-]. left. split; [done|]. by eexists. }
  unfold bind at 1.
  pose proof (normalizeResponse_sameEvents params l s1) as H2.
  destruct (normalizeResponse params l s1) as [[e|l'] s2]; simpl in H2.
  { intros [= <- <-]. left. split; [congruence|]. by eexists. }
  unfold bind at 1. rewrite emit_eq. cbv beta iota.
  unfold bind at 1. rewrite emit_eq. cbv beta iota.
  unfold bind. set (sX := addEvent _ (addEvent _ s2)).
  assert ((readCall l sX).2 = sX) as HR.
  { unfold readCall. by destruct (heap sX !! l) as [[?|?]|]. }
  intros E. right. eexists _, _. split.
  - assert (s' = sX) as ->.
    { revert E HR. by destruct (readCall l sX) as [[?|?] ?]; intros [= <- <-]. }
    unfold sX. simpl. rewrite <- app_assoc, H2, H1. reflexivity.
  - by repeat split.
Qed.

End Events.

(** X3.  The events of one call, in the order they are emitted, are
    none at all, or [before] alone, or [before], [error], [after], or
    [before], [success], [after]; each is named
    [<service>.<endpoint>.<phase>] and carries the caller's params.  A
    call that returns has emitted [before], [success], [after]; one
    that has emitted [error] fails. *)
Theorem call_event_protocol svc name params eventContext overwriteUrl s res s' :
  call svc name params eventContext overwriteUrl s = (res, s') →
  ∃ events,
    emitted s' = emitted s ++ events
    ∧ (ev_type <$> events = []
       ∨ ev_type <$> events = [BEFORE]
       ∨ ev_type <$> events = [BEFORE; ERROR; AFTER]
       ∨ ev_type <$> events = [BEFORE; SUCCESS; AFTER])
    ∧ Forall (λ ev,
        ev_params ev = params ∧
        ev_name ev =
          (serviceName svc ++ "." ++ name ++ "." ++ eventTypeString (ev_type ev))%string)
        events
    ∧ (∀ r, res = inr r → ev_type <$> events = [BEFORE; SUCCESS; AFTER])
    ∧ (ERROR ∈ ev_type <$> events → ∃ e, res = inl e).
Proof.
  rewrite call_unfold.
  pose proof (prepareCall_sameEvents svc name params overwriteUrl s) as H0.
  destruct (prepareCall svc name params overwriteUrl s) as [[e|[a l]] s1];
    unfold sameEvents in H0; simpl in H0.
  { intros [= <- <-]. exists []. rewrite app_nil_r.
    split; [done|]. split; [by left|]. split; [done|]. split; [done|].
    intros Hin. by apply elem_of_nil in Hin. }
  rewrite emit_eq. cbn [snd].
  set (before := Build_Event _ BEFORE _ _ _ _).
  pose proof (executeApiCall_sameEvents svc params l (Some a) (addEvent before s1)) as H1.
  destruct (executeApiCall svc params l (Some a) (addEvent before s1)) as [r1 s3];
    unfold sameEvents in H1; simpl in H1. rewrite H0 in H1.
  assert (∀ l' res s' s3,
            emitted s3 = emitted s ++ [before] →
            completeCall svc name params l' s3 = (res, s') →
            ∃ events,
              emitted s' = emitted s ++ events
              ∧ (ev_type <$> events = []
                 ∨ ev_type <$> events = [BEFORE]
                 ∨ ev_type <$> events = [BEFORE; ERROR; AFTER]
                 ∨ ev_type <$> events = [BEFORE; SUCCESS; AFTER])
              ∧ Forall (λ ev,
                  ev_params ev = params ∧
                  ev_name ev =
                    (serviceName svc ++ "." ++ name ++ "." ++
                     eventTypeString (ev_type ev))%string) events
              ∧ (∀ r, res = inr r → ev_type <$> events = [BEFORE; SUCCESS; AFTER])
              ∧ (ERROR ∈ ev_type <$> events → ∃ e, res = inl e)) as Hcomplete.
  { clear. intros l' res s' s3 H3 E.
    apply completeCall_events in E
      as [(Hem & e & ->)|(success & after & Hem & Hs & Ha & Hps & Hpa & Hns & Hna)].
    - exists [before]. split; [congruence|]. split; [by right; left|].
      split; [by repeat constructor|]. split; [done|]. intros _. by exists e.
    - exists [before; success; after]. split; [by rewrite Hem, H3, <- app_assoc|].
      simpl. rewrite Hs, Ha. split; [by repeat right|].
      split; [|split; [done|]].
      + repeat constructor; try done; by rewrite ?Hs, ?Ha.
      + intros Hin. repeat (apply elem_of_cons in Hin as [?|Hin]; [done|]).
        by apply elem_of_nil in Hin. }
  destruct r1 as [error|l']; [|by apply Hcomplete].
  destruct error as [?|? ?|? ?|?|?|?|? retried|? ?|?|?|?];
    try (rewrite !emit_eq; cbn [snd]; intros [= <- <-];
         eexists; split; [simpl; rewrite H1, <- !app_assoc; reflexivity|];
         simpl; split; [by right; right; left|];
         split; [by repeat constructor|]; split; [done|]; intros _; by eexists).
  pose proof (executeApiCall_sameEvents svc params retried (Some a) s3) as H2.
  destruct (executeApiCall svc params retried (Some a) s3) as [[retryError|l'] s4];
    unfold sameEvents in H2; simpl in H2; rewrite H1 in H2.
  - destruct (isRetryAPICall retryError); [|by apply Hcomplete].
    intros [= <- <-]. exists [before]. split; [done|].
    split; [by right; left|]. split; [by repeat constructor|]. split; [done|].
    intros _. by eexists.
  - by apply Hcomplete.
Qed.

Lemma call_event_protocol_witness :
  ∃ events,
    emitted (Demo.run Demo.publicService "getEmpty" (Some 0%nat)).2 =
      emitted Demo.start ++ events
    ∧ ∀ r, (Demo.run Demo.publicService "getEmpty" (Some 0%nat)).1 = inr r →
           ev_type <$> events = [BEFORE; SUCCESS; AFTER].
Proof.
  destruct (call_event_protocol Demo.publicService "getEmpty" (Some 0%nat) None None
              Demo.start
              (Demo.run Demo.publicService "getEmpty" (Some 0%nat)).1
              (Demo.run Demo.publicService "getEmpty" (Some 0%nat)).2)
    as (events & Hem & _ & _ & Hok & _).
  - unfold Demo.run. by destruct (call _ _ _ _ _ _).
  - exists events. split; assumption.
Defined.

(** ** Dry runs *)

(** X4.  In a dry run a call reaches neither the transport nor the
    refresh function.  When it returns, it returns the canned response,
    normalized as the endpoint says; when it fails, it is on a
    construction error, on the rate limit, or on the error of the
    normalization function, never on a provider error. *)
Theorem call_dry_run svc name params eventContext overwriteUrl s res s' :
  dryRun svc = true →
  call svc name params eventContext overwriteUrl s = (res, s') →
  dispatched s' = dispatched s
  ∧ refreshed s' = refreshed s
  ∧ match res with
    | inr r =>
      ∃ ep data,
        _endpoints svc !! name = Some ep ∧
        normalized (ep_normalizationMapping ep) (paramsAt (heap s) params)
          (res_data dryRunResponse) = inr data ∧
        r = Some {| res_status := None; res_data := data |}
    | inl e =>
      isConstructionError e
      ∨ e = LocalRemoteAPIRateLimitExceeded (length (heap s))
      ∨ ∃ ep message,
          _endpoints svc !! name = Some ep ∧
          normalized (ep_normalizationMapping ep) (paramsAt (heap s) params)
            (res_data dryRunResponse) = inl message ∧
          e = OtherError message
    end.
Proof.
  intros Hdry Hcall. rewrite call_unfold in Hcall.
  destruct (prepareCall svc name params overwriteUrl s) as [[e|[a l]] s1] eqn:Hprep.
  { injection Hcall as <- <-.
    pose proof (prepareCall_sameDispatches svc name params overwriteUrl s) as Hs.
    rewrite Hprep in Hs. unfold sameDispatches in Hs. simpl in Hs.
    split; [done|]. split.
    - pose proof (steps_prepareCall heapOnly
                    (λ s o, ex_intro _ _ eq_refl) (λ s l c c' _, ex_intro _ _ eq_refl)
                    svc name params overwriteUrl s) as [h Hh].
      rewrite Hprep in Hh. simpl in Hh. by subst s1.
    - left. by eapply prepareCall_error. }
  destruct (prepareCall_inr _ _ _ _ _ _ _ _ Hprep)
    as (ep & url & c & Hep & Hstrategy & Hurl & Hauth & _ & -> & ->).
  rewrite emit_eq in Hcall. cbn [snd] in Hcall.
  set (before := Build_Event _ BEFORE _ _ _ _) in Hcall.
  set (s1 := setHeap (heap s ++ [ObjCall c]) s) in *.
  destruct (executeApiCall svc params (length (heap s)) (Some a) (addEvent before s1))
    as [r1 s3] eqn:E1.
  assert (callAt (heap (addEvent before s1)) (length (heap s)) = Some c) as Hc
    by apply callAt_app_new.
  destruct (executeApiCall_cases _ _ _ _ _ _ _ _ Hc E1)
    as [(-> & Hq & _)|[(_ & -> & sE & Hq & ->)|(Hwet & _)]]; [| |congruence].
  - injection Hcall as <- <-. destruct Hq as (_ & Hd & Hr & _).
    simpl. rewrite Hd, Hr. split; [done|]. split; [done|].
    right. by left.
  - destruct Hq as (HhE & HdE & HrE & HeE).
    set (sL := addLog WarnDryRun sE) in *.
    set (c' := withResponse (Some dryRunResponse) c) in *.
    set (s3 := setHeap _ sL) in *.
    assert (callAt (heap sL) (length (heap s)) = Some c) as HcL.
    { simpl. rewrite HhE. apply callAt_app_new. }
    assert (callAt (heap s3) (length (heap s)) = Some c') as Hc3.
    { apply callAt_insert. by eapply callAt_lt. }
    assert (paramsAt (heap s3) params = paramsAt (heap s) params) as Hp3.
    { unfold s3. simpl heap. rewrite (paramsAt_insert_over_call _ _ _ c) by exact HcL.
      simpl heap. rewrite HhE. simpl heap. apply paramsAt_app_call. }
    destruct (completeCall_inv svc name params _ c' dryRunResponse s3 Hc3 eq_refl)
      as (sF & Heq & HdF & HrF & HpF & HF).
    cbv zeta in Heq, HF. rewrite Hcall, Hp3 in Heq.
    change (endpoint c') with (endpoint c) in Heq.
    destruct (authorize_request _ _ _ Hauth) as (Hepc & _).
    rewrite Hepc in Heq. simpl endpoint in Heq.
    injection Heq as -> <-.
    split; [rewrite HdF; simpl; by rewrite HdE|].
    split; [rewrite HrF; simpl; by rewrite HrE|].
    destruct (normalized _ _ _) as [message|data] eqn:Hnorm.
    + right. right. by exists ep, message.
    + by exists ep, data.
Qed.

Lemma call_dry_run_witness :
  dispatched
    (call (Demo.dryService Demo.alwaysServerError) "getEmpty" (Some 0%nat) None None
       Demo.start).2 = []
  ∧ (∀ e, (call (Demo.dryService Demo.alwaysServerError) "getEmpty" (Some 0%nat)
             None None Demo.start).1 ≠ inl (AxiosError e)).
Proof.
  destruct (call_dry_run (Demo.dryService Demo.alwaysServerError) "getEmpty"
              (Some 0%nat) None None Demo.start
              (call (Demo.dryService Demo.alwaysServerError) "getEmpty" (Some 0%nat)
                 None None Demo.start).1
              (call (Demo.dryService Demo.alwaysServerError) "getEmpty" (Some 0%nat)
                 None None Demo.start).2)
    as (Hd & _ & Hres).
  - reflexivity.
  - by destruct (call _ _ _ _ _ _).
  - split; [exact Hd|]. intros e He. rewrite He in Hres.
    destruct Hres as [[]|[[=]|(? & ? & _ & _ & [=])]].
Defined.

(** ** A call whose first request fails *)

Section FirstAttemptFails.

Variable svc : Service.

(** The [catch] block of [executeApiCall] when the strategy does not
    refresh: the strategy's classification, then the service hook.  The
    strategy's answer is dropped; its exception is kept unless the
    service hook throws too. *)
Lemma onDoCallError_base a p l c e s :
  callAt (heap s) l = Some c →
  match a with
  | RefreshableBearerTokenAuthStrategy _ rp => isAccessTokenExpiredError rp c e = false
  | _ => True
  end →
  onDoCallError svc p l (Some a) e s =
    if isApiError svc e then
      let q := paramsAt (heap s) p in
      match (if strategyIsAuthError a c e then strategyOnAuthError a q l c e else inr true),
            onApiError svc q (Some a) c e with
      | inr _, inr true => (inl e, s)
      | inr _, inr false => (inr None, s)
      | inr _, inl y => (inl y, s)
      | inl x, inr _ => (inl x, s)
      | inl x, inl y => if isRetryAPICall x then (inl x, s) else (inl y, s)
      end
    else (inl e, s).
Proof.
  intros Hc Hfresh. unfold onDoCallError.
  destruct (isApiError svc e); [|done]. cbv zeta.
  assert (serviceOnApiError svc p (Some a) l e s =
            (onApiError svc (paramsAt (heap s) p) (Some a) c e, s)) as Hhook.
  { unfold serviceOnApiError, bind, readParams, gets.
    rewrite (readCall_Some _ _ _ Hc). unfold lift.
    by destruct (onApiError svc _ _ c e). }
  assert (strategyOnApiError svc a p l e s =
            (if strategyIsAuthError a c e
             then strategyOnAuthError a (paramsAt (heap s) p) l c e else inr true, s))
    as Hstrategy.
  { assert (baseStrategyOnApiError a p l e s =
              (if strategyIsAuthError a c e
               then strategyOnAuthError a (paramsAt (heap s) p) l c e else inr true, s))
      as Hbase.
    { unfold baseStrategyOnApiError, bind. rewrite (readCall_Some _ _ _ Hc).
      destruct (strategyIsAuthError a c e); [|done].
      unfold readParams, gets, lift. by destruct (strategyOnAuthError a _ l c e). }
    destruct a as [|ap|ap rp|ap]; simpl strategyOnApiError; try exact Hbase.
    - reflexivity.
    - unfold refreshableOnApiError, bind. rewrite (readCall_Some _ _ _ Hc), Hfresh.
      exact Hbase. }
  unfold bind at 1, tryCatch at 1, bind at 1. rewrite Hstrategy.
  destruct (if strategyIsAuthError a c e then _ else _) as [x|b].
  - destruct (isRetryAPICall x) eqn:Hx; simpl negb; cbv iota.
    + unfold bind, ret, throw. by destruct (onApiError svc _ _ c e) as [y|[]].
    + unfold bind at 1, bind at 1. rewrite Hhook.
      by destruct (onApiError svc _ _ c e) as [y|[]].
  - unfold bind at 1. rewrite Hhook.
    destruct (onApiError svc _ _ c e) as [y|b'].
    + destruct (isRetryAPICall y) eqn:Hy; simpl negb; cbv iota.
      * reflexivity.
      * unfold bind at 1, bind at 1. by rewrite Hhook.
    + unfold ret at 1. by destruct b'.
Qed.

(** A first attempt that throws anything but the retry signal ends the
    call: [error] and [after] are emitted for the first call, and the
    exception is rethrown. *)
Lemma call_fails_on_first_attempt
    name params eventContext overwriteUrl s res s' a l s1 x s3 :
  call svc name params eventContext overwriteUrl s = (res, s') →
  prepareCall svc name params overwriteUrl s = (inr (a, l), s1) →
  executeApiCall svc params l (Some a) (emit svc name BEFORE params l s1).2 = (inl x, s3) →
  isRetryAPICall x = false →
  res = inl x ∧
  s' = (emit svc name AFTER params l (emit svc name ERROR params l s3).2).2.
Proof.
  rewrite call_unfold. intros Hcall Hprep E1 Hx. rewrite Hprep, E1 in Hcall.
  by destruct x; try done; injection Hcall as <- <-.
Qed.

(** The tail of [call] on a call without a response: it returns
    nothing when the endpoint has no normalization, and fails on the
    missing response otherwise. *)
Lemma completeCall_noResponse name params l c s :
  callAt (heap s) l = Some c →
  response c = None →
  ∃ s',
    dispatched s' = dispatched s ∧ refreshed s' = refreshed s ∧
    paramsAt (heap s') params = paramsAt (heap s) params ∧
    match ep_normalizationMapping (endpoint c) with
    | None =>
      completeCall svc name params l s = (inr None, s') ∧
      ∃ success after,
        emitted s' = emitted s ++ [success; after] ∧
        ev_type success = SUCCESS ∧ ev_type after = AFTER ∧
        ev_apiCall success = l ∧ ev_apiCall after = l
    | Some _ =>
      completeCall svc name params l s =
        (inl (TypeError "Cannot read properties of undefined (reading 'data')"), s') ∧
      emitted s' = emitted s
    end.
Proof.
  intros Hc Hresp.
  destruct (onApiSuccessResponse_inv svc l c s Hc) as (sL & EL & Hh & Hd & Hr & He).
  assert (callAt (heap sL) l = Some c) as HcL by by rewrite Hh.
  destruct (ep_normalizationMapping (endpoint c)) as [rule|] eqn:Hrule.
  - exists sL. rewrite Hh, Hd, Hr, He. repeat (split; [done|]). split; [|done].
    unfold completeCall. unfold bind at 1. rewrite EL.
    unfold bind at 1, normalizeResponse at 1, bind at 1.
    by rewrite (readCall_Some _ _ _ HcL), Hrule, Hresp.
  - eexists. split; [|split; [|split; [|split]]]; cycle 3.
    + unfold completeCall. unfold bind at 1. rewrite EL.
      unfold bind at 1, normalizeResponse at 1, bind at 1.
      rewrite (readCall_Some _ _ _ HcL), Hrule.
      unfold ret at 1. unfold bind at 1. rewrite emit_eq. cbv beta iota.
      unfold bind at 1. rewrite emit_eq. cbv beta iota. unfold bind.
      erewrite readCall_Some by exact HcL. by rewrite Hresp.
    + eexists _, _. simpl. rewrite <- app_assoc, He. by repeat split.
    + simpl. exact Hd.
    + simpl. exact Hr.
    + simpl. by rewrite Hh.
Qed.

End FirstAttemptFails.

Section FirstFailure.

Variable svc : Service.

(** Where a call stands when its first request has failed: the state
    [sD] in which the [catch] block of [executeApiCall] starts. *)
Lemma call_first_failure name params eventContext overwriteUrl s res s' d e ep a :
  call svc name params eventContext overwriteUrl s = (res, s') →
  dispatched s' !! length (dispatched s) = Some d →
  d_result d = inl e →
  _endpoints svc !! name = Some ep →
  buildAuthStrategy svc ep = inr a →
  ∃ s1 r1 s3 sD before,
    prepareCall svc name params overwriteUrl s = (inr (a, d_apiCall d), s1) ∧
    executeApiCall svc params (d_apiCall d) (Some a)
      (emit svc name BEFORE params (d_apiCall d) s1).2 = (r1, s3) ∧
    d_apiCall d = length (heap s) ∧
    endpoint (d_call d) = ep ∧
    heap sD = heap s ++ [ObjCall (d_call d)] ∧
    dispatched sD = dispatched s ++ [d] ∧
    refreshed sD = refreshed s ∧
    emitted sD = emitted s ++ [before] ∧
    ev_type before = BEFORE ∧ ev_apiCall before = d_apiCall d ∧
    ev_paramsSeen before = paramsAt (heap s) params ∧
    match onDoCallError svc params (d_apiCall d) (Some a) e sD with
    | (inl x, sH) => r1 = inl x ∧ s3 = sH
    | (inr resp, sH) => (r1, s3) = (setResponse (d_apiCall d) resp >> ret (d_apiCall d)) sH
    end.
Proof.
  intros Hcall Hd Hres Hep Hstrategy.
  destruct (call_first_dispatch svc _ _ _ _ _ _ _ _ Hcall Hd)
    as (ep' & a' & url & s1 & r1 & s3 & sE & H).
  cbv zeta in H.
  destruct H as (Hep' & Hstrategy' & _ & Hauth & Hprep & -> & E1 & _ & Hq & Hdeq & Hd3 & H).
  rewrite Hep in Hep'. injection Hep' as <-.
  rewrite Hstrategy in Hstrategy'. injection Hstrategy' as <-.
  rewrite Hres in H.
  assert (d_apiCall d = length (heap s)) as Hl by by rewrite Hdeq.
  rewrite <- Hl in Hprep, E1, H.
  destruct Hq as (HhE & HdE & HrE & HeE).
  rewrite emit_eq in HhE, HdE, HrE, HeE. simpl in HhE, HdE, HrE, HeE.
  eexists _, r1, s3, (addDispatch d sE), _.
  split; [exact Hprep|]. split; [exact E1|]. split; [exact Hl|].
  split. { destruct (authorize_request _ _ _ Hauth) as (-> & _). done. }
  split; [exact HhE|]. split; [simpl; by rewrite HdE|]. split; [exact HrE|].
  split; [exact HeE|]. split; [done|]. split; [done|].
  split; [apply paramsAt_app_call|]. exact H.
Qed.

End FirstFailure.

(** X5.  The first request of a call fails with a provider error that
    the endpoint's auth strategy takes neither for an auth error nor
    for an expired token, and on which the service's [onApiError]
    answers [true].  Then the call fails with that very error after
    emitting [before], [error], [after]; it has dispatched one request,
    recorded no response on the call, refreshed nothing and left the
    caller's params alone. *)
Theorem call_rejects_with_provider_error
    svc name params eventContext overwriteUrl s res s' d e ep a :
  call svc name params eventContext overwriteUrl s = (res, s') →
  dispatched s' !! length (dispatched s) = Some d →
  d_result d = inl e →
  isRetryAPICall e = false →
  _endpoints svc !! name = Some ep →
  buildAuthStrategy svc ep = inr a →
  strategyIsAuthError a (d_call d) e = false →
  match a with
  | RefreshableBearerTokenAuthStrategy _ rp =>
    isAccessTokenExpiredError rp (d_call d) e = false
  | _ => True
  end →
  (isApiError svc e = true →
   onApiError svc (paramsAt (heap s) params) (Some a) (d_call d) e = inr true) →
  res = inl e
  ∧ dispatched s' = dispatched s ++ [d]
  ∧ refreshed s' = refreshed s
  ∧ paramsAt (heap s') params = paramsAt (heap s) params
  ∧ callAt (heap s') (d_apiCall d) = Some (d_call d)
  ∧ ∃ before error after,
      emitted s' = emitted s ++ [before; error; after]
      ∧ ev_type before = BEFORE ∧ ev_type error = ERROR ∧ ev_type after = AFTER
      ∧ ev_apiCall before = d_apiCall d ∧ ev_apiCall error = d_apiCall d
      ∧ ev_apiCall after = d_apiCall d.
Proof.
  intros Hcall Hd Hres Hnoretry Hep Hstrategy Hauth Hfresh Hhook.
  destruct (call_first_failure svc _ _ _ _ _ _ _ _ _ _ _ Hcall Hd Hres Hep Hstrategy)
    as (s1 & r1 & s3 & sD & before & Hprep & E1 & Hl & _ & HhD & HdD & HrD & HeD
        & Hb1 & Hb2 & Hb3 & H).
  assert (callAt (heap sD) (d_apiCall d) = Some (d_call d)) as HcD.
  { rewrite HhD, Hl. apply callAt_app_new. }
  assert (paramsAt (heap sD) params = paramsAt (heap s) params) as HpD.
  { rewrite HhD. apply paramsAt_app_call. }
  rewrite (onDoCallError_base svc a params _ _ e sD HcD Hfresh) in H.
  cbv zeta in H. rewrite Hauth, HpD in H.
  assert (r1 = inl e ∧ s3 = sD) as [-> ->].
  { destruct (isApiError svc e); [|done]. by rewrite Hhook in H. }
  destruct (call_fails_on_first_attempt svc _ _ _ _ _ _ _ _ _ _ _ _ Hcall Hprep E1 Hnoretry)
    as [-> ->].
  rewrite !emit_eq. cbn [snd]. simpl.
  split; [done|]. split; [done|]. split; [done|]. split; [done|]. split; [done|].
  eexists before, _, _. rewrite HeD, <- !app_assoc. by repeat split.
Qed.

Lemma call_rejects_with_provider_error_witness :
  (Demo.run (Demo.service [] Demo.alwaysServerError) "getEmpty" (Some 0%nat)).1 =
    inl (AxiosError (Some (Demo.status 500))).
Proof.
  destruct (dispatched (Demo.run (Demo.service [] Demo.alwaysServerError)
                          "getEmpty" (Some 0%nat)).2 !! 0%nat)
    as [d|] eqn:Hd; [|exfalso; revert Hd; vm_compute; discriminate].
  destruct (call_rejects_with_provider_error (Demo.service [] Demo.alwaysServerError)
              "getEmpty" (Some 0%nat) None None Demo.start
              (Demo.run (Demo.service [] Demo.alwaysServerError) "getEmpty"
                 (Some 0%nat)).1
              (Demo.run (Demo.service [] Demo.alwaysServerError) "getEmpty"
                 (Some 0%nat)).2
              d (AxiosError (Some (Demo.status 500)))
              (Demo.endpointOf "getEmpty" "GET" "/get/empty" None None)
              NoneAuthStrategy)
    as (Hres & _).
  - unfold Demo.run. by destruct (call _ _ _ _ _ _).
  - exact Hd.
  - revert Hd. vm_compute. by intros [= <-].
  - reflexivity.
  - vm_compute. reflexivity.
  - vm_compute. reflexivity.
  - reflexivity.
  - exact I.
  - reflexivity.
  - exact Hres.
Defined.

(** X6.  The first request of a call fails with a provider error that
    the auth strategy takes for an auth error (and not for an expired
    token), the strategy keeps the [onAuthError] of the base class, and
    the service's [onApiError] does not throw.  Then the call fails with
    [AuthenticationFailed] for the first call, wrapping the provider
    error, whatever the service hook answers; [before], [error], [after]
    are emitted and nothing is retried. *)
Theorem call_auth_error_is_authentication_failed
    svc name params eventContext overwriteUrl s res s' d e ep a answer :
  call svc name params eventContext overwriteUrl s = (res, s') →
  dispatched s' !! length (dispatched s) = Some d →
  d_result d = inl e →
  _endpoints svc !! name = Some ep →
  buildAuthStrategy svc ep = inr a →
  isApiError svc e = true →
  strategyIsAuthError a (d_call d) e = true →
  onAuthError (strategyParams a) = None →
  match a with
  | RefreshableBearerTokenAuthStrategy _ rp =>
    isAccessTokenExpiredError rp (d_call d) e = false
  | _ => True
  end →
  onApiError svc (paramsAt (heap s) params) (Some a) (d_call d) e = inr answer →
  res = inl (AuthenticationFailed (d_apiCall d) e)
  ∧ dispatched s' = dispatched s ++ [d]
  ∧ refreshed s' = refreshed s
  ∧ paramsAt (heap s') params = paramsAt (heap s) params
  ∧ ∃ before error after,
      emitted s' = emitted s ++ [before; error; after]
      ∧ ev_type before = BEFORE ∧ ev_type error = ERROR ∧ ev_type after = AFTER.
Proof.
  intros Hcall Hd Hres Hep Hstrategy Hapi Hauth Hdefault Hfresh Hhook.
  destruct (call_first_failure svc _ _ _ _ _ _ _ _ _ _ _ Hcall Hd Hres Hep Hstrategy)
    as (s1 & r1 & s3 & sD & before & Hprep & E1 & Hl & _ & HhD & HdD & HrD & HeD
        & Hb1 & Hb2 & Hb3 & H).
  assert (callAt (heap sD) (d_apiCall d) = Some (d_call d)) as HcD.
  { rewrite HhD, Hl. apply callAt_app_new. }
  assert (paramsAt (heap sD) params = paramsAt (heap s) params) as HpD.
  { rewrite HhD. apply paramsAt_app_call. }
  rewrite (onDoCallError_base svc a params _ _ e sD HcD Hfresh) in H.
  cbv zeta in H. rewrite Hapi, Hauth, HpD, Hhook in H.
  unfold strategyOnAuthError in H. rewrite Hdefault in H. destruct H as [-> ->].
  destruct (call_fails_on_first_attempt svc _ _ _ _ _ _ _ _ _ _ _ _ Hcall Hprep E1 eq_refl)
    as [-> ->].
  rewrite !emit_eq. cbn [snd]. simpl.
  split; [done|]. split; [done|]. split; [done|]. split; [done|].
  eexists before, _, _. rewrite HeD, <- !app_assoc. by repeat split.
Qed.

Lemma call_auth_error_is_authentication_failed_witness :
  (Demo.run (Demo.service [Demo.strict] Demo.alwaysServerError)
     "bearerAuthEndpoint" (Some 0%nat)).1 =
    inl (AuthenticationFailed 1%nat (AxiosError (Some (Demo.status 500)))).
Proof.
  destruct (dispatched (Demo.run (Demo.service [Demo.strict] Demo.alwaysServerError)
                          "bearerAuthEndpoint" (Some 0%nat)).2 !! 0%nat)
    as [d|] eqn:Hd; [|exfalso; revert Hd; vm_compute; discriminate].
  assert (d_apiCall d = 1%nat) as Hl by (revert Hd; vm_compute; by intros [= <-]).
  destruct (call_auth_error_is_authentication_failed
              (Demo.service [Demo.strict] Demo.alwaysServerError)
              "bearerAuthEndpoint" (Some 0%nat) None None Demo.start
              (Demo.run (Demo.service [Demo.strict] Demo.alwaysServerError)
                 "bearerAuthEndpoint" (Some 0%nat)).1
              (Demo.run (Demo.service [Demo.strict] Demo.alwaysServerError)
                 "bearerAuthEndpoint" (Some 0%nat)).2
              d (AxiosError (Some (Demo.status 500)))
              (Demo.endpointOf "bearerAuthEndpoint" "GET" "/bearer-auth"
                 (Some BEARER_TOKEN) None)
              Demo.strict true)
    as (Hres & _).
  - unfold Demo.run. by destruct (call _ _ _ _ _ _).
  - exact Hd.
  - revert Hd. vm_compute. by intros [= <-].
  - vm_compute. reflexivity.
  - vm_compute. reflexivity.
  - reflexivity.
  - reflexivity.
  - reflexivity.
  - exact I.
  - reflexivity.
  - rewrite Hres, Hl. reflexivity.
Defined.

(** X7.  The first request of a call fails with a provider error, the
    auth strategy does not take it for an auth error or an expired
    token, and the service's [onApiError] answers [false].  Then the
    error is dropped and the call goes on without a response: on an
    endpoint without normalization it returns nothing, after [before],
    [success], [after]; on an endpoint with a normalization it fails on
    the missing response, after [before] alone. *)
Theorem call_vetoed_error_returns_nothing
    svc name params eventContext overwriteUrl s res s' d e ep a :
  call svc name params eventContext overwriteUrl s = (res, s') →
  dispatched s' !! length (dispatched s) = Some d →
  d_result d = inl e →
  _endpoints svc !! name = Some ep →
  buildAuthStrategy svc ep = inr a →
  isApiError svc e = true →
  strategyIsAuthError a (d_call d) e = false →
  match a with
  | RefreshableBearerTokenAuthStrategy _ rp =>
    isAccessTokenExpiredError rp (d_call d) e = false
  | _ => True
  end →
  onApiError svc (paramsAt (heap s) params) (Some a) (d_call d) e = inr false →
  dispatched s' = dispatched s ++ [d]
  ∧ refreshed s' = refreshed s
  ∧ match ep_normalizationMapping ep with
    | None =>
      res = inr None ∧
      ev_type <$> emitted s' = (ev_type <$> emitted s) ++ [BEFORE; SUCCESS; AFTER]
    | Some _ =>
      res = inl (TypeError "Cannot read properties of undefined (reading 'data')") ∧
      ev_type <$> emitted s' = (ev_type <$> emitted s) ++ [BEFORE]
    end.
Proof.
  intros Hcall Hd Hres Hep Hstrategy Hapi Hauth Hfresh Hhook.
  destruct (call_first_failure svc _ _ _ _ _ _ _ _ _ _ _ Hcall Hd Hres Hep Hstrategy)
    as (s1 & r1 & s3 & sD & before & Hprep & E1 & Hl & Hepc & HhD & HdD & HrD & HeD
        & Hb1 & Hb2 & Hb3 & H).
  assert (callAt (heap sD) (d_apiCall d) = Some (d_call d)) as HcD.
  { rewrite HhD, Hl. apply callAt_app_new. }
  assert (paramsAt (heap sD) params = paramsAt (heap s) params) as HpD.
  { rewrite HhD. apply paramsAt_app_call. }
  rewrite (onDoCallError_base svc a params _ _ e sD HcD Hfresh) in H.
  cbv zeta in H. rewrite Hapi, Hauth, HpD, Hhook in H.
  unfold bind, setResponse in H. rewrite (updateCall_Some _ _ _ _ HcD) in H.
  injection H as -> ->.
  rewrite call_unfold, Hprep, E1 in Hcall.
  set (c' := withResponse None (d_call d)) in *.
  set (s3 := setHeap _ sD) in *.
  assert (callAt (heap s3) (d_apiCall d) = Some c') as Hc3.
  { apply callAt_insert. by eapply callAt_lt. }
  destruct (completeCall_noResponse svc name params _ c' s3 Hc3 eq_refl)
    as (sF & HdF & HrF & _ & HF).
  change (endpoint c') with (endpoint (d_call d)) in HF. rewrite Hepc in HF.
  destruct (ep_normalizationMapping ep) as [rule|].
  - destruct HF as [Heq Hem]. rewrite Hcall in Heq. injection Heq as -> <-.
    split; [by rewrite HdF|]. split; [by rewrite HrF|]. split; [done|].
    rewrite Hem. simpl. by rewrite HeD, fmap_app, <- Hb1.
  - destruct HF as (Heq & success & after & Hem & Hs & Ha & _).
    rewrite Hcall in Heq. injection Heq as -> <-.
    split; [by rewrite HdF|]. split; [by rewrite HrF|]. split; [done|].
    rewrite Hem. simpl. rewrite HeD, <- app_assoc, fmap_app. simpl.
    by rewrite Hb1, Hs, Ha.
Qed.

Lemma call_vetoed_error_returns_nothing_witness :
  (Demo.run Demo.vetoingServiceAndHook "getEmpty" (Some 0%nat)).1 = inr None.
Proof.
  destruct (dispatched (Demo.run Demo.vetoingServiceAndHook "getEmpty"
                          (Some 0%nat)).2 !! 0%nat)
    as [d|] eqn:Hd; [|exfalso; revert Hd; vm_compute; discriminate].
  destruct (call_vetoed_error_returns_nothing Demo.vetoingServiceAndHook
              "getEmpty" (Some 0%nat) None None Demo.start
              (Demo.run Demo.vetoingServiceAndHook "getEmpty" (Some 0%nat)).1
              (Demo.run Demo.vetoingServiceAndHook "getEmpty" (Some 0%nat)).2
              d (AxiosError (Some (Demo.status 500)))
              (Demo.endpointOf "getEmpty" "GET" "/get/empty" None None)
              NoneAuthStrategy)
    as (_ & _ & Hres & _).
  - unfold Demo.run. by destruct (call _ _ _ _ _ _).
  - exact Hd.
  - revert Hd. vm_compute. by intros [= <-].
  - vm_compute. reflexivity.
  - vm_compute. reflexivity.
  - reflexivity.
  - reflexivity.
  - exact I.
  - reflexivity.
  - exact Hres.
Defined.

(** ** A refresh that does not come about *)

Section RefreshFails.

Variable svc : Service.

(** The [catch] block when the refreshable strategy throws anything
    but the retry signal: the service hook is consulted, and the
    strategy's exception is rethrown. *)
Lemma onDoCallError_strategy_throws ap rp p l e s x s1 c1 answer :
  isApiError svc e = true →
  refreshableOnApiError svc (RefreshableBearerTokenAuthStrategy ap rp) rp p l e s =
    (inl x, s1) →
  isRetryAPICall x = false →
  callAt (heap s1) l = Some c1 →
  onApiError svc (paramsAt (heap s1) p) (Some (RefreshableBearerTokenAuthStrategy ap rp))
    c1 e = inr answer →
  onDoCallError svc p l (Some (RefreshableBearerTokenAuthStrategy ap rp)) e s = (inl x, s1).
Proof.
  intros Hapi E Hx Hc1 Hhook. unfold onDoCallError. rewrite Hapi.
  unfold bind at 1, tryCatch at 1, bind at 1. unfold strategyOnApiError. rewrite E, Hx.
  simpl negb. cbv iota. unfold bind at 1, bind at 1.
  unfold serviceOnApiError, bind, readParams, gets.
  rewrite (readCall_Some _ _ _ Hc1). unfold lift. by rewrite Hhook.
Qed.

End RefreshFails.

(** X8.  A refreshable strategy whose [buildRefreshAccessTokenPayload]
    was never assigned: when the first request of a call fails with an
    error it takes for an expired token, the call fails with the
    strategy's configuration error, not with the provider's.
    [refreshAccessToken] is not invoked, the caller's params are left
    alone, nothing is retried, and [before], [error], [after] are
    emitted. *)
Theorem call_refresh_not_configured
    svc name params eventContext overwriteUrl s res s' d e ep ap rp answer :
  call svc name params eventContext overwriteUrl s = (res, s') →
  dispatched s' !! length (dispatched s) = Some d →
  d_result d = inl e →
  _endpoints svc !! name = Some ep →
  buildAuthStrategy svc ep = inr (RefreshableBearerTokenAuthStrategy ap rp) →
  isApiError svc e = true →
  isAccessTokenExpiredError rp (d_call d) e = true →
  buildRefreshAccessTokenPayload rp = None →
  onApiError svc (paramsAt (heap s) params)
    (Some (RefreshableBearerTokenAuthStrategy ap rp)) (d_call d) e = inr answer →
  (∃ message, res = inl (OtherError message))
  ∧ dispatched s' = dispatched s ++ [d]
  ∧ refreshed s' = refreshed s
  ∧ paramsAt (heap s') params = paramsAt (heap s) params
  ∧ ev_type <$> emitted s' = (ev_type <$> emitted s) ++ [BEFORE; ERROR; AFTER].
Proof.
  intros Hcall Hd Hres Hep Hstrategy Hapi Hexp Hbuild Hhook.
  destruct (call_first_failure svc _ _ _ _ _ _ _ _ _ _ _ Hcall Hd Hres Hep Hstrategy)
    as (s1 & r1 & s3 & sD & before & Hprep & E1 & Hl & _ & HhD & HdD & HrD & HeD
        & Hb1 & Hb2 & Hb3 & H).
  assert (callAt (heap sD) (d_apiCall d) = Some (d_call d)) as HcD.
  { rewrite HhD, Hl. apply callAt_app_new. }
  assert (paramsAt (heap sD) params = paramsAt (heap s) params) as HpD.
  { rewrite HhD. apply paramsAt_app_call. }
  assert (onDoCallError svc params (d_apiCall d)
            (Some (RefreshableBearerTokenAuthStrategy ap rp)) e sD =
            (inl (OtherError "buildRefreshAccessTokenPayload not provided"), sD)) as EQ.
  { eapply onDoCallError_strategy_throws; [done| |done|exact HcD|].
    - unfold refreshableOnApiError, bind.
      by rewrite (readCall_Some _ _ _ HcD), Hexp, Hbuild.
    - rewrite HpD. exact Hhook. }
  rewrite EQ in H. destruct H as [-> ->].
  destruct (call_fails_on_first_attempt svc _ _ _ _ _ _ _ _ _ _ _ _ Hcall Hprep E1 eq_refl)
    as [-> ->].
  rewrite !emit_eq. cbn [snd]. simpl.
  split; [by eexists|]. split; [done|]. split; [done|]. split; [done|].
  rewrite HeD, <- !app_assoc, fmap_app. simpl. by rewrite Hb1.
Qed.

Lemma call_refresh_not_configured_witness :
  refreshed (Demo.run (Demo.service [Demo.unconfigured] Demo.alwaysExpired)
               "refreshableBearerAuthEndpoint" (Some 0%nat)).2 = []
  ∧ ∃ message,
      (Demo.run (Demo.service [Demo.unconfigured] Demo.alwaysExpired)
         "refreshableBearerAuthEndpoint" (Some 0%nat)).1 = inl (OtherError message).
Proof.
  destruct (dispatched (Demo.run (Demo.service [Demo.unconfigured] Demo.alwaysExpired)
                          "refreshableBearerAuthEndpoint" (Some 0%nat)).2 !! 0%nat)
    as [d|] eqn:Hd; [|exfalso; revert Hd; vm_compute; discriminate].
  destruct (call_refresh_not_configured
              (Demo.service [Demo.unconfigured] Demo.alwaysExpired)
              "refreshableBearerAuthEndpoint" (Some 0%nat) None None Demo.start
              (Demo.run (Demo.service [Demo.unconfigured] Demo.alwaysExpired)
                 "refreshableBearerAuthEndpoint" (Some 0%nat)).1
              (Demo.run (Demo.service [Demo.unconfigured] Demo.alwaysExpired)
                 "refreshableBearerAuthEndpoint" (Some 0%nat)).2
              d (AxiosError (Some (Demo.status 401))) Demo.guardedEndpoint
              noAuthStrategyParams Demo.unconfiguredParams true)
    as (Hres & _ & Hrefreshed & _).
  - unfold Demo.run. by destruct (call _ _ _ _ _ _).
  - exact Hd.
  - revert Hd. vm_compute. by intros [= <-].
  - vm_compute. reflexivity.
  - vm_compute. reflexivity.
  - reflexivity.
  - reflexivity.
  - reflexivity.
  - reflexivity.
  - split; [exact Hrefreshed | exact Hres].
Defined.

(** X9.  The first request of a call fails with an error the
    refreshable strategy takes for an expired token, and the refresh
    itself fails with [failure].  Then the call fails with [failure],
    not with the provider's error; [refreshAccessToken] was invoked
    once and nothing is retried; the caller's params object keeps the
    refresh payload, and that is what the listeners of [error] and
    [after] see. *)
Theorem call_refresh_failure
    svc name params eventContext overwriteUrl s res s' d e ep ap rp build p0 failure
    answer :
  call svc name params eventContext overwriteUrl s = (res, s') →
  dispatched s' !! length (dispatched s) = Some d →
  d_result d = inl e →
  _endpoints svc !! name = Some ep →
  buildAuthStrategy svc ep = inr (RefreshableBearerTokenAuthStrategy ap rp) →
  isApiError svc e = true →
  isAccessTokenExpiredError rp (d_call d) e = true →
  buildRefreshAccessTokenPayload rp = Some build →
  paramsAt (heap s) params = Some p0 →
  refreshAccessToken rp (withPayload (build p0) p0) = inl failure →
  isRetryAPICall failure = false →
  onApiError svc (Some (withPayload (build p0) p0))
    (Some (RefreshableBearerTokenAuthStrategy ap rp)) (d_call d) e = inr answer →
  res = inl failure
  ∧ dispatched s' = dispatched s ++ [d]
  ∧ refreshed s' = refreshed s ++ [withPayload (build p0) p0]
  ∧ paramsAt (heap s') params = Some (withPayload (build p0) p0)
  ∧ ∃ before error after,
      emitted s' = emitted s ++ [before; error; after]
      ∧ ev_type before = BEFORE ∧ ev_type error = ERROR ∧ ev_type after = AFTER
      ∧ ev_paramsSeen before = Some p0
      ∧ ev_paramsSeen error = Some (withPayload (build p0) p0)
      ∧ ev_paramsSeen after = Some (withPayload (build p0) p0).
Proof.
  intros Hcall Hd Hres Hep Hstrategy Hapi Hexp Hbuild Hp0 Hfail Hnoretry Hhook.
  destruct params as [pl|]; [|done].
  destruct (call_first_failure svc _ _ _ _ _ _ _ _ _ _ _ Hcall Hd Hres Hep Hstrategy)
    as (s1 & r1 & s3 & sD & before & Hprep & E1 & Hl & _ & HhD & HdD & HrD & HeD
        & Hb1 & Hb2 & Hb3 & H).
  assert (callAt (heap sD) (d_apiCall d) = Some (d_call d)) as HcD.
  { rewrite HhD, Hl. apply callAt_app_new. }
  assert (paramsAt (heap sD) (Some pl) = Some p0) as HpD.
  { rewrite HhD, paramsAt_app_call. exact Hp0. }
  pose proof (distinct_locations _ _ _ _ _ HcD HpD) as Hne.
  set (p1 := withPayload (build p0) p0) in *.
  set (sA := addRefresh p1 (setHeap (<[pl := ObjParams p1]> (heap sD)) sD)).
  assert (paramsAt (heap sA) (Some pl) = Some p1) as HpA
    by (simpl heap; by eapply paramsAt_insert_eq).
  assert (onDoCallError svc (Some pl) (d_apiCall d)
            (Some (RefreshableBearerTokenAuthStrategy ap rp)) e sD = (inl failure, sA))
    as EQ.
  { eapply (onDoCallError_strategy_throws svc ap rp (Some pl) _ e sD failure sA (d_call d));
      [done| |done| |].
    - rewrite (refreshableOnApiError_eq svc _ rp build pl p0 _ _ e sD HcD Hexp Hbuild HpD).
      cbv zeta. fold p1. by rewrite Hfail.
    - simpl heap. by rewrite callAt_insert_params.
    - rewrite HpA. exact Hhook. }
  rewrite EQ in H. destruct H as [-> ->].
  destruct (call_fails_on_first_attempt svc _ _ _ _ _ _ _ _ _ _ _ _ Hcall Hprep E1 Hnoretry)
    as [-> ->].
  rewrite !emit_eq. cbn [snd].
  split; [done|]. split; [simpl; exact HdD|]. split; [simpl; by rewrite HrD|].
  split; [exact HpA|].
  eexists before, _, _. simpl emitted. rewrite HeD, <- !app_assoc.
  split; [reflexivity|]. simpl. rewrite Hb3, Hp0. by repeat split.
Qed.

Lemma call_refresh_failure_witness :
  (Demo.run (Demo.service [Demo.failingRefresh] Demo.alwaysExpired)
     "refreshableBearerAuthEndpoint" (Some 0%nat)).1 =
    inl (AxiosError (Some (Demo.status 400)))
  ∧ paramsAt
      (heap (Demo.run (Demo.service [Demo.failingRefresh] Demo.alwaysExpired)
               "refreshableBearerAuthEndpoint" (Some 0%nat)).2) (Some 0%nat) =
    Some (withPayload (Some Demo.refreshPayload) Demo.params).
Proof.
  destruct (dispatched (Demo.run (Demo.service [Demo.failingRefresh] Demo.alwaysExpired)
                          "refreshableBearerAuthEndpoint" (Some 0%nat)).2 !! 0%nat)
    as [d|] eqn:Hd; [|exfalso; revert Hd; vm_compute; discriminate].
  destruct (call_refresh_failure
              (Demo.service [Demo.failingRefresh] Demo.alwaysExpired)
              "refreshableBearerAuthEndpoint" (Some 0%nat) None None Demo.start
              (Demo.run (Demo.service [Demo.failingRefresh] Demo.alwaysExpired)
                 "refreshableBearerAuthEndpoint" (Some 0%nat)).1
              (Demo.run (Demo.service [Demo.failingRefresh] Demo.alwaysExpired)
                 "refreshableBearerAuthEndpoint" (Some 0%nat)).2
              d (AxiosError (Some (Demo.status 401))) Demo.guardedEndpoint
              noAuthStrategyParams Demo.failingRefreshParams
              (λ _, Some Demo.refreshPayload) Demo.params
              (AxiosError (Some (Demo.status 400))) true)
    as (Hres & _ & _ & Hparams & _).
  - unfold Demo.run. by destruct (call _ _ _ _ _ _).
  - exact Hd.
  - revert Hd. vm_compute. by intros [= <-].
  - vm_compute. reflexivity.
  - vm_compute. reflexivity.
  - reflexivity.
  - reflexivity.
  - reflexivity.
  - reflexivity.
  - reflexivity.
  - reflexivity.
  - reflexivity.
  - split; [exact Hres | exact Hparams].
Defined.

(** ** Calls that cannot be retried *)

(** X10.  On an endpoint whose auth strategy is not the refreshable
    one, a call dispatches at most one request, invokes no refresh and
    leaves the caller's params object as it was, whatever the transport
    answers.  (The transport, the strategy's [onAuthError] and the
    service's [onApiError] do not forge the retry signal.) *)
Theorem call_retries_only_on_refresh
    svc name params eventContext overwriteUrl s res s' ep a :
  _endpoints svc !! name = Some ep →
  buildAuthStrategy svc ep = inr a →
  strategyType a ≠ REFRESHABLE_BEARER_TOKEN →
  (∀ n config, raisesNoRetry (httpRequest svc n config)) →
  (∀ q l c e, raisesNoRetry (strategyOnAuthError a q l c e)) →
  (∀ q x c e, raisesNoRetry (onApiError svc q x c e)) →
  call svc name params eventContext overwriteUrl s = (res, s') →
  dispatchesUpTo 1 s s'
  ∧ refreshed s' = refreshed s
  ∧ paramsAt (heap s') params = paramsAt (heap s) params.
Proof.
  intros Hep Hstrategy Hplain Htransport Hauth Hhook Hcall.
  assert (∀ s0, dispatched s0 = dispatched s → dispatchesUpTo 1 s s0) as Hzero.
  { intros s0 H0. exists []. rewrite app_nil_r. split; [done | simpl; lia]. }
  pose proof Hcall as Hcall'. rewrite call_unfold in Hcall'.
  destruct (prepareCall svc name params overwriteUrl s) as [[e|[a' l]] s1] eqn:Hprep.
  { injection Hcall' as <- <-.
    pose proof (steps_prepareCall heapOnly
                  (λ s o, ex_intro _ _ eq_refl) (λ s l c c' _, ex_intro _ _ eq_refl)
                  svc name params overwriteUrl s) as [h Hh].
    rewrite Hprep in Hh. simpl in Hh.
    revert Hprep. rewrite prepareCall_eq, Hep, Hstrategy. cbv zeta.
    destruct (callUrl svc ep _ overwriteUrl) as [?|url]; [by intros [= <- <-]; auto|].
    destruct (authorize a _) as [c|].
    - destruct (validMethod c); [done|]. intros [= <- <-].
      split; [by apply Hzero|]. split; [done|]. simpl. apply paramsAt_app_call.
    - intros [= <- <-]. split; [by apply Hzero|]. split; [done|].
      simpl. apply paramsAt_app_call. }
  destruct (prepareCall_inr _ _ _ _ _ _ _ _ Hprep)
    as (ep' & url & c & Hep' & Hstrategy' & _ & _ & _ & -> & ->).
  rewrite Hep in Hep'. injection Hep' as <-.
  rewrite Hstrategy in Hstrategy'. injection Hstrategy' as <-.
  set (l := length (heap s)) in *.
  set (s1 := setHeap (heap s ++ [ObjCall c]) s) in *.
  destruct (executeApiCall svc params l (Some a) (emit svc name BEFORE params l s1).2)
    as [r1 s3] eqn:E1.
  assert (callAt (heap (emit svc name BEFORE params l s1).2) l = Some c) as Hc
    by apply callAt_app_new.
  assert (∀ sQ, quiet (emit svc name BEFORE params l s1).2 sQ →
            dispatched sQ = dispatched s ∧ refreshed sQ = refreshed s ∧
            heap sQ = heap s ++ [ObjCall c]) as Hquiet.
  { intros sQ (HhQ & HdQ & HrQ & _). by rewrite HhQ, HdQ, HrQ. }
  assert (∀ x sX, r1 = inl x → s3 = sX → isRetryAPICall x = false →
            s' = (emit svc name AFTER params l (emit svc name ERROR params l sX).2).2)
    as Hfail.
  { intros x sX -> -> Hx.
    by destruct (call_fails_on_first_attempt svc _ _ _ _ _ _ _ _ _ _ _ _ Hcall Hprep E1 Hx). }
  destruct (executeApiCall_cases _ _ _ _ _ _ _ _ Hc E1)
    as [(Hr1 & Hq & _)|[(_ & -> & sE & Hq & ->)|(_ & sE & Hq & H)]].
  - rewrite (Hfail _ _ Hr1 eq_refl eq_refl). destruct (Hquiet _ Hq) as (Hd & Hr & Hh).
    rewrite !emit_eq. simpl. split; [by apply Hzero|]. split; [done|].
    rewrite Hh. apply paramsAt_app_call.
  - destruct (Hquiet _ Hq) as (Hd & Hr & Hh).
    set (s3 := setHeap _ (addLog WarnDryRun sE)) in *.
    assert (callAt (heap (addLog WarnDryRun sE)) l = Some c) as HcL.
    { simpl. rewrite Hh. apply callAt_app_new. }
    assert (callAt (heap s3) l = Some (withResponse (Some dryRunResponse) c)) as Hc3.
    { apply callAt_insert. by eapply callAt_lt. }
    destruct (completeCall_inv svc name params l _ dryRunResponse s3 Hc3 eq_refl)
      as (sF & Heq & HdF & HrF & HpF & _).
    cbv zeta in Heq. rewrite Hcall' in Heq. injection Heq as _ <-.
    split; [apply Hzero; by rewrite HdF|]. split; [by rewrite HrF|].
    rewrite HpF. unfold s3. simpl heap.
    rewrite (paramsAt_insert_over_call _ _ _ c) by exact HcL.
    simpl heap. rewrite Hh. apply paramsAt_app_call.
  - destruct (Hquiet _ Hq) as (Hd & Hr & Hh). cbv zeta in H. destruct H as [Hd3 H].
    set (result := httpRequest svc _ _) in *.
    set (d := {| d_apiCall := l; d_call := c; d_result := result |}) in *.
    set (sD := addDispatch d sE) in *.
    assert (∀ s0, dispatched s0 = dispatched sD → dispatchesUpTo 1 s s0) as Hone.
    { intros s0 H0. exists [d]. split; [|done]. rewrite H0. simpl. by rewrite Hd. }
    assert (callAt (heap sD) l = Some c) as HcD.
    { simpl. rewrite Hh. apply callAt_app_new. }
    assert (paramsAt (heap sD) params = paramsAt (heap s) params) as HpD.
    { simpl. rewrite Hh. apply paramsAt_app_call. }
    assert (∀ resp,
              completeCall svc name params l
                (setHeap (<[l := ObjCall (withResponse resp c)]> (heap sD)) sD) = (res, s')
              → dispatched s' = dispatched sD ∧ refreshed s' = refreshed s ∧
                paramsAt (heap s') params = paramsAt (heap s) params) as Hdone.
    { intros resp Hcomplete.
      set (sR := setHeap _ sD) in *.
      assert (callAt (heap sR) l = Some (withResponse resp c)) as HcR.
      { apply callAt_insert. by eapply callAt_lt. }
      assert (paramsAt (heap sR) params = paramsAt (heap s) params) as HpR.
      { unfold sR. simpl heap. rewrite (paramsAt_insert_over_call _ _ _ c) by exact HcD.
        exact HpD. }
      destruct resp as [resp|].
      - destruct (completeCall_inv svc name params l _ resp sR HcR eq_refl)
          as (sF & Heq & HdF & HrF & HpF & _).
        cbv zeta in Heq. rewrite Hcomplete in Heq. injection Heq as _ <-.
        rewrite HdF, HrF, HpF. simpl. by rewrite Hr.
      - destruct (completeCall_noResponse svc name params l _ sR HcR eq_refl)
          as (sF & HdF & HrF & HpF & HF).
        assert (s' = sF) as ->.
        { destruct (ep_normalizationMapping _); destruct HF as [Heq _];
            rewrite Hcomplete in Heq; by injection Heq. }
        rewrite HdF, HrF, HpF. simpl. by rewrite Hr. }
    destruct result as [e|resp] eqn:Hresult.
    + pose proof (Htransport (length (dispatched (emit svc name BEFORE params l s1).2))
                    (requestConfig c)) as He.
      fold result in He. rewrite Hresult in He. simpl in He.
      rewrite (onDoCallError_base svc a params l c e sD HcD) in H
        by (by destruct a).
      cbv zeta in H.
      assert (∀ x, r1 = inl x → s3 = sD → isRetryAPICall x = false →
                dispatchesUpTo 1 s s' ∧ refreshed s' = refreshed s ∧
                paramsAt (heap s') params = paramsAt (heap s) params) as Hthrown.
      { intros x Hx1 Hx2 Hx. rewrite (Hfail _ _ Hx1 Hx2 Hx). rewrite !emit_eq. simpl.
        split; [by apply Hone|]. split; [done|]. rewrite Hh. apply paramsAt_app_call. }
      destruct (isApiError svc e); [|destruct H; by eapply Hthrown].
      specialize (Hauth (paramsAt (heap sD) params) l c e).
      specialize (Hhook (paramsAt (heap sD) params) (Some a) c e).
      destruct (if strategyIsAuthError a c e then _ else _) as [x|b] eqn:Hanswer.
      * assert (isRetryAPICall x = false) as Hx.
        { destruct (strategyIsAuthError a c e); [|done]. by rewrite Hanswer in Hauth. }
        destruct (onApiError svc _ _ c e) as [y|b'].
        -- rewrite Hx in H. destruct H. by eapply Hthrown.
        -- destruct H. by eapply Hthrown.
      * destruct (onApiError svc _ _ c e) as [y|[]].
        -- destruct H. by eapply Hthrown.
        -- destruct H. by eapply Hthrown.
        -- unfold bind, setResponse in H. rewrite (updateCall_Some _ _ _ _ HcD) in H.
           injection H as -> ->.
           destruct (Hdone None Hcall') as (HdF & HrF & HpF). split; [by apply Hone|]. done.
    + destruct H as [-> ->].
      destruct (Hdone (Some resp) Hcall') as (HdF & HrF & HpF). split; [by apply Hone|]. done.
Qed.

Lemma call_retries_only_on_refresh_witness :
  dispatchesUpTo 1 Demo.start
    (Demo.run (Demo.service [Demo.strict] Demo.alwaysExpired)
       "bearerAuthEndpoint" (Some 0%nat)).2.
Proof.
  destruct (call_retries_only_on_refresh
              (Demo.service [Demo.strict] Demo.alwaysExpired)
              "bearerAuthEndpoint" (Some 0%nat) None None Demo.start
              (Demo.run (Demo.service [Demo.strict] Demo.alwaysExpired)
                 "bearerAuthEndpoint" (Some 0%nat)).1
              (Demo.run (Demo.service [Demo.strict] Demo.alwaysExpired)
                 "bearerAuthEndpoint" (Some 0%nat)).2
              (Demo.endpointOf "bearerAuthEndpoint" "GET" "/bearer-auth"
                 (Some BEARER_TOKEN) None)
              Demo.strict)
    as (Hd & _).
  - vm_compute. reflexivity.
  - vm_compute. reflexivity.
  - discriminate.
  - intros n config. exact eq_refl.
  - intros q l c e. exact eq_refl.
  - intros q x c e. exact I.
  - unfold Demo.run. by destruct (call _ _ _ _ _ _).
  - exact Hd.
Defined.

(** ** Choosing the auth strategy *)

(** How [_.keyBy] fills the table: the last strategy of a type wins. *)
Lemma keyBy_lookup strategies t :
  keyBy strategies !! t = last (filter (λ a, strategyType a = t) strategies).
Proof.
  unfold keyBy.
  assert (∀ m : gmap AuthType AuthStrategy,
            fold_left (λ m a, <[strategyType a := a]> m) strategies m !! t =
               match last (filter (λ a, strategyType a = t) strategies) with
               | Some a => Some a
               | None => m !! t
               end) as H.
  { induction strategies as [|a strategies IH] using rev_ind; intros m; [done|].
    rewrite fold_left_app, filter_app. simpl fold_left.
    rewrite filter_cons, filter_nil.
    destruct (decide (strategyType a = t)) as [<-|Hne].
    - by rewrite lookup_insert_eq, last_snoc.
    - rewrite lookup_insert_ne by done. rewrite app_nil_r. apply IH. }
  rewrite H, lookup_empty. by destruct (last _).
Qed.

(** X11.  The strategy [buildAuthStrategy] gives an endpoint is of the
    type the endpoint asks for, or of the service's default type when it
    asks for none.  For [NONE] it is the built-in strategy, whatever the
    service has configured; for any other type it is the last strategy
    of that type in [useAuthStrategies()], and the call fails with the
    configuration error exactly when there is none. *)
Theorem buildAuthStrategy_spec svc endpoint :
  let t := default (defaultAuthStrategy svc) (ep_authentication endpoint) in
  match buildAuthStrategy svc endpoint with
  | inr a =>
    strategyType a = t ∧
    (t = NONE → a = NoneAuthStrategy) ∧
    (t ≠ NONE →
     ∃ earlier later,
       useAuthStrategies svc = earlier ++ a :: later ∧
       Forall (λ b, strategyType b ≠ t) later)
  | inl e =>
    e = AuthStrategyNotConfigured t (ep_name endpoint) ∧
    t ≠ NONE ∧
    Forall (λ b, strategyType b ≠ t) (useAuthStrategies svc)
  end.
Proof.
  cbv zeta. unfold buildAuthStrategy.
  replace (match ep_authentication endpoint with
           | Some t => t | None => defaultAuthStrategy svc end)
    with (default (defaultAuthStrategy svc) (ep_authentication endpoint))
    by by destruct (ep_authentication endpoint).
  set (t := default _ _).
  assert (match t with
          | NONE => Some NoneAuthStrategy
          | BEARER_TOKEN => _authStrategies svc !! BEARER_TOKEN
          | _ => _authStrategies svc !! t
          end = if decide (t = NONE) then Some NoneAuthStrategy
                else last (filter (λ a, strategyType a = t) (useAuthStrategies svc)))
    as ->.
  { unfold _authStrategies. rewrite <- keyBy_lookup. by destruct t. }
  destruct (decide (t = NONE)) as [Ht|Ht].
  { split; [by rewrite Ht|]. split; [done|]. by intros []. }
  destruct (last _) as [a|] eqn:Hlast.
  - apply last_Some in Hlast as [kept Hkept].
    assert (a ∈ filter (λ a, strategyType a = t) (useAuthStrategies svc)) as Hin.
    { rewrite Hkept. apply elem_of_app. right. by apply list_elem_of_singleton. }
    apply list_elem_of_filter in Hin as [Hta _].
    split; [done|]. split; [done|]. intros _.
    clear Ht. revert kept Hkept.
    induction (useAuthStrategies svc) as [|b l IH] using rev_ind; intros kept Hkept.
    { by destruct kept. }
    rewrite filter_app, filter_cons, filter_nil in Hkept.
    destruct (decide (strategyType b = t)) as [Hb|Hb].
    + apply app_inj_tail in Hkept as [_ ->]. exists l, []. by split.
    + rewrite app_nil_r in Hkept. destruct (IH _ Hkept) as (earlier & later & -> & Hlater).
      exists earlier, (later ++ [b]). split; [by rewrite <- app_assoc|].
      apply Forall_app. split; [done|]. by constructor.
  - split; [done|]. split; [done|].
    apply last_None in Hlast. apply Forall_forall. intros b Hb Htb.
    assert (b ∈ filter (λ a, strategyType a = t) (useAuthStrategies svc)) as Hin
      by by apply list_elem_of_filter.
    rewrite Hlast in Hin. by apply elem_of_nil in Hin.
Qed.

Lemma buildAuthStrategy_spec_witness :
  ∃ a,
    buildAuthStrategy (Demo.guardedService Demo.alwaysOk) Demo.guardedEndpoint = inr a
    ∧ strategyType a = REFRESHABLE_BEARER_TOKEN.
Proof.
  pose proof (buildAuthStrategy_spec (Demo.guardedService Demo.alwaysOk)
                Demo.guardedEndpoint) as H.
  cbv zeta in H.
  destruct (buildAuthStrategy (Demo.guardedService Demo.alwaysOk) Demo.guardedEndpoint)
    as [e|a].
  - exfalso. destruct H as (_ & _ & H). apply Forall_cons in H as [H _]. by apply H.
  - exists a. split; [reflexivity|]. by destruct H as [-> _].
Defined.

(** ** Resolving a URL *)

(** X12.  The check [constructUrl] runs before it replaces anything,
    [validatePathParams], passes exactly when every placeholder found
    in the resolved template is a property of [pathParams]: an own key
    or a member every object inherits, such as [toString].  Otherwise
    [constructUrl] fails with the error of the check, which lists the
    placeholders that are no property of [pathParams], all of them when
    there are no [pathParams] at all, and no others. *)
Theorem validatePathParams_fails_iff baseUrl url pathParams :
  let required := extractPathParamNames (resolveBaseUrl baseUrl url) in
  let provided name :=
    match pathParams with
    | Some entries => name ∈ entries.*1 ∨ name ∈ Object_prototype
    | None => False
    end in
  match validatePathParams url required pathParams with
  | inr _ => Forall provided required
  | inl e =>
    constructUrl baseUrl url pathParams = inl e ∧
    ∃ missing,
      e = MissingPathParameter url missing ∧ missing ≠ [] ∧
      ∀ name, name ∈ missing ↔ name ∈ required ∧ ¬ provided name
  end.
Proof.
  cbv zeta. unfold constructUrl.
  destruct (validatePathParams url _ pathParams) as [e|[]] eqn:Hvalid.
  - split; [done|]. revert Hvalid. unfold validatePathParams.
    destruct (extractPathParamNames _) as [|n names]; [done|].
    destruct pathParams as [entries|].
    + set (missing := List.filter _ _).
      assert (∀ name, name ∈ missing ↔
                name ∈ n :: names ∧ ¬ (name ∈ entries.*1 ∨ name ∈ Object_prototype))
        as Hmissing.
      { intros name. unfold missing. rewrite !list_elem_of_In, filter_In.
        rewrite <- !list_elem_of_In. unfold hasKey.
        rewrite negb_true_iff, orb_false_iff, !bool_decide_eq_false. tauto. }
      destruct missing as [|m missing]; [done|].
      intros [= <-]. eexists. split; [done|]. by split.
    + intros [= <-]. eexists. split; [done|]. split; [done|].
      intros name. split; [|by intros []]. intros Hname. split; [done|]. by intros [].
  - revert Hvalid. unfold validatePathParams.
    destruct (extractPathParamNames _) as [|n names]; [by constructor|].
    destruct pathParams as [entries|]; [|done].
    destruct (List.filter _ _) as [|m missing] eqn:Hfilter; [|done].
    intros _. apply Forall_forall. intros name Hname.
    destruct (hasKey name entries) eqn:Hkey.
    + unfold hasKey in Hkey. apply orb_true_iff in Hkey as [Hkey|Hkey];
        apply bool_decide_eq_true in Hkey; [by left | by right].
    + assert (name ∈ List.filter (λ param, negb (hasKey param entries)) (n :: names))
        as Hin by (apply list_elem_of_In, filter_In; split;
                     [by apply list_elem_of_In | by rewrite Hkey]).
      rewrite Hfilter in Hin. by apply elem_of_nil in Hin.
Qed.

Lemma validatePathParams_fails_iff_witness :
  ∃ missing,
    constructUrl "http://testapi.com" "/users/:userId/posts/:postId/:toString"
      (Some [("postId", "7")]) =
      inl (MissingPathParameter "/users/:userId/posts/:postId/:toString" missing)
    ∧ "userId" ∈ missing ∧ ("postId" ∉ missing) ∧ ("toString" ∉ missing).
Proof.
  pose proof (validatePathParams_fails_iff "http://testapi.com"
                "/users/:userId/posts/:postId/:toString" (Some [("postId", "7")])) as H.
  cbv zeta in H.
  assert (extractPathParamNames
            (resolveBaseUrl "http://testapi.com" "/users/:userId/posts/:postId/:toString") =
          ["userId"; "postId"; "toString"]) as E by reflexivity.
  rewrite E in H.
  destruct (validatePathParams "/users/:userId/posts/:postId/:toString"
              ["userId"; "postId"; "toString"] (Some [("postId", "7")])) as [e|result].
  - destruct H as (Hurl & missing & -> & _ & Hm). exists missing.
    split; [exact Hurl|]. split; [|split].
    + apply Hm. split; [by constructor|]. intros [Hin|Hin].
      * apply list_elem_of_singleton in Hin. discriminate.
      * apply list_elem_of_In in Hin. cbv in Hin. intuition discriminate.
    + intros Hin. apply Hm in Hin as [_ Hout]. apply Hout. left. by constructor.
    + intros Hin. apply Hm in Hin as [_ Hout]. apply Hout. right.
      apply list_elem_of_In. cbv. tauto.
  - exfalso. apply Forall_cons in H as [[H|H] _].
    + apply list_elem_of_singleton in H. discriminate.
    + apply list_elem_of_In in H. cbv in H. intuition discriminate.
Defined.

(** ** More on the rate limiter *)

(** X13.  What an admission check reports when the window has ended:
    [_lastWindowOverflow] becomes the number of calls that were rejected
    in the window that ended (0 when there were none), and one line is
    logged when there were any, an error when the number has grown over
    a previous overflow that was not zero, a warning otherwise.  An
    admission check within the window changes neither. *)
Theorem rate_limit_overflow_report svc s apiCall :
  let rejected := Z.of_nat (length (_rateLimitedApiCalls (window s))) in
  let previous := _lastWindowOverflow (window s) in
  let s' := (enforceGlobalRateLimit svc apiCall s).2 in
  if nextRateLimitWindow svc (window s) <=? Date_now svc (clockReads s) then
    _lastWindowOverflow (window s') = rejected ∧
    logged s' = logged s ++
      (if rejected =? 0 then []
       else if (0 <? previous) && (previous <? rejected)
            then [ErrorRateLimitedAndGrowing rejected (rejected - previous)]
            else [WarnRateLimited rejected (rejected - previous)])
  else
    _lastWindowOverflow (window s') = previous ∧ logged s' = logged s.
Proof.
  cbv zeta. rewrite enforceGlobalRateLimit_unfold. cbv zeta.
  destruct (nextRateLimitWindow svc (window s) <=? Date_now svc (clockReads s)).
  - set (t := Date_now svc (clockReads s)).
    assert (_lastWindowOverflow (window (rollWindow t (tick s)).2) =
              Z.of_nat (length (_rateLimitedApiCalls (window s)))
            ∧ logged (rollWindow t (tick s)).2 = logged s ++
                (if Z.of_nat (length (_rateLimitedApiCalls (window s))) =? 0 then []
                 else if (0 <? _lastWindowOverflow (window s)) &&
                         (_lastWindowOverflow (window s) <?
                          Z.of_nat (length (_rateLimitedApiCalls (window s))))
                      then [ErrorRateLimitedAndGrowing
                              (Z.of_nat (length (_rateLimitedApiCalls (window s))))
                              (Z.of_nat (length (_rateLimitedApiCalls (window s))) -
                               _lastWindowOverflow (window s))]
                      else [WarnRateLimited
                              (Z.of_nat (length (_rateLimitedApiCalls (window s))))
                              (Z.of_nat (length (_rateLimitedApiCalls (window s))) -
                               _lastWindowOverflow (window s))])) as [Hov Hlog].
    { unfold rollWindow, bind, gets, log, modify. simpl.
      destruct (Z.ltb_spec 0 (Z.of_nat (length (_rateLimitedApiCalls (window s)))))
        as [Hpos|Hzero]; simpl.
      - destruct (Z.eqb_spec (Z.of_nat (length (_rateLimitedApiCalls (window s)))) 0);
          [lia|].
        by destruct ((0 <? _lastWindowOverflow (window s)) && _).
      - destruct (Z.eqb_spec (Z.of_nat (length (_rateLimitedApiCalls (window s)))) 0);
          [|lia].
        split; [lia|]. by rewrite app_nil_r. }
    by destruct (rateLimit svc <=? _).
  - by destruct (rateLimit svc <=? _).
Qed.

Lemma rate_limit_overflow_report_witness :
  _lastWindowOverflow
    (window (enforceGlobalRateLimit Demo.publicService 1%nat Demo.stale).2) = 1
  ∧ logged (enforceGlobalRateLimit Demo.publicService 1%nat Demo.stale).2 =
      [WarnRateLimited 1 1].
Proof.
  pose proof (rate_limit_overflow_report Demo.publicService Demo.stale 1%nat) as H.
  cbv zeta in H.
  assert ((nextRateLimitWindow Demo.publicService (window Demo.stale) <=?
           Date_now Demo.publicService (clockReads Demo.stale)) = true) as E
    by reflexivity.
  rewrite E in H. exact H.
Defined.

Section Series.

Variable svc : Service.

(** The state after admission checks for a series of calls. *)
Lemma checks_cons l calls s :
  fold_left (λ s l, (enforceGlobalRateLimit svc l s).2) (l :: calls) s =
  fold_left (λ s l, (enforceGlobalRateLimit svc l s).2) calls
    (enforceGlobalRateLimit svc l s).2.
Proof. reflexivity. Qed.

End Series.

(** X14.  A series of admission checks that all fall into the current
    window admits the first calls, as many as the window has room for,
    and rejects all the others: the counter grows by the number
    admitted, and the rejected calls are appended to the overflow
    buffer in the order they came. *)
Theorem rate_limit_series svc calls s :
  (∀ k, (k < length calls)%nat →
        Date_now svc (clockReads s + k) < nextRateLimitWindow svc (window s)) →
  let room := Z.to_nat (rateLimit svc - _rateLimitWindowCounter (window s)) in
  let s' := fold_left (λ s l, (enforceGlobalRateLimit svc l s).2) calls s in
  _rateLimitWindowCounter (window s') =
    _rateLimitWindowCounter (window s) + Z.of_nat (min (length calls) room)
  ∧ _rateLimitedApiCalls (window s') = _rateLimitedApiCalls (window s) ++ drop room calls
  ∧ _currentRateLimitWindowStart (window s') = _currentRateLimitWindowStart (window s)
  ∧ clockReads s' = (clockReads s + length calls)%nat.
Proof.
  cbv zeta. revert s. induction calls as [|l calls IH]; intros s Hin.
  { simpl. rewrite drop_nil, app_nil_r. repeat split; lia. }
  rewrite checks_cons.
  assert (sameWindow svc s) as Hw.
  { unfold sameWindow. specialize (Hin 0%nat). rewrite Nat.add_0_r in Hin.
    apply Hin. simpl. lia. }
  destruct (Z.lt_ge_cases (_rateLimitWindowCounter (window s)) (rateLimit svc))
    as [Hroom|Hfull].
  - rewrite (enforceGlobalRateLimit_admit svc s l Hw Hroom). cbn [snd].
    set (s1 := setWindow _ (tick s)).
    destruct (IH s1) as (Hc & Hb & Hs & Ht).
    { intros k Hk. unfold s1 at 1. simpl clockReads.
      replace (S (clockReads s) + k)%nat with (clockReads s + S k)%nat by lia.
      apply Hin. simpl. lia. }
    rewrite Hc, Hb, Hs, Ht. unfold s1. simpl.
    replace (Z.to_nat (rateLimit svc - _rateLimitWindowCounter (window s)))
      with (S (Z.to_nat (rateLimit svc - (_rateLimitWindowCounter (window s) + 1))))
      by lia.
    simpl. repeat split; lia.
  - rewrite (enforceGlobalRateLimit_reject svc s l Hw Hfull). cbn [snd].
    set (s1 := setWindow _ (tick s)).
    destruct (IH s1) as (Hc & Hb & Hs & Ht).
    { intros k Hk. unfold s1 at 1. simpl clockReads.
      replace (S (clockReads s) + k)%nat with (clockReads s + S k)%nat by lia.
      apply Hin. simpl. lia. }
    rewrite Hc, Hb, Hs, Ht. unfold s1. simpl.
    replace (Z.to_nat (rateLimit svc - _rateLimitWindowCounter (window s)))
      with 0%nat by lia.
    rewrite Nat.min_0_r. simpl. rewrite <- app_assoc. repeat split; lia.
Qed.

Lemma rate_limit_series_witness :
  _rateLimitWindowCounter
    (window (fold_left (λ s l, (enforceGlobalRateLimit Demo.publicService l s).2)
               [1; 2; 3; 4; 5; 6; 7]%nat Demo.start)) = 5
  ∧ _rateLimitedApiCalls
      (window (fold_left (λ s l, (enforceGlobalRateLimit Demo.publicService l s).2)
                 [1; 2; 3; 4; 5; 6; 7]%nat Demo.start)) = [6; 7]%nat.
Proof.
  destruct (rate_limit_series Demo.publicService [1; 2; 3; 4; 5; 6; 7]%nat Demo.start)
    as (Hc & Hb & _).
  - intros k Hk. simpl in Hk. unfold nextRateLimitWindow. simpl. lia.
  - split; [exact Hc | exact Hb].
Defined.

(** X15.  A call that finds the window full is rejected after its
    request has been built and [before] has been emitted: it fails with
    [LocalRemoteAPIRateLimitExceeded] for the call it built, dispatches
    nothing, emits [error] and [after], and is appended to the overflow
    buffer; the counter stays. *)
Theorem call_rate_limited
    svc name params eventContext overwriteUrl s a l s1 :
  prepareCall svc name params overwriteUrl s = (inr (a, l), s1) →
  sameWindow svc s →
  rateLimit svc ≤ _rateLimitWindowCounter (window s) →
  ∃ s',
    call svc name params eventContext overwriteUrl s =
      (inl (LocalRemoteAPIRateLimitExceeded l), s')
    ∧ dispatched s' = dispatched s
    ∧ refreshed s' = refreshed s
    ∧ _rateLimitedApiCalls (window s') = _rateLimitedApiCalls (window s) ++ [l]
    ∧ _rateLimitWindowCounter (window s') = _rateLimitWindowCounter (window s)
    ∧ ev_type <$> emitted s' = (ev_type <$> emitted s) ++ [BEFORE; ERROR; AFTER]
    ∧ ∃ c, callAt (heap s') l = Some c ∧ response c = None.
Proof.
  intros Hprep Hw Hfull.
  destruct (prepareCall_inr _ _ _ _ _ _ _ _ Hprep)
    as (ep & url & c & _ & _ & _ & Hauth & _ & -> & ->).
  rewrite call_unfold, Hprep, emit_eq. cbn [snd].
  set (before := Build_Event _ BEFORE _ _ _ _).
  set (sB := addEvent before _).
  assert (sameWindow svc sB) as HwB by exact Hw.
  assert (rateLimit svc ≤ _rateLimitWindowCounter (window sB)) as HfullB by exact Hfull.
  assert (executeApiCall svc params (length (heap s)) (Some a) sB =
            (inl (LocalRemoteAPIRateLimitExceeded (length (heap s))),
             (enforceGlobalRateLimit svc (length (heap s)) sB).2)) as E1.
  { unfold executeApiCall, bind.
    by rewrite (enforceGlobalRateLimit_reject svc sB _ HwB HfullB). }
  rewrite E1, (enforceGlobalRateLimit_reject svc sB _ HwB HfullB).
  rewrite !emit_eq. cbn [snd]. eexists. split; [reflexivity|]. simpl.
  repeat (split; [done|]). split.
  { rewrite !fmap_app. simpl. by rewrite <- !app_assoc. }
  exists c. split; [apply callAt_app_new|].
  destruct (authorize_request _ _ _ Hauth) as (_ & -> & _). done.
Qed.

Lemma call_rate_limited_witness :
  ∃ s',
    call Demo.publicService "getEmpty" (Some 0%nat) None None Demo.full =
      (inl (LocalRemoteAPIRateLimitExceeded 1%nat), s')
    ∧ dispatched s' = [].
Proof.
  edestruct (call_rate_limited Demo.publicService "getEmpty" (Some 0%nat) None None
               Demo.full) as (s' & Hcall & Hd & _).
  - vm_compute. reflexivity.
  - vm_compute. reflexivity.
  - vm_compute. discriminate.
  - exists s'. split; [exact Hcall | exact Hd].
Defined.

(** ** The request of the retry *)

Section RetryRequest.

Variable svc : Service.

(** After the retry attempt nothing more is dispatched. *)
Lemma call_retry_tail name params retried (r2 : Exn + loc) s4 res s' :
  match r2 with
  | inr _ => completeCall svc name params retried s4
  | inl retryError =>
    if isRetryAPICall retryError
    then (inl (AuthenticationFailed retried retryError), s4)
    else completeCall svc name params retried s4
  end = (res, s') →
  dispatched s' = dispatched s4.
Proof.
  pose proof (completeCall_sameDispatches svc name params retried s4) as Hs.
  destruct r2 as [x|l].
  - destruct (isRetryAPICall x); [by intros [= <- <-]|].
    intros E. by rewrite E in Hs.
  - intros E. by rewrite E in Hs.
Qed.

End RetryRequest.

(** X16.  When a call refreshes an expired token and dispatches a
    retry, the request of the retry is rebuilt without [overwriteUrl]:
    its URL is the one constructed from the endpoint's template and the
    caller's path params, while the first request went to
    [overwriteUrl] when one was given.  (The injected refresh function,
    the service's [onApiError] and the transport do not forge the retry
    signal.) *)
Theorem call_retry_ignores_overwriteUrl
    svc name params eventContext overwriteUrl s res s' ep ap rp d1 e d2 :
  _endpoints svc !! name = Some ep →
  buildAuthStrategy svc ep = inr (RefreshableBearerTokenAuthStrategy ap rp) →
  (∀ q, raisesNoRetry (refreshAccessToken rp q)) →
  (∀ q x c y, raisesNoRetry (onApiError svc q x c y)) →
  call svc name params eventContext overwriteUrl s = (res, s') →
  dispatched s' !! length (dispatched s) = Some d1 →
  d_result d1 = inl e →
  isRetryAPICall e = false →
  isAccessTokenExpiredError rp (d_call d1) e = true →
  dispatched s' !! S (length (dispatched s)) = Some d2 →
  ∃ p0 url,
    paramsAt (heap s) params = Some p0
    ∧ callUrl svc ep (Some p0) overwriteUrl = inr (cfg_url (requestConfig (d_call d1)))
    ∧ constructUrl (baseUrl svc) (ep_url ep) (p_pathParams p0) = inr url
    ∧ cfg_url (requestConfig (d_call d2)) = url.
Proof.
  intros Hep Hstrategy Hsane1 Hsane2 Hcall Hd1 He Hnoretry Hexp Hd2.
  destruct (first_request_shape svc _ _ _ _ _ _ _ _ Hcall Hd1)
    as (ep' & a' & url1 & H1). cbv zeta in H1.
  destruct H1 as (Hep' & _ & Hurl1 & _ & Hcfg1 & _).
  rewrite Hep in Hep'. injection Hep' as <-.
  destruct (call_first_failure svc _ _ _ _ _ _ _ _ _ _ _ Hcall Hd1 He Hep Hstrategy)
    as (s1 & r1 & s3 & sD & before & Hprep & E1 & Hl & Hepc & HhD & HdD & HrD & HeD
        & Hb1 & Hb2 & Hb3 & H).
  assert (callAt (heap sD) (d_apiCall d1) = Some (d_call d1)) as HcD.
  { rewrite HhD, Hl. apply callAt_app_new. }
  assert (∀ x, isRetryAPICall x = false → r1 = inl x → dispatched s3 = dispatched sD →
               False) as Hstop.
  { intros x Hx -> Hd3.
    destruct (call_fails_on_first_attempt svc _ _ _ _ _ _ _ _ _ _ _ _ Hcall Hprep E1 Hx)
      as [_ ->].
    eapply lookup_past_end; [|exact Hd2]. rewrite !emit_eq. simpl.
    rewrite Hd3, HdD, length_app. simpl. lia. }
  destruct (isApiError svc e) eqn:Hapi; cycle 1.
  { rewrite onDoCallError_notApi in H by done. destruct H as [-> ->].
    by destruct (Hstop e). }
  destruct (onDoCallError svc params (d_apiCall d1) _ e sD) as [r' sH] eqn:EH.
  apply onDoCallError_refresh with (c := d_call d1) in EH as (x & -> & Hx); [|done..].
  destruct H as [-> ->].
  destruct Hx as [[Hx HdH]|Hx]; [by destruct (Hstop x)|].
  clear Hstop.
  destruct Hx as (build & pl & p0 & newTokens & url & built & Hx). cbv zeta in Hx.
  destruct Hx as (Hbuild & -> & Hp0 & Hrefresh & Hurl & Hauth & -> & ->).
  rewrite HhD, paramsAt_app_call in Hp0.
  exists p0, url. split; [done|]. rewrite Hp0 in Hurl1. split; [by rewrite Hcfg1|].
  rewrite Hepc in Hurl. split; [exact Hurl|].
  set (s3 := afterRefresh sD pl _ (d_apiCall d1) _ built) in *.
  set (l1 := length (heap sD)) in *.
  assert (callAt (heap s3) l1 = Some built) as Hc1.
  { unfold s3, afterRefresh. simpl heap.
    match goal with |- callAt (?h ++ _) _ = _ =>
      replace l1 with (length h) by (by rewrite !length_insert) end.
    apply callAt_app_new. }
  assert (dispatched s3 = dispatched s ++ [d1]) as Hd3 by exact HdD.
  rewrite call_unfold, Hprep, E1 in Hcall.
  destruct (executeApiCall svc (Some pl) l1 _ s3) as [r2 s4] eqn:E2.
  assert (dispatched s' = dispatched s4) as Hd4.
  { cbv beta iota in Hcall. by eapply call_retry_tail. }
  destruct (executeApiCall_cases _ _ _ _ _ _ _ _ Hc1 E2)
    as [(_ & (_ & Hq & _) & _)|[(_ & _ & sE & (_ & Hq & _) & ->)|(_ & sE & _ & H)]].
  - exfalso. eapply lookup_past_end; [|exact Hd2].
    rewrite Hd4, Hq, Hd3, length_app. simpl. lia.
  - exfalso. eapply lookup_past_end; [|exact Hd2].
    rewrite Hd4. simpl. rewrite Hq, Hd3, length_app. simpl. lia.
  - cbv zeta in H. destruct H as [Hd5 _].
    rewrite Hd4, Hd5, Hd3, <- app_assoc in Hd2. simpl in Hd2.
    rewrite lookup_app_r in Hd2 by lia.
    replace (S (length (dispatched s)) - length (dispatched s))%nat with 1%nat in Hd2
      by lia.
    injection Hd2 as <-. cbn [d_call]. unfold requestConfig. cbn [cfg_url].
    destruct (authorize_headers _ _ _ Hauth) as (-> & _). reflexivity.
Qed.

Lemma call_retry_ignores_overwriteUrl_witness :
  ∃ d1 d2,
    dispatched (call (Demo.guardedService Demo.expiredThenOk)
                  "refreshableBearerAuthEndpoint" (Some 0%nat) None
                  (Some "http://elsewhere.test/once") Demo.start).2 = [d1; d2]
    ∧ cfg_url (requestConfig (d_call d1)) = "http://elsewhere.test/once"
    ∧ cfg_url (requestConfig (d_call d2)) = "http://testapi.com/refreshable-bearer-auth".
Proof.
  destruct (dispatched (call (Demo.guardedService Demo.expiredThenOk)
                          "refreshableBearerAuthEndpoint" (Some 0%nat) None
                          (Some "http://elsewhere.test/once") Demo.start).2)
    as [|d1 [|d2 [|d3 ds]]] eqn:Hds;
    try (exfalso; revert Hds; vm_compute; discriminate).
  destruct (call_retry_ignores_overwriteUrl (Demo.guardedService Demo.expiredThenOk)
              "refreshableBearerAuthEndpoint" (Some 0%nat) None
              (Some "http://elsewhere.test/once") Demo.start
              (call (Demo.guardedService Demo.expiredThenOk)
                 "refreshableBearerAuthEndpoint" (Some 0%nat) None
                 (Some "http://elsewhere.test/once") Demo.start).1
              (call (Demo.guardedService Demo.expiredThenOk)
                 "refreshableBearerAuthEndpoint" (Some 0%nat) None
                 (Some "http://elsewhere.test/once") Demo.start).2
              Demo.guardedEndpoint noAuthStrategyParams Demo.refreshParams
              d1 (AxiosError (Some (Demo.status 401))) d2)
    as (p0 & url & Hp0 & Hu1 & Hu & Hu2).
  - vm_compute. reflexivity.
  - vm_compute. reflexivity.
  - intros q. exact I.
  - intros q x c y. exact I.
  - by destruct (call _ _ _ _ _ _).
  - by rewrite Hds.
  - revert Hds. vm_compute. by intros [= <- _].
  - reflexivity.
  - revert Hds. vm_compute. by intros [= <- _].
  - by rewrite Hds.
  - exists d1, d2. split; [reflexivity|].
    assert (Some Demo.params = Some p0) as [= <-] by exact Hp0.
    assert (@inr Exn string "http://elsewhere.test/once" =
            inr (cfg_url (requestConfig (d_call d1)))) as [= Hx1] by exact Hu1.
    assert (@inr Exn string "http://testapi.com/refreshable-bearer-auth" = inr url)
      as [= Hx] by exact Hu.
    rewrite <- Hx in Hu2. split; [symmetry; exact Hx1 | exact Hu2].
Defined.

(** ** Signatures *)

Lemma prefix_take needle n s :
  String.prefix needle (Text.take n s) = true → String.prefix needle s = true.
Proof.
  revert n s. induction needle as [|c needle IH]; intros n s; [by destruct s|].
  destruct n as [|n], s as [|c' s]; simpl; try done.
  destruct (ascii_dec c c'); [|done]. apply IH.
Qed.

Lemma prefix_empty needle :
  needle ≠ EmptyString → String.prefix needle EmptyString = false.
Proof. by destruct needle. Qed.

Lemma indexOf_nil needle :
  Text.indexOf needle EmptyString =
    if String.prefix needle EmptyString then Some O else None.
Proof. reflexivity. Qed.

Lemma indexOf_cons needle c s :
  Text.indexOf needle (String c s) =
    if String.prefix needle (String c s) then Some O else S <$> Text.indexOf needle s.
Proof. reflexivity. Qed.

(** The text before the first occurrence does not contain the needle. *)
Lemma indexOf_take needle s i :
  needle ≠ EmptyString →
  Text.indexOf needle s = Some i →
  Text.indexOf needle (Text.take i s) = None.
Proof.
  intros Hneedle. revert i. induction s as [|c s IH]; intros i.
  - intros _. destruct i; change (Text.take _ EmptyString) with EmptyString;
      by rewrite indexOf_nil, prefix_empty.
  - rewrite indexOf_cons.
    destruct (String.prefix needle (String c s)) eqn:Hp.
    + intros [= <-]. change (Text.take 0 (String c s)) with EmptyString.
      by rewrite indexOf_nil, prefix_empty.
    + destruct (Text.indexOf needle s) as [j|] eqn:Hj; [|done].
      intros [= <-]. change (Text.take (S j) (String c s)) with (String c (Text.take j s)).
      rewrite indexOf_cons.
      destruct (String.prefix needle (String c (Text.take j s))) eqn:Hp'.
      * apply (prefix_take needle (S j) (String c s)) in Hp'. congruence.
      * by rewrite (IH j).
Qed.

(** The text splits at the first occurrence, where the needle starts. *)
Lemma indexOf_split needle s i :
  Text.indexOf needle s = Some i →
  ∃ rest, s = (Text.take i s ++ rest)%string ∧ String.prefix needle rest = true.
Proof.
  revert i. induction s as [|c s IH]; intros i.
  - rewrite indexOf_nil. destruct (String.prefix needle EmptyString) eqn:Hp; [|done].
    intros [= <-]. by exists EmptyString.
  - rewrite indexOf_cons. destruct (String.prefix needle (String c s)) eqn:Hp.
    + intros [= <-]. by exists (String c s).
    + destruct (Text.indexOf needle s) as [j|] eqn:Hj; [|done].
      intros [= <-]. destruct (IH j eq_refl) as (rest & Hs & Hrest).
      exists rest. split; [|done].
      change (Text.take (S j) (String c s)) with (String c (Text.take j s)).
      exact (f_equal (String c) Hs).
Qed.

Lemma append_empty_r (s : string) : (s ++ EmptyString)%string = s.
Proof. induction s as [|c s IH]; [done|]. exact (f_equal (String c) IH). Qed.

(** X17.  [removeSignature] returns the text up to the first signature
    marker: the text is the result followed by a rest that is empty or
    starts with the marker, and the marker does not occur in the
    result; so removing the signature twice is removing it once. *)
Theorem removeSignature_spec text :
  (∃ rest, text = (removeSignature text ++ rest)%string
     ∧ (rest = EmptyString ∨ String.prefix Text.signatureMarker rest = true))
  ∧ Text.indexOf Text.signatureMarker (removeSignature text) = None
  ∧ removeSignature (removeSignature text) = removeSignature text.
Proof.
  assert (Text.indexOf Text.signatureMarker (removeSignature text) = None) as Hnone.
  { unfold removeSignature.
    destruct (Text.indexOf Text.signatureMarker text) as [i|] eqn:Hi; [|done].
    by apply indexOf_take. }
  split; [|split; [done|]].
  - unfold removeSignature.
    destruct (Text.indexOf Text.signatureMarker text) as [i|] eqn:Hi.
    + destruct (indexOf_split _ _ _ Hi) as (rest & Hs & Hrest).
      exists rest. by split; [|right].
    + exists EmptyString. split; [by rewrite append_empty_r | by left].
  - unfold removeSignature at 1. by rewrite Hnone.
Qed.

(** ** Endpoint definitions *)

Lemma isWordChar_slash : Str.isWordChar "/" = false.
Proof. reflexivity. Qed.

Lemma isWordChar_colon : Str.isWordChar ":" = false.
Proof. reflexivity. Qed.

Lemma matchPathParam_slash c rest name :
  matchPathParam (String c rest) = Some name →
  c = "/"%char ∧ ∃ rest', rest = String ":" rest' ∧ name = Str.takeWord rest'
    ∧ Str.isEmpty name = false.
Proof.
  unfold matchPathParam. destruct rest as [|c2 rest']; [done|].
  destruct (Ascii.eqb c "/") eqn:Hc; [|done].
  destruct (Ascii.eqb c2 ":") eqn:Hc2; [|done]. simpl.
  apply Ascii.eqb_eq in Hc, Hc2. subst c c2.
  destruct (Str.isEmpty (Str.takeWord rest')) eqn:He; [done|].
  intros [= <-]. eauto.
Qed.

(** Whatever the scan for [/:name] finds, the scan for [:name] finds
    too, also when it is still passing over the name it found last. *)
Lemma execPathParams_execColonParams s :
  (∀ k name, name ∈ execPathParams k s → name ∈ execColonParams k s)
  ∧ (∀ k name, (k ≤ String.length (Str.takeWord s))%nat →
       name ∈ execPathParams O s → name ∈ execColonParams k s).
Proof.
  induction s as [|c rest [IHA IHB]]; [by split; intros [|?] ?|].
  assert (∀ k name, (k ≤ String.length (Str.takeWord (String c rest)))%nat →
            name ∈ execPathParams O (String c rest) →
            name ∈ execColonParams k (String c rest)) as HB.
  { intros k name Hk. destruct k as [|k].
    - change (execPathParams O (String c rest)) with
        (match matchPathParam (String c rest) with
         | Some name => name :: execPathParams (S (String.length name)) rest
         | None => execPathParams O rest
         end).
      change (execColonParams O (String c rest)) with
        (match matchColonParam (String c rest) with
         | Some name => name :: execColonParams (String.length name) rest
         | None => execColonParams O rest
         end).
      destruct (matchPathParam (String c rest)) as [found|] eqn:Hm.
      + apply matchPathParam_slash in Hm as (-> & rest' & -> & -> & Hne).
        change (matchColonParam (String "/" (String ":" rest'))) with (@None string).
        change (execColonParams O (String ":" rest')) with
          (match matchColonParam (String ":" rest') with
           | Some name => name :: execColonParams (String.length name) rest'
           | None => execColonParams O rest'
           end).
        change (matchColonParam (String ":" rest')) with
          (if Str.isEmpty (Str.takeWord rest') then None else Some (Str.takeWord rest')).
        rewrite Hne. rewrite !elem_of_cons. intros [->|Hin]; [by left|right].
        apply (IHA (S (String.length (Str.takeWord rest')))) in Hin. exact Hin.
      + intros Hin. destruct (matchColonParam (String c rest)) as [found|] eqn:Hc.
        * right. unfold matchColonParam in Hc.
          destruct (Ascii.eqb c ":"); [|done].
          destruct (Str.isEmpty (Str.takeWord rest)); [done|].
          injection Hc as <-. by apply IHB.
        * apply IHB; [lia | done].
    - simpl in Hk. destruct (Str.isWordChar c) eqn:Hw; [|simpl in Hk; lia].
      simpl in Hk.
      change (execColonParams (S k) (String c rest)) with (execColonParams k rest).
      change (execPathParams O (String c rest)) with
        (match matchPathParam (String c rest) with
         | Some name => name :: execPathParams (S (String.length name)) rest
         | None => execPathParams O rest
         end).
      destruct (matchPathParam (String c rest)) as [found|] eqn:Hm.
      + apply matchPathParam_slash in Hm as (-> & _). by rewrite isWordChar_slash in Hw.
      + apply IHB. lia. }
  split; [|exact HB].
  intros [|k] name; [apply HB; lia|]. apply IHA.
Qed.

Lemma declareParam_lookup (names : list string) (pathParams : gmap string string) name :
  name ≠ "__proto__" →
  name ∈ names ∨ pathParams !! name = Some "string" →
  fold_left declareParam names pathParams !! name = Some "string".
Proof.
  intros Hname. revert pathParams.
  induction names as [|n names IH]; intros pathParams [Hin|Hm]; simpl.
  - by apply elem_of_nil in Hin.
  - done.
  - apply IH. apply elem_of_cons in Hin as [<-|Hin]; [right|by left].
    unfold declareParam. rewrite decide_False by done. apply lookup_insert_eq.
  - apply IH. right. unfold declareParam. destruct (decide (n = "__proto__")); [done|].
    destruct (decide (n = name)) as [->|Hn]; [apply lookup_insert_eq|].
    by rewrite lookup_insert_ne.
Qed.

(** X18.  An endpoint made by [defineEndpoint] declares, with the type
    ["string"], every path parameter that [extractPathParamNames] finds
    in its URL, and so every parameter [constructUrl] asks for; only
    a parameter called [__proto__] is left out. *)
Theorem defineEndpoint_declares_path_params config name :
  name ∈ extractPathParamNames (config_url config) →
  name ≠ "__proto__" →
  ∃ pathParams,
    def_pathParams (defineEndpoint config) = Some pathParams
    ∧ pathParams !! name = Some "string".
Proof.
  intros Hin Hname. unfold extractPathParamNames in Hin.
  apply (proj1 (execPathParams_execColonParams _)) in Hin.
  pose proof (declareParam_lookup _ ∅ name Hname (or_introl Hin)) as Hlook.
  unfold defineEndpoint. cbn [def_pathParams].
  destruct (decide (fold_left declareParam (execColonParams O (config_url config)) ∅ = ∅))
    as [He|_].
  - rewrite He in Hlook. by rewrite lookup_empty in Hlook.
  - eauto.
Qed.

Lemma defineEndpoint_declares_path_params_witness :
  ∃ pathParams,
    def_pathParams (defineEndpoint Demo.localEndpoint) = Some pathParams
    ∧ pathParams !! "userId" = Some "string".
Proof.
  apply (defineEndpoint_declares_path_params Demo.localEndpoint "userId").
  - vm_compute. apply list_elem_of_In. left. reflexivity.
  - discriminate.
Defined.

(** ** Message parts *)

(** Induction on a message part and, in a container, on its sub-parts. *)
Lemma MessagePart_nested_ind (P : MessagePart → Prop) :
  (∀ mimeType data, P (Part mimeType None data)) →
  (∀ mimeType subParts data, Forall P subParts → P (Part mimeType (Some subParts) data)) →
  ∀ part, P part.
Proof.
  intros Hleaf Hnode. fix IH 1. intros [mimeType [subParts|] data]; [|apply Hleaf].
  apply Hnode. induction subParts as [|subPart subParts IHs]; constructor; [apply IH | exact IHs].
Qed.

(** The [forEach] loop of [extractContentParts] is a fold. *)
Lemma extractContentParts_container mimeType subParts data contentParts :
  extractContentParts (Part mimeType (Some subParts) data) contentParts =
    fold_left (λ contentParts subPart, extractContentParts subPart contentParts)
      subParts contentParts.
Proof.
  simpl. revert contentParts.
  induction subParts as [|subPart subParts IH]; intros contentParts; [done|].
  simpl. apply IH.
Qed.

(** X19.  [extractContentParts] keeps what the array held and appends to
    it what the part gives on an empty array; every part it appends is
    a leaf (it has no [parts]) of type text/plain or text/html. *)
Theorem extractContentParts_spec part contentParts :
  extractContentParts part contentParts = contentParts ++ extractContentParts part []
  ∧ Forall (λ found, part_parts found = None ∧ isTextPart found = true)
      (extractContentParts part []).
Proof.
  revert contentParts. induction part as [mimeType data|mimeType subParts data IH]
    using MessagePart_nested_ind; intros contentParts.
  - simpl. destruct (isTextPart _) eqn:Htext.
    + split; [done|]. by repeat constructor.
    + split; [by rewrite app_nil_r | constructor].
  - rewrite !extractContentParts_container.
    assert (∀ acc, fold_left (λ contentParts subPart, extractContentParts subPart contentParts)
                     subParts acc
                   = acc ++ fold_left (λ contentParts subPart,
                                         extractContentParts subPart contentParts) subParts []
                   ∧ Forall (λ found, part_parts found = None ∧ isTextPart found = true)
                       (fold_left (λ contentParts subPart,
                                     extractContentParts subPart contentParts) subParts []))
      as Hfold.
    { induction IH as [|subPart subParts Hsub _ IHs]; intros acc.
      - simpl. split; [by rewrite app_nil_r | constructor].
      - simpl. destruct (Hsub acc) as [Hacc _]. destruct (Hsub []) as [_ Hleaves].
        destruct (IHs (extractContentParts subPart acc)) as [Hrest _].
        destruct (IHs (extractContentParts subPart [])) as [Hrest' Hall].
        split.
        + rewrite Hrest, Hrest', Hacc. by rewrite <- app_assoc.
        + rewrite Hrest'. apply Forall_app. split; [done|]. by destruct (IHs []). }
    apply Hfold.
Qed.

(** ** Normalizing with a mapping table *)

